(** * CYBERRAG: indicator extraction, chunking and the relevance filter

    A shallow embedding of the algorithmic core of the repository:
    [ingestion_process.py] (deobfuscate, extract_iocs,
    chunk_text_by_sentence_and_paragraph, remove_prefix_matches and the
    renaming of the processed files), [src/search.py] (_filterresults,
    search), [src/embedder.py] and the progress tracker of
    [src/logger.py], with the properties stated about them. *)

From Stdlib Require Import ZArith QArith Qround Ascii String List Lia Lqa.
From Stdlib Require Import DecimalString DecimalPos DecimalZ.
From stdpp Require Import gmap strings list sorting.

Local Open Scope Z_scope.

#[local] Set Warnings "-clear-no-such-hyp".

(** ** Python exceptions and results *)

Inductive exn : Type :=
| KeyError (key : string)
| IndexError (msg : string)
| ValueError (msg : string)
| TypeError (msg : string).

Inductive result (A : Type) : Type :=
| Ok (a : A)
| Raise (e : exn).

Arguments Ok {A} a.
Arguments Raise {A} e.

#[global] Instance result_ret : MRet result := λ A a, Ok a.

#[global] Instance result_bind : MBind result := λ A B k r,
  match r with
  | Ok a => k a
  | Raise e => Raise e
  end.

(** ** Python strings

    A text is the list of its characters.  A character is a code point
    below 256; the classes below are Python's for that range
    ([str.isspace], [str.isdecimal], [str.isalnum], [str.lower]). *)

Module Str.

Abbreviation str := (list ascii).

Definition lit (s : string) : str := list_ascii_of_string s.

Definition code (c : ascii) : N := N_of_ascii c.

Definition between (lo hi : N) (c : ascii) : bool :=
  ((lo <=? code c) && (code c <=? hi))%N.

Definition isspace (c : ascii) : bool :=
  between 9 13 c || between 28 32 c || (code c =? 133)%N || (code c =? 160)%N.

Definition isdecimal (c : ascii) : bool := between 48 57 c.

Definition isalnum (c : ascii) : bool :=
  isdecimal c || between 65 90 c || between 97 122 c
  || (code c =? 170)%N || between 178 179 c || (code c =? 181)%N
  || between 185 186 c || between 188 190 c
  || between 192 214 c || between 216 246 c || between 248 255 c.

Definition lower_char (c : ascii) : ascii :=
  if between 65 90 c || between 192 214 c || between 216 222 c
  then ascii_of_N (code c + 32) else c.

Definition upper_char (c : ascii) : ascii :=
  if between 97 122 c || between 224 246 c || between 248 254 c
  then ascii_of_N (code c - 32) else c.

(** [s.lower()] *)
Definition lower (s : str) : str := map lower_char s.

(** [s.strip()] *)
Fixpoint lstrip (s : str) : str :=
  match s with
  | c :: s' => if isspace c then lstrip s' else s
  | [] => []
  end.

Definition rstrip (s : str) : str := rev (lstrip (rev s)).

Definition strip (s : str) : str := rstrip (lstrip s).

(** [s.split()]: the maximal runs of characters that are not blanks.
    [fields] cuts at every blank, [split] drops the empty fields. *)
Fixpoint fields (s : str) : list str :=
  match s with
  | [] => [[]]
  | c :: s' =>
      if isspace c then [] :: fields s'
      else match fields s' with
           | f :: fs => (c :: f) :: fs
           | [] => [[c]]
           end
  end.

Definition nonempty (s : str) : bool :=
  match s with [] => false | _ :: _ => true end.

Definition split (s : str) : list str := List.filter nonempty (fields s).

(** [sep.join(l)] *)
Fixpoint join (sep : str) (l : list str) : str :=
  match l with
  | [] => []
  | [s] => s
  | s :: l' => s ++ sep ++ join sep l'
  end.

(** [s.replace(old, new)] for a non-empty [old]: the occurrences of
    [old] are found from the left and do not overlap; [skip] counts the
    characters of an occurrence still to step over. *)
Fixpoint is_prefix (p s : str) : bool :=
  match p, s with
  | [], _ => true
  | a :: p', b :: s' => (code a =? code b)%N && is_prefix p' s'
  | _ :: _, [] => false
  end.

Fixpoint replace_from (old new : str) (skip : nat) (s : str) : str :=
  match s with
  | [] => []
  | c :: s' =>
      match skip with
      | S k => replace_from old new k s'
      | O =>
          if is_prefix old s then new ++ replace_from old new (length old - 1) s'
          else c :: replace_from old new 0 s'
      end
  end.

Definition replace (old new s : str) : str := replace_from old new 0 s.

(** [int(v)] on a text: the value of a non-empty run of decimal digits.
    (Python also accepts a sign, surrounding blanks and underscores; the
    texts converted here are matches of [\d{1,5}].) *)
Definition digit_value (c : ascii) : Z := Z.of_N (code c) - 48.

Definition py_int_of_str (v : str) : result Z :=
  if nonempty v && forallb isdecimal v
  then Ok (foldl (λ n c, 10 * n + digit_value c) 0 v)
  else Raise (ValueError "invalid literal for int() with base 10").

(** [str(n)] *)
Definition py_str_of_int (n : Z) : str :=
  lit (NilZero.string_of_int (Z.to_int n)).

(** The order of [sorted] on texts: lexicographic on the code points. *)
Fixpoint str_leb (a b : str) : bool :=
  match a, b with
  | [], _ => true
  | _ :: _, [] => false
  | x :: a', y :: b' =>
      if (code x <? code y)%N then true
      else if (code x =? code y)%N then str_leb a' b' else false
  end.

Definition str_le (a b : str) : Prop := str_leb a b = true.

#[global] Instance str_le_dec a b : Decision (str_le a b).
Proof. unfold str_le. apply _. Defined.

Definition sorted (l : list str) : list str := merge_sort str_le l.

(** [list(set(l))]: the distinct elements of [l] in the order in which
    the interpreter's set yields them.  The order depends on the hash
    seed of the process, so it is a parameter. *)
Class SetOrder : Type := {
  set_list : list str → list str;
  set_list_perm l : set_list l ≡ₚ remove_dups l
}.

End Str.

(** ** Python's [re]: a backtracking matcher

    Patterns are kept as syntax trees.  [run] lists every way a pattern
    matches at a position, in the order in which the backtracking engine
    tries them; the engine's match is the first of the list. *)

Module Re.

Import Str.

(** The members of a bracketed set. *)
Inductive citem : Type :=
| Ch (c : ascii)            (* a character *)
| Range (lo hi : ascii)     (* lo-hi *)
| Digit                     (* \d *)
| Space                     (* \s *)
| Word.                     (* \w *)

Inductive regex : Type :=
| Eps
| Chr (c : ascii)                            (* a literal character *)
| In (negate : bool) (items : list citem)    (* [...] and [^...] *)
| Seq (r1 r2 : regex)
| Alt (r1 r2 : regex)                        (* r1|r2 *)
| Rep (lo : nat) (hi : option nat) (r : regex)  (* greedy r{lo,hi} *)
| Group (n : nat) (r : regex)                (* capturing group number n *)
| Boundary                                   (* \b *)
| Behind (items : list citem).               (* (?<=[...]) *)

(** [re.compile(pattern, flags)] *)
Record pattern : Type := Pattern { ignorecase : bool; expr : regex }.

Definition item_in (it : citem) (c : ascii) : bool :=
  match it with
  | Ch a => (code a =? code c)%N
  | Range lo hi => between (code lo) (code hi) c
  | Digit => isdecimal c
  | Space => isspace c
  | Word => isalnum c || (code c =? 95)%N
  end.

(** Under [re.I] a character belongs to a set when its lower-case form is
    the lower-case form of a member. *)
Definition set_has (ic : bool) (items : list citem) (c : ascii) : bool :=
  if ic then
    existsb (λ it, item_in it (lower_char c) || item_in it (upper_char (lower_char c))) items
  else existsb (λ it, item_in it c) items.

Definition set_match (ic negate : bool) (items : list citem) (c : ascii) : bool :=
  xorb negate (set_has ic items c).

Definition is_word (c : option ascii) : bool :=
  match c with Some c => item_in Word c | None => false end.

(** [\b]: the characters on the two sides differ in being word
    characters; outside the text counts as not a word character. *)
Definition at_boundary (prev : option ascii) (s : str) : bool :=
  xorb (is_word prev) (is_word (head s)).

(** The captured groups, the latest capture first. *)
Definition caps : Type := list (nat * str).

Fixpoint group (n : nat) (g : caps) : option str :=
  match g with
  | [] => None
  | (k, v) :: g' => if decide (k = n) then Some v else group n g'
  end.

(** The character before the position reached after matching [m]. *)
Definition last_char (prev : option ascii) (m : str) : option ascii :=
  match last m with Some c => Some c | None => prev end.

(** A way to match: the text matched, the text left, the groups. *)
Definition way : Type := str * str * caps.

Definition one_char (ok : ascii → bool) (s : str) (g : caps) : list way :=
  match s with
  | c :: s' => if ok c then [([c], s', g)] else []
  | [] => []
  end.

(** Greedy repetition of [step]: one more iteration first, stopping
    afterwards.  An iteration that matches nothing is not taken (the
    repeated parts of this program's patterns always consume a
    character), and [fuel] bounds the iterations by the text left. *)
Definition stop (lo : nat) (s : str) (g : caps) : list way :=
  match lo with O => [([], s, g)] | S _ => [] end.

Fixpoint rep (step : option ascii → str → caps → list way)
    (fuel lo : nat) (hi : option nat)
    (prev : option ascii) (s : str) (g : caps) : list way :=
  match fuel with
  | O => stop lo s g
  | S fuel' =>
      match hi with
      | Some O => stop lo s g
      | _ =>
          (w1 ← step prev s g;
           match w1.1.1 with
           | [] => []
           | _ :: _ =>
               w2 ← rep step fuel' (pred lo) (pred <$> hi)
                        (last_char prev w1.1.1) w1.1.2 w1.2;
               [(w1.1.1 ++ w2.1.1, w2.1.2, w2.2)]
           end)
          ++ stop lo s g
      end
  end.

Fixpoint run (ic : bool) (r : regex)
    (prev : option ascii) (s : str) (g : caps) : list way :=
  match r with
  | Eps => [([], s, g)]
  | Chr a => one_char (set_match ic false [Ch a]) s g
  | In negate items => one_char (set_match ic negate items) s g
  | Seq r1 r2 =>
      w1 ← run ic r1 prev s g;
      w2 ← run ic r2 (last_char prev w1.1.1) w1.1.2 w1.2;
      [(w1.1.1 ++ w2.1.1, w2.1.2, w2.2)]
  | Alt r1 r2 => run ic r1 prev s g ++ run ic r2 prev s g
  | Rep lo hi r' => rep (run ic r') (S (length s)) lo hi prev s g
  | Group n r' =>
      w ← run ic r' prev s g; [(w.1.1, w.1.2, (n, w.1.1) :: w.2)]
  | Boundary => if at_boundary prev s then [([], s, g)] else []
  | Behind items =>
      match prev with
      | Some c => if set_match ic false items c then [([], s, g)] else []
      | None => []
      end
  end.

(** *** Scanning a text for the matches of a pattern *)

(** A match found by the scan: the text skipped since the previous
    match, the text matched, and the groups. *)
Definition found : Type := str * str * caps.

Definition first_nonempty (ws : list way) : option way :=
  List.find (λ w : way, nonempty w.1.1) ws.

(** The non-overlapping matches from the left, with the text between
    them and the text after the last one.  [skip] counts the characters
    of the current match still to step over, [pending] holds (reversed)
    the text skipped since the previous match.  After an empty match the
    next match at the same position must not be empty. *)
Fixpoint scan (p : pattern) (skip : nat) (pending : str)
    (prev : option ascii) (s : str) : list found * str :=
  match s with
  | [] =>
      match run (ignorecase p) (expr p) prev [] [] with
      | w :: _ => ([(rev pending, w.1.1, w.2)], [])
      | [] => ([], rev pending)
      end
  | c :: s' =>
      match skip with
      | S k => scan p k pending (Some c) s'
      | O =>
          let ways := run (ignorecase p) (expr p) prev s [] in
          match ways with
          | [] => scan p 0 (c :: pending) (Some c) s'
          | w :: _ =>
              match w.1.1 with
              | _ :: _ =>
                  let '(fs, tl) := scan p (length w.1.1 - 1) [] (Some c) s' in
                  ((rev pending, w.1.1, w.2) :: fs, tl)
              | [] =>
                  match first_nonempty ways with
                  | Some w' =>
                      let '(fs, tl) := scan p (length w'.1.1 - 1) [] (Some c) s' in
                      ((rev pending, [], w.2) :: ([], w'.1.1, w'.2) :: fs, tl)
                  | None =>
                      let '(fs, tl) := scan p 0 [c] (Some c) s' in
                      ((rev pending, [], w.2) :: fs, tl)
                  end
              end
          end
      end
  end.

(** [p.finditer(s)] *)
Definition finditer (p : pattern) (s : str) : list found :=
  (scan p 0 [] None s).1.

(** The number of capturing groups of a pattern. *)
Fixpoint groups (r : regex) : nat :=
  match r with
  | Seq r1 r2 | Alt r1 r2 => groups r1 + groups r2
  | Rep _ _ r' => groups r'
  | Group _ r' => S (groups r')
  | _ => 0
  end.

(** [p.findall(s)]: the matched texts when the pattern has no group, the
    texts of the group when it has one, tuples of texts otherwise; a
    group that took no part gives the empty text. *)
Inductive item : Type :=
| Text (s : str)
| Tuple (l : list str).

Definition findall (p : pattern) (s : str) : list item :=
  let n := groups (expr p) in
  map (λ f : found,
         match n with
         | 0%nat => Text f.1.2
         | 1%nat => Text (default [] (group 1 f.2))
         | _ => Tuple (map (λ i, default [] (group i f.2)) (seq 1 n))
         end)
      (finditer p s).

(** [re.split(pattern, s)] for a pattern without groups: the texts
    between the matches. *)
Definition split (p : pattern) (s : str) : list str :=
  let '(fs, tl) := scan p 0 [] None s in
  map (λ f : found, f.1.1) fs ++ [tl].

(** [re.sub(pattern, repl, s)]; the template [repl] is a list of
    literal texts and group references. *)
Inductive template_item : Type :=
| TText (s : str)
| TGroup (n : nat).     (* \n *)

Definition expand (repl : list template_item) (g : caps) : str :=
  concat (map (λ t, match t with
                    | TText s => s
                    | TGroup n => default [] (group n g)
                    end) repl).

Definition sub (p : pattern) (repl : list template_item) (s : str) : str :=
  let '(fs, tl) := scan p 0 [] None s in
  concat (map (λ f : found, f.1.1 ++ expand repl f.2) fs) ++ tl.

(** *** Writing patterns *)

Fixpoint seq_of (l : list regex) : regex :=
  match l with
  | [] => Eps
  | [r] => r
  | r :: l' => Seq r (seq_of l')
  end.

Definition chars (s : string) : regex := seq_of (map Chr (lit s)).

Definition opt (r : regex) : regex := Rep 0 (Some 1%nat) r.
Definition star (r : regex) : regex := Rep 0 None r.
Definition plus (r : regex) : regex := Rep 1 None r.
Definition times (lo hi : nat) (r : regex) : regex := Rep lo (Some hi) r.
Definition at_least (lo : nat) (r : regex) : regex := Rep lo None r.
Definition digit : regex := In false [Digit].
Definition space : regex := In false [Space].

End Re.

(** ** [ingestion_process.py] *)

Module Ingestion.

Import Str Re.

Local Open Scope string_scope.
Local Open Scope list_scope.
Local Open Scope Z_scope.

Definition LF : ascii := "010".
Definition CR : ascii := "013".

(** *** The chunker *)

(** [\n\s*\n] *)
Definition paragraph_break : pattern :=
  Pattern false (seq_of [Chr LF; star space; Chr LF]).

(** [(?<=[.!?])\s+] *)
Definition sentence_break : pattern :=
  Pattern false (seq_of [Behind [Ch "."; Ch "!"; Ch "?"]; plus space]).

(** [len(s.split())] *)
Definition word_count (s : str) : Z := Z.of_nat (length (Str.split s)).

(** The body of the loop over the sentences of a paragraph; the state is
    [(chunks, current_chunk)]. *)
Definition add_sentence (max_chunk_size : Z)
    (st : list str * list str) (sentence : str) : list str * list str :=
  if word_count (join (lit " ") (st.2 ++ [sentence])) <=? max_chunk_size
  then (st.1, st.2 ++ [sentence])
  else (st.1 ++ [strip (join (lit " ") st.2)], [sentence]).

(** The body of the loop over the paragraphs. *)
Definition add_paragraph (max_chunk_size : Z)
    (chunks : list str) (para : str) : list str :=
  let sentences := Re.split sentence_break (strip para) in
  let st := foldl (add_sentence max_chunk_size) (chunks, []) sentences in
  match st.2 with
  | [] => st.1
  | _ :: _ => st.1 ++ [strip (join (lit " ") st.2)]
  end.

Definition chunk_text_by_sentence_and_paragraph
    (text : str) (max_chunk_size : Z) : list str :=
  let paragraphs := Re.split paragraph_break (strip text) in
  let chunks := foldl (add_paragraph max_chunk_size) [] paragraphs in
  List.filter nonempty chunks.

(** The chunk made of a group of sentences. *)
Definition chunk_of (g : list str) : str := strip (join (lit " ") g).

(** The sentences of a text, split directly. *)
Definition sentences_of (text : str) : list str :=
  flat_map (λ para, Re.split sentence_break (strip para))
           (Re.split paragraph_break (strip text)).

(** *** Deobfuscation *)

(** [hxxp(s?)://] with [re.I] *)
Definition hxxp : pattern :=
  Pattern true (seq_of [chars "hxxp"; Group 1 (opt (Chr "s")); chars "://"]).

Definition deobfuscate (text : str) : str :=
  let t := text in
  let t := Re.sub hxxp [TText (lit "http"); TGroup 1; TText (lit "://")] t in
  let t := replace (lit "{.}") (lit ".")
             (replace (lit "(.)") (lit ".")
                (replace (lit "[.]") (lit ".") t)) in
  t.

(** The rewriting of the scheme written directly, as a scan from the
    left: [starts_with_ci p s] tells whether [s] starts with the
    lower-case text [p] whatever the case of its own letters; [keep]
    tells whether the s of hxxps is copied as the text has it or written
    in lower case; [skip] counts the characters of the occurrence still
    to step over. *)
Fixpoint starts_with_ci (p s : str) : bool :=
  match p, s with
  | [], _ => true
  | a :: p', c :: s' => Ascii.eqb (lower_char c) a && starts_with_ci p' s'
  | _ :: _, [] => false
  end.

Fixpoint rewrite_scheme (keep : bool) (skip : nat) (s : str) : str :=
  match s with
  | [] => []
  | c :: s' =>
      match skip with
      | S k => rewrite_scheme keep k s'
      | O =>
          if starts_with_ci (lit "hxxps://") s then
            lit "http" ++ [if keep then nth 4 s "s"%char else "s"%char]
              ++ lit "://" ++ rewrite_scheme keep 7 s'
          else if starts_with_ci (lit "hxxp://") s then
            lit "http://" ++ rewrite_scheme keep 6 s'
          else c :: rewrite_scheme keep 0 s'
      end
  end.

Definition replace_dots (t : str) : str :=
  replace (lit "{.}") (lit ".")
    (replace (lit "(.)") (lit ".")
       (replace (lit "[.]") (lit ".") t)).

(** The function as the specification words it: every hxxp:// and
    hxxps://, in any case, becomes http:// and https://, and then the
    bracketed dots become dots. *)
Definition deobfuscate_as_specified (text : str) : str :=
  replace_dots (rewrite_scheme false 0 text).

(** *** The indicator patterns *)

Definition octet : regex :=
  Alt (seq_of [chars "25"; In false [Range "0" "5"]])
      (Alt (seq_of [Chr "2"; In false [Range "0" "4"]; digit])
           (seq_of [opt (Chr "1"); opt digit; digit])).

Definition hex_upper : regex := In false [Range "A" "F"; Range "0" "9"].
Definition hex_lower : regex := In false [Range "a" "f"; Range "0" "9"].

Definition digest (n : nat) : regex :=
  seq_of [Boundary; times n n hex_lower; Boundary].

Definition not_backslash : regex := In true [Ch "\"; Ch CR; Ch LF].
Definition not_slash : regex := In true [Ch "/"; Space].

Definition IOC_PATTERNS : list (string * pattern) :=
  [ ("cves", Pattern true
       (seq_of [Boundary; chars "CVE-"; times 4 4 digit; Chr "-";
                times 4 7 digit; Boundary]));
    ("tids", Pattern true
       (seq_of [Boundary; Chr "T"; times 4 4 digit;
                opt (Seq (Chr ".") (times 1 3 digit)); Boundary]));
    ("ipv4", Pattern false
       (seq_of [Boundary; times 3 3 (Seq octet (Chr ".")); octet; Boundary]));
    ("ipv6", Pattern true
       (seq_of [Boundary; times 2 7 (Seq (times 0 4 hex_upper) (Chr ":"));
                times 0 4 hex_upper; Boundary]));
    ("hashes", Pattern true
       (Alt (digest 32) (Alt (digest 40) (digest 64))));
    ("emails", Pattern true
       (seq_of [Boundary;
                plus (In false [Range "A" "Z"; Range "0" "9"; Ch "."; Ch "_";
                                Ch "%"; Ch "+"; Ch "-"]);
                Chr "@";
                plus (In false [Range "A" "Z"; Range "0" "9"; Ch "."; Ch "-"]);
                Chr "."; at_least 2 (In false [Range "A" "Z"]); Boundary]));
    ("urls", Pattern true
       (seq_of [Boundary; chars "http"; opt (Chr "s"); chars "://";
                plus (In true [Space; Ch "<"; Ch ">"; Ch "]"]); Boundary]));
    ("domains", Pattern false
       (seq_of [Boundary;
                plus (Seq (plus (In false [Range "a" "z"; Range "A" "Z";
                                           Range "0" "9"; Ch "-"]))
                          (Chr "."));
                at_least 2 (In false [Range "a" "z"; Range "A" "Z"]);
                Boundary]));
    ("paths", Pattern false
       (Alt (seq_of [In false [Range "A" "Z"; Range "a" "z"]; Chr ":"; Chr "\";
                     star (Seq (plus not_backslash) (Chr "\"));
                     plus not_backslash])
            (seq_of [Chr "/"; star (Seq (plus not_slash) (Chr "/"));
                     plus not_slash])));
    ("ports", Pattern true
       (seq_of [Boundary; chars "port"; opt space;
                Group 1 (times 1 5 digit); Boundary])) ].

(** *** [extract_iocs] *)

Section extract.

Context `{SetOrder}.

(** [0 < n <= 65535] *)
Definition in_port_range (n : Z) : Prop := 0 < n ≤ 65535.

#[global] Instance in_port_range_dec n : Decision (in_port_range n).
Proof. unfold in_port_range. apply _. Defined.

(** [m.group(1)] for each match; [int] of a group that took no part is a
    [TypeError]. *)
Definition port_numbers (matches : list found) : result (list Z) :=
  mapM (λ f : found,
          match group 1 f.2 with
          | Some v => py_int_of_str v
          | None => Raise (TypeError "int() argument must be a string")
          end) matches.

(** [rx.findall(text)], and the first components when it gives tuples. *)
Definition found_texts (rx : pattern) (text : str) : list str :=
  let vals := findall rx text in
  match vals with
  | Tuple _ :: _ =>
      map (λ v, match v with Tuple l => default [] (head l) | Text s => take 1 s end) vals
  | _ => map (λ v, match v with Text s => s | Tuple _ => [] end) vals
  end.

(** The body of the loop over [IOC_PATTERNS]: the value stored under
    [key]. *)
Definition extract_key (key : string) (rx : pattern) (text : str) : result (list str) :=
  vals ←
    (if decide (key = "ports") then
       ns ← port_numbers (finditer rx text);
       Ok (set_list (map py_str_of_int
                         (filter in_port_range ns)))
     else
       let vals := found_texts rx text in
       if decide (key ∈ ["cves"; "tids"; "hashes"; "emails"; "urls"; "domains"; "paths"])
       then Ok (set_list (map strip vals))
       else if decide (key ∈ ["ipv4"; "ipv6"])
       then Ok (set_list (map (λ v, lower (strip v)) vals))
       else Ok vals);
  Ok (sorted vals).

(** [md[key]] *)
Definition getitem (md : gmap string (list str)) (key : string) : result (list str) :=
  match md !! key with
  | Some vals => Ok vals
  | None => Raise (KeyError key)
  end.

Definition extract_iocs (raw_text : str) : result (gmap string (list str)) :=
  let text := deobfuscate raw_text in
  md ← foldl (λ acc kr,
                md ← acc;
                vals ← extract_key kr.1 kr.2 text;
                Ok (<[kr.1 := vals]> md))
             (Ok ∅) IOC_PATTERNS;
  ipv4 ← getitem md "ipv4";
  let md := <["ipv4" := set_list ipv4]> md in
  ipv6 ← getitem md "ipv6";
  let md := <["ipv6" := set_list ipv6]> md in
  Ok md.

Definition extract_iocs_from_text (q : str) : result (gmap string (list str)) :=
  extract_iocs q.

End extract.

End Ingestion.

(** ** The relevance filter of [src/search.py] *)

Module Search.

Local Open Scope string_scope.
Local Open Scope list_scope.
Local Open Scope Z_scope.

(** One object of [results.objects]: its [properties] carry the two
    fields the filter reads. *)
Record hit : Type := Hit { doc_name : string; text : string }.

#[global] Instance hit_eq_dec : EqDecision hit.
Proof. solve_decision. Defined.

(** *** pandas: a frame of string cells

    [pd.DataFrame(resultdict)] is built from a list of row dicts
    [{"doc_name": .., "text": ..}]: its columns are the keys of the rows,
    so a frame built from no row at all has no column. *)
Record DataFrame : Type :=
  { columns : list string; rows : list (string * string) }.

Definition pd_DataFrame (resultdict : list (string * string)) : DataFrame :=
  match resultdict with
  | [] => {| columns := []; rows := [] |}
  | _ :: _ => {| columns := ["doc_name"; "text"]; rows := resultdict |}
  end.

(** [DataFrame.drop_duplicates()] keeps the first occurrence of each row. *)
Fixpoint drop_dups_from (seen l : list (string * string)) : list (string * string) :=
  match l with
  | [] => []
  | r :: l' =>
      if decide (r ∈ seen) then drop_dups_from seen l'
      else r :: drop_dups_from (r :: seen) l'
  end.

Definition drop_duplicates (df : DataFrame) : DataFrame :=
  {| columns := columns df; rows := drop_dups_from [] (rows df) |}.

(** [df[c]]: the cells of column [c], or [KeyError] when the frame has
    no such column. *)
Definition cell (c : string) (r : string * string) : string :=
  if decide (c = "doc_name") then r.1 else r.2.

Definition getitem (df : DataFrame) (c : string) : result (list string) :=
  if decide (c ∈ columns df) then Ok (map (cell c) (rows df))
  else Raise (KeyError c).

(** [Series.isin(values)] and [df.loc[mask]]. *)
Definition isin (s : list string) (values : list string) : list bool :=
  map (λ d, bool_decide (d ∈ values)) s.

Fixpoint select {A} (l : list A) (mask : list bool) : list A :=
  match l, mask with
  | x :: l', b :: mask' => if b then x :: select l' mask' else select l' mask'
  | _, _ => []
  end.

Definition loc (df : DataFrame) (mask : list bool) : DataFrame :=
  {| columns := columns df; rows := select (rows df) mask |}.

(** [dict(zip(keys, values))]: later pairs overwrite earlier ones. *)
Definition dict_zip (keys values : list string) : gmap string string :=
  foldl (λ m kv, <[kv.1 := kv.2]> m) ∅ (zip keys values).

(** *** numpy: [np.quantile]

    The library is taken through what its documentation promises, on
    data that are integers binary64 holds exactly and for [q] between 0
    and 1.  [np.quantile(a, q)] returns a binary64 number, which is a
    rational; the result depends on the data as a multiset; and the
    quantile of data that are all the same integer [v] is [v]. *)

(** The integers below [2 ^ 53] in absolute value: binary64 holds each of
    them exactly. *)
Definition exact_int (x : Z) : Prop := Z.abs x < 2 ^ 53.

Class Numpy : Type := {
  np_quantile : list Z → Q → result Q;
  np_quantile_Ok a q :
    a ≠ [] → Forall exact_int a → (0 <= q <= 1)%Q →
    ∃ p, np_quantile a q = Ok p;
  np_quantile_perm a b q :
    Forall exact_int a → a ≡ₚ b → np_quantile a q = np_quantile b q;
  np_quantile_const a v q p :
    (0 <= q <= 1)%Q → Forall (λ x, x = v) a → exact_int v →
    np_quantile a q = Ok p → (p == inject_Z v)%Q
}.

(** The default method, linear: the value at the virtual index
    [q * (n - 1)] of the sorted data, interpolated linearly between its
    two neighbours.  [exact_quantile] computes it without rounding; the
    library computes the same expression in binary64, and its value can
    differ from this one in the last places. *)
Definition linear_interpolation (sorted : list Z) (q : Q) : Q :=
  let n := Z.of_nat (length sorted) in
  let virtual_index := (inject_Z (n - 1) * q)%Q in
  let previous_index := Qfloor virtual_index in
  let next_index := Z.min (previous_index + 1) (n - 1) in
  let gamma := (virtual_index - inject_Z previous_index)%Q in
  let previous := nth (Z.to_nat previous_index) sorted 0 in
  let next := nth (Z.to_nat next_index) sorted 0 in
  (inject_Z previous + inject_Z (next - previous) * gamma)%Q.

Definition exact_quantile (a : list Z) (q : Q) : result Q :=
  if negb (Qle_bool 0 q && Qle_bool q 1) then
    Raise (ValueError "Quantiles must be in the range [0, 1]")
  else
    match a with
    | [] => Raise (IndexError "index -1 is out of bounds for axis 0 with size 0")
    | _ :: _ => Ok (linear_interpolation (merge_sort Z.le a) q)
    end.

(** [int(x)] on a number: truncation towards zero. *)
Definition py_int (x : Q) : Z := Z.quot (Qnum x) (Z.pos (Qden x)).

(** *** [_filterresults] *)

Section filter.

Context `{Numpy}.

(** [hitsdict[d] += 1], and [hitsdict[d] = 1] on [KeyError]. *)
Definition count_hit (hitsdict : gmap string Z) (d : string) : gmap string Z :=
  match hitsdict !! d with
  | Some n => <[d := n + 1]> hitsdict
  | None => <[d := 1]> hitsdict
  end.

(** The loop over [results.objects]. *)
Definition collect (objects : list hit) : list (string * string) * gmap string Z :=
  foldl (λ '(resultdict, hitsdict) obj,
           (resultdict ++ [(doc_name obj, text obj)],
            count_hit hitsdict (doc_name obj)))
        ([], ∅) objects.

(** [int(np.quantile(list(hitsdict.values()), 0.90))] *)
Definition threshold (hitsdict : gmap string Z) : result Z :=
  p ← np_quantile (map_to_list hitsdict).*2 (9 # 10) ; Ok (py_int p).

Definition high_values (hitsdict : gmap string Z) (thr : Z) : list string :=
  (filter (λ kv : string * Z, (thr ≤ kv.2)%Z) (map_to_list hitsdict)).*1.

Definition _filterresults (objects : list hit) : result (gmap string string) :=
  let '(resultdict, hitsdict) := collect objects in
  let res_df := drop_duplicates (pd_DataFrame resultdict) in
  res_df ←
    (if decide (0 < size hitsdict)%nat then
       thr ← threshold hitsdict ;
       names ← getitem res_df "doc_name" ;
       Ok (loc res_df (isin names (high_values hitsdict thr)))
     else Ok res_df) ;
  names ← getitem res_df "doc_name" ;
  texts ← getitem res_df "text" ;
  Ok (dict_zip names texts).

(** *** Notions the properties are stated with *)

(** The hit-count of a document: the number of hits that reference it. *)
Definition hit_count (d : string) (objects : list hit) : Z :=
  Z.of_nat (length (filter (λ h, doc_name h = d) objects)).

(** The distinct documents of a hit list, and their hit-counts. *)
Definition documents (objects : list hit) : list string :=
  remove_dups (map doc_name objects).

Definition doc_counts (objects : list hit) : list Z :=
  map (λ d, hit_count d objects) (documents objects).

(** The [(doc_name, text)] rows of a hit list, exact duplicates collapsed
    onto their first occurrence. *)
Definition distinct_rows (objects : list hit) : list (string * string) :=
  drop_dups_from [] (map (λ h, (doc_name h, text h)) objects).

(** The text of the last row of [d] in a list of rows. *)
Definition last_text (d : string) (l : list (string * string)) : option string :=
  last (filter (λ kv, kv.1 = d) l).*2.

(** The rule as the specification words it: a document is kept exactly
    when its hit-count reaches the 90th percentile itself. *)
Definition percentile_rule (objects : list hit) (m : gmap string string) : Prop :=
  ∃ p, np_quantile (doc_counts objects) (9 # 10) = Ok p ∧
       ∀ d, d ∈ dom m ↔
            d ∈ documents objects ∧ (p <= inject_Z (hit_count d objects))%Q.

(** The rule the code follows: the percentile is truncated by [int]
    before the comparison. *)
Definition truncated_percentile_rule (objects : list hit) (m : gmap string string) : Prop :=
  ∃ p, np_quantile (doc_counts objects) (9 # 10) = Ok p ∧
       ∀ d, d ∈ dom m ↔
            d ∈ documents objects ∧ py_int p ≤ hit_count d objects.

Definition all_tie (objects : list hit) : Prop :=
  ∀ d d', d ∈ documents objects → d' ∈ documents objects →
          hit_count d objects = hit_count d' objects.

(** One text per retained document: the last of its distinct rows. *)
Definition one_text_per_document (objects : list hit) (m : gmap string string) : Prop :=
  NoDup (map_to_list m).*1 ∧
  ∀ d, d ∈ dom m →
       ∃ t, m !! d = Some t ∧ last_text d (distinct_rows objects) = Some t.

End filter.

(** Three hits on two documents: counts 1 and 2. *)
Definition two_documents : list hit :=
  [Hit "A" "t"; Hit "B" "u"; Hit "B" "v"].

(** Two hits on two documents: both counts are 1. *)
Definition tied_documents : list hit :=
  [Hit "A" "t"; Hit "B" "u"].

End Search.

(** ** The rest of [ingestion_process.py]: pruning by prefix, and the
       files the ingestion loop takes and renames *)

Module IngestionLoop.

Import Str.

Local Open Scope string_scope.
Local Open Scope list_scope.
Local Open Scope Z_scope.

(** [v.startswith(pref)] and [s.endswith(suffix)] *)
Definition startswith (v pref : str) : bool := is_prefix pref v.

Definition endswith (s suffix : str) : bool := is_prefix (rev suffix) (rev s).

Definition prefixes : list str :=
  [lit "/attack.mitre.org"; lit "https://attack.mitre.org"].

Definition remove_prefix_matches (values prefix_list : list str) : list str :=
  List.filter (λ v, negb (existsb (λ pref, startswith v pref) prefix_list)) values.

(** *** [os.path.splitext]

    [p.rfind(c)]: the index of the last [c] of [p], or -1. *)
Fixpoint rfind (c : ascii) (p : str) : Z :=
  match p with
  | [] => -1
  | x :: p' =>
      let r := rfind c p' in
      if 0 <=? r then r + 1
      else if Ascii.eqb x c then 0 else -1
  end.

(** [genericpath._splitext(p, sep, altsep, extsep)].  The extension
    starts at the last dot, when that dot comes after the last separator
    and after a character of the last component that is not a dot: the
    loop over [filenameIndex] looks for that character in
    [p[sepIndex + 1 : dotIndex]]. *)
Definition _splitext (p : str) (sep : ascii) (altsep : option ascii)
    (extsep : ascii) : str * str :=
  let sepIndex := rfind sep p in
  let sepIndex :=
    match altsep with
    | Some alt => Z.max sepIndex (rfind alt p)
    | None => sepIndex
    end in
  let dotIndex := rfind extsep p in
  if (sepIndex <? dotIndex)
     && existsb (λ c, negb (Ascii.eqb c extsep))
          (take (Z.to_nat (dotIndex - (sepIndex + 1)))
                (drop (Z.to_nat (sepIndex + 1)) p))
  then (take (Z.to_nat dotIndex) p, drop (Z.to_nat dotIndex) p)
  else (p, []).

(** [os.path] is [posixpath] or [ntpath]. *)
Inductive platform : Type := Posix | Windows.

Definition splitext (os : platform) (p : str) : str * str :=
  match os with
  | Posix => _splitext p "/" None "."
  | Windows => _splitext p "\" (Some "/"%char) "."
  end.

(** *** The loop over the directory entries *)

(** The test that passes over an entry:
    [filename.startswith('.') or name_part.endswith('_processed')]. *)
Definition skipped (os : platform) (filename : str) : bool :=
  let '(name_part, extension_part) := splitext os filename in
  startswith filename (lit ".") || endswith name_part (lit "_processed").

(** [f"{name_part}_processed{extension_part}"] *)
Definition new_filename (os : platform) (filename : str) : str :=
  let '(name_part, extension_part) := splitext os filename in
  name_part ++ lit "_processed" ++ extension_part.

End IngestionLoop.

(** ** [src/logger.py]: the progress tracker

    [stages] is a dict: it is kept as the list of its items in insertion
    order.  A time is a number of microseconds; the caller reads
    [datetime.now()] and passes it in as [now].  The difference of two
    times is a [timedelta], and [total_seconds] turns it into the float
    that the tracker stores; the log lines are left out. *)

Module Logger.

Local Open Scope string_scope.
Local Open Scope list_scope.
Local Open Scope Z_scope.

Inductive Status : Type := IN_PROGRESS | COMPLETED | FAILED.

(** [d[k]] and [d[k] = v] on the items of a dict: an existing key keeps
    its place, a new key goes to the end. *)
Fixpoint lookup {V} (k : string) (d : list (string * V)) : option V :=
  match d with
  | [] => None
  | (k', v) :: d' => if decide (k' = k) then Some v else lookup k d'
  end.

Fixpoint setitem {V} (k : string) (v : V) (d : list (string * V)) : list (string * V) :=
  match d with
  | [] => [(k, v)]
  | (k', v') :: d' =>
      if decide (k' = k) then (k, v) :: d' else (k', v') :: setitem k v d'
  end.

Section tracker.

Context {float : Type} (total_seconds : Z → float).

(** The dict kept for a stage; [duration] is a key it gets when the
    stage ends. *)
Record stage : Type := Stage {
  start_time : Z;
  description : string;
  status : Status;
  duration : option float
}.

Record ProgressTracker : Type := {
  stages : list (string * stage);
  current_stage : option string
}.

Definition __init__ : ProgressTracker :=
  {| stages := []; current_stage := None |}.

Definition start_stage (now : Z) (self : ProgressTracker)
    (stage_name description : string) : ProgressTracker :=
  {| current_stage := Some stage_name;
     stages := setitem stage_name
                 {| start_time := now; description := description;
                    status := IN_PROGRESS; duration := None |}
                 (stages self) |}.

Definition complete_stage (now : Z) (self : ProgressTracker)
    (stage_name details : string) : ProgressTracker :=
  match lookup stage_name (stages self) with
  | Some info =>
      let duration := total_seconds (now - start_time info) in
      {| current_stage := current_stage self;
         stages := setitem stage_name
                     {| start_time := start_time info;
                        description := description info;
                        status := COMPLETED; duration := Some duration |}
                     (stages self) |}
  | None => self
  end.

Definition fail_stage (now : Z) (self : ProgressTracker)
    (stage_name error : string) : ProgressTracker :=
  match lookup stage_name (stages self) with
  | Some info =>
      let duration := total_seconds (now - start_time info) in
      {| current_stage := current_stage self;
         stages := setitem stage_name
                     {| start_time := start_time info;
                        description := description info;
                        status := FAILED; duration := Some duration |}
                     (stages self) |}
  | None => self
  end.

End tracker.

End Logger.

(** ** [src/embedder.py] and [search] of [src/search.py]

    The calls to Ollama and to Weaviate are taken as given outcomes: a
    call returns a value or raises.  What is embedded is the code around
    them: the stages it tracks, what it catches and raises again, and
    what it returns. *)

Module Pipeline.

Import Str Search Logger.

Local Open Scope string_scope.
Local Open Scope list_scope.
Local Open Scope Z_scope.

(** An exception: one of those of the code embedded here, or one raised
    inside a service. *)
Inductive raised : Type :=
| Own (e : exn)
| Service (msg : string).

Inductive outcome (A : Type) : Type :=
| Returned (a : A)
| Raised (e : raised).

Arguments Returned {A} a.
Arguments Raised {A} e.

(** [str(e)]: the message, and for a [KeyError] the key in quotes. *)
Definition str_of_raised (e : raised) : string :=
  match e with
  | Own (KeyError key) => "'" ++ key ++ "'"
  | Own (IndexError msg) | Own (ValueError msg) | Own (TypeError msg) => msg
  | Service msg => msg
  end.

(** [str(n)] in an f-string. *)
Definition show (n : Z) : string := string_of_list_ascii (py_str_of_int n).

Section pipeline.

Context `{Numpy}.
Context {float : Type} (total_seconds : Z → float).
Context {vector : Type}.

(** The outcomes of the calls to the services during one search:
    [weaviate.connect_to_custom] in [get_client], [client.collections.get],
    [ollama_client.embed(...)["embeddings"]],
    [collection.query.near_vector(...).objects] and [client.close]. *)
Record services : Type := {
  connect_to_custom : outcome unit;
  collections_get : outcome unit;
  ollama_embed : list string → outcome (list vector);
  near_vector : vector → Z → outcome (list hit);
  client_close : outcome unit
}.

Variable svc : services.

(** [TOP_K_DEFAULT] of [src/config.py]. *)
Variable TOP_K_DEFAULT : Z.

(** The state the code runs in: the shared [progress_tracker], and the
    number of times the clock was read; [clock n] is what
    [datetime.now()] gives at reading [n]. *)
Record world : Type := World {
  progress_tracker : @ProgressTracker float;
  readings : nat
}.

Variable clock : nat → Z.

Definition M (A : Type) : Type := world → outcome A * world.

#[local] Instance M_ret : MRet M := λ A a w, (Returned a, w).

#[local] Instance M_bind : MBind M := λ A B k m w,
  match m w with
  | (Returned a, w') => k a w'
  | (Raised e, w') => (Raised e, w')
  end.

Definition raise {A} (e : raised) : M A := λ w, (Raised e, w).

Definition call {A} (o : outcome A) : M A := λ w, (o, w).

Definition own {A} (r : result A) : M A :=
  match r with
  | Ok a => mret a
  | Raise e => raise (Own e)
  end.

(** [try: body except Exception as e: handler(e)] *)
Definition try_except {A} (body : M A) (handler : raised → M A) : M A := λ w,
  match body w with
  | (Returned a, w') => (Returned a, w')
  | (Raised e, w') => handler e w'
  end.

(** The three methods of the tracker, on the shared tracker; the clock
    is read by [start_stage], and by the two others for a stage that is
    there. *)
Definition known (stage_name : string) (w : world) : bool :=
  match lookup stage_name (stages (progress_tracker w)) with
  | Some _ => true
  | None => false
  end.

Definition tracker_start_stage (stage_name description : string) : M unit := λ w,
  (Returned (),
   World (start_stage (clock (readings w)) (progress_tracker w) stage_name description)
         (S (readings w))).

Definition tracker_complete_stage (stage_name details : string) : M unit := λ w,
  (Returned (),
   World (complete_stage total_seconds (clock (readings w)) (progress_tracker w)
            stage_name details)
         (if known stage_name w then S (readings w) else readings w)).

Definition tracker_fail_stage (stage_name error : string) : M unit := λ w,
  (Returned (),
   World (fail_stage total_seconds (clock (readings w)) (progress_tracker w)
            stage_name error)
         (if known stage_name w then S (readings w) else readings w)).

(** *** [src/embedder.py] *)

Definition embed_texts (texts : list string) : M (list vector) :=
  try_except
    (tracker_start_stage "embed_texts"
       ("Embedding " ++ show (Z.of_nat (length texts)) ++ " texts") ;;
     embeddings ← call (ollama_embed svc texts) ;
     tracker_complete_stage "embed_texts"
       ("Generated " ++ show (Z.of_nat (length embeddings)) ++ " embeddings") ;;
     mret embeddings)
    (λ e, tracker_fail_stage "embed_texts" (str_of_raised e) ;; raise e).

Definition embed_text (text : string) : M vector :=
  try_except
    (embeddings ← embed_texts [text] ;
     match embeddings with
     | v :: _ => mret v
     | [] => raise (Own (IndexError "list index out of range"))
     end)
    (λ e, raise e).

(** *** [src/search.py] *)

Definition get_client : M unit := call (connect_to_custom svc).

Definition search (query : string) : M (gmap string string) :=
  tracker_start_stage "search" ("Query: " ++ substring 0 50 query) ;;
  try_except
    (get_client ;;
     call (collections_get svc) ;;
     query_vector ← embed_text query ;
     objects ← call (near_vector svc query_vector TOP_K_DEFAULT) ;
     call (client_close svc) ;;
     filtered ← own (_filterresults objects) ;
     let result_count := Z.of_nat (size filtered) in
     tracker_complete_stage "search"
       ("Found " ++ show result_count ++ " documents") ;;
     mret (if decide (filtered = ∅) then ∅ else filtered))
    (λ e, tracker_fail_stage "search" (str_of_raised e) ;; raise e).

End pipeline.

End Pipeline.

(** * Properties *)

(** ** Python strings *)

Module StrFacts.

Import Str.

Local Open Scope list_scope.

Section blanks.

Definition blank (s : str) : Prop := forallb isspace s = true.

Lemma fields_cons s : ∃ f fs, fields s = f :: fs.
Proof.
  induction s as [|c s [f [fs IH]]]; simpl; [by eexists _, _|].
  destruct (isspace c); [by eexists _, _|]. rewrite IH. by eexists _, _.
Qed.

(** Cutting at a blank cuts the fields. *)
Lemma fields_app_blank a c b :
  isspace c = true → fields (a ++ c :: b) = fields a ++ fields b.
Proof.
  intros Hc. induction a as [|x a IH]; simpl.
  - by rewrite Hc.
  - rewrite IH. destruct (isspace x); [done|].
    by destruct (fields_cons a) as [f [fs ->]].
Qed.

Lemma split_app_blank a c b :
  isspace c = true → split (a ++ c :: b) = split a ++ split b.
Proof.
  intros Hc. unfold split. by rewrite fields_app_blank, List.filter_app.
Qed.

Lemma split_nil : split [] = [].
Proof. done. Qed.

Lemma split_cons_blank c s : isspace c = true → split (c :: s) = split s.
Proof. intros Hc. apply (split_app_blank [] c s Hc). Qed.

Lemma split_snoc_blank c s : isspace c = true → split (s ++ [c]) = split s.
Proof. intros Hc. by rewrite split_app_blank, split_nil, app_nil_r. Qed.

Lemma split_lstrip s : split (lstrip s) = split s.
Proof.
  induction s as [|c s IH]; [done|]. simpl.
  destruct (isspace c) eqn:Hc; [|done]. by rewrite split_cons_blank.
Qed.

Lemma rstrip_snoc s c :
  rstrip (s ++ [c]) = if isspace c then rstrip s else s ++ [c].
Proof.
  unfold rstrip. rewrite rev_app_distr. simpl.
  destruct (isspace c); [done|]. simpl. by rewrite rev_involutive.
Qed.

Lemma split_rstrip s : split (rstrip s) = split s.
Proof.
  induction s as [|c s IH] using rev_ind; [done|].
  rewrite rstrip_snoc. destruct (isspace c) eqn:Hc; [|done].
  by rewrite split_snoc_blank.
Qed.

(** Trimming a text keeps its words. *)
Lemma split_strip s : split (strip s) = split s.
Proof. unfold strip. by rewrite split_rstrip, split_lstrip. Qed.

(** The words of texts joined by single spaces are the words of the
    texts, in order. *)
Lemma split_join l : split (join (lit " ") l) = concat (map split l).
Proof.
  induction l as [|s l IH]; [done|].
  destruct l as [|s' l].
  - simpl. by rewrite app_nil_r.
  - change (join (lit " ") (s :: s' :: l))
      with (s ++ " "%char :: join (lit " ") (s' :: l)).
    rewrite split_app_blank by done. by rewrite IH.
Qed.

Lemma lstrip_blank s : forallb isspace (lstrip s) = forallb isspace s.
Proof.
  induction s as [|c s IH]; [done|]. simpl.
  destruct (isspace c) eqn:Hc; [done|]. simpl. by rewrite Hc.
Qed.

Lemma forallb_rev {A} (f : A → bool) l : forallb f (rev l) = forallb f l.
Proof.
  induction l as [|x l IH]; [done|]. simpl.
  rewrite forallb_app, IH. simpl. destruct (f x), (forallb f l); done.
Qed.

Lemma rstrip_blank s : forallb isspace (rstrip s) = forallb isspace s.
Proof. unfold rstrip. by rewrite forallb_rev, lstrip_blank, forallb_rev. Qed.

Lemma strip_blank s : forallb isspace (strip s) = forallb isspace s.
Proof. unfold strip. by rewrite rstrip_blank, lstrip_blank. Qed.

Lemma lstrip_nil s : lstrip s = [] ↔ blank s.
Proof.
  unfold blank. induction s as [|c s IH]; [done|]. simpl.
  destruct (isspace c); simpl; [done|]. split; done.
Qed.

Lemma rstrip_nil s : rstrip s = [] ↔ blank s.
Proof.
  assert (blank s ↔ blank (rev s)) as -> by (unfold blank; by rewrite forallb_rev).
  rewrite <- lstrip_nil. unfold rstrip. split; [|by intros ->].
  intros Hr. apply (f_equal (@rev ascii)) in Hr. by rewrite rev_involutive in Hr.
Qed.

(** [s.strip()] is empty exactly when [s] is empty or made of blanks. *)
Lemma strip_nil s : strip s = [] ↔ blank s.
Proof.
  unfold strip. rewrite rstrip_nil. unfold blank. by rewrite lstrip_blank.
Qed.

(** A trimmed text that is not empty is not made of blanks. *)
Lemma strip_not_blank s : strip s ≠ [] → strip (strip s) ≠ [].
Proof.
  rewrite !strip_nil. unfold blank. by rewrite strip_blank.
Qed.

End blanks.

End StrFacts.

(** ** The matcher *)

Module ReFacts.

Import Str Re.

Local Open Scope list_scope.

Section ways.

(** A step splits the text it is given into the text matched and the
    text left. *)
Definition splits (step : option ascii → str → caps → list way) : Prop :=
  ∀ prev s g w, w ∈ step prev s g → s = w.1.1 ++ w.1.2.

(** A step leaves the groups as they are. *)
Definition keeps_groups (step : option ascii → str → caps → list way) : Prop :=
  ∀ prev s g w, w ∈ step prev s g → w.2 = g.

Lemma one_char_inv ok s g w :
  w ∈ one_char ok s g → ∃ c s', s = c :: s' ∧ ok c = true ∧ w = ([c], s', g).
Proof.
  unfold one_char. destruct s as [|c s']; [by intros ?%elem_of_nil|].
  destruct (ok c) eqn:Hc; [|by intros ?%elem_of_nil].
  intros ->%list_elem_of_singleton. by exists c, s'.
Qed.

Lemma rep_inv step fuel lo hi prev s g w :
  w ∈ rep step fuel lo hi prev s g →
  (lo = 0%nat ∧ w = ([], s, g))
  ∨ ∃ fuel' w1 w2,
      fuel = S fuel' ∧ hi ≠ Some 0%nat
      ∧ w1 ∈ step prev s g ∧ w1.1.1 ≠ []
      ∧ w2 ∈ rep step fuel' (pred lo) (pred <$> hi)
                 (last_char prev w1.1.1) w1.1.2 w1.2
      ∧ w = (w1.1.1 ++ w2.1.1, w2.1.2, w2.2).
Proof.
  assert (∀ w, w ∈ stop lo s g → lo = 0%nat ∧ w = ([], s, g)) as Hstop.
  { intros w'. unfold stop. destruct lo; [|by intros ?%elem_of_nil].
    by intros ->%list_elem_of_singleton. }
  destruct fuel as [|fuel']; simpl; [left; by apply Hstop|].
  destruct (decide (hi = Some 0%nat)) as [->|Hhi]; [left; by apply Hstop|].
  intros Hw.
  assert (w ∈ (w1 ← step prev s g;
               match w1.1.1 with
               | [] => []
               | _ :: _ =>
                   w2 ← rep step fuel' (pred lo) (pred <$> hi)
                            (last_char prev w1.1.1) w1.1.2 w1.2;
                   [(w1.1.1 ++ w2.1.1, w2.1.2, w2.2)]
               end)
              ++ stop lo s g) as Hw'.
  { destruct hi as [[|h]|]; done. }
  clear Hw. apply elem_of_app in Hw' as [Hw|Hw]; [|left; by apply Hstop].
  right. apply list_elem_of_bind in Hw as [w1 [Hw Hw1]].
  destruct (w1.1.1) as [|c m] eqn:Hm; [by apply elem_of_nil in Hw|].
  apply list_elem_of_bind in Hw as [w2 [Hw Hw2]].
  apply list_elem_of_singleton in Hw.
  exists fuel', w1, w2. rewrite Hm. done.
Qed.

Lemma rep_splits step fuel lo hi :
  splits step → splits (rep step fuel lo hi).
Proof.
  intros Hstep. revert lo hi. induction fuel as [|fuel IH];
    intros lo hi prev s g w Hw; apply rep_inv in Hw
    as [[_ ->]|(fuel' & w1 & w2 & Hf & _ & Hw1 & _ & Hw2 & ->)]; try done.
  injection Hf as <-. simpl.
  rewrite <- app_assoc, <- (IH _ _ _ _ _ _ Hw2). apply (Hstep _ _ _ _ Hw1).
Qed.

Lemma rep_keeps_groups step fuel lo hi :
  keeps_groups step → keeps_groups (rep step fuel lo hi).
Proof.
  intros Hstep. revert lo hi. induction fuel as [|fuel IH];
    intros lo hi prev s g w Hw; apply rep_inv in Hw
    as [[_ ->]|(fuel' & w1 & w2 & Hf & _ & Hw1 & _ & Hw2 & ->)]; try done.
  injection Hf as <-. simpl.
  rewrite (IH _ _ _ _ _ _ Hw2). apply (Hstep _ _ _ _ Hw1).
Qed.

Lemma bind_ext_elem {A B} (f f' : A → list B) (l : list A) :
  (∀ x, x ∈ l → f x = f' x) → l ≫= f = l ≫= f'.
Proof.
  induction l as [|x l IH]; intros Hf; [done|]. cbn.
  rewrite (Hf x) by left. f_equal. apply IH. intros y Hy. apply Hf. by right.
Qed.

(** The fuel that [run] gives to a repetition, one more than the length
    of the text left, is enough: more fuel gives the same ways. *)
Lemma rep_fuel step fuel fuel' lo hi prev s g :
  splits step → (length s < fuel)%nat → (length s < fuel')%nat →
  rep step fuel lo hi prev s g = rep step fuel' lo hi prev s g.
Proof.
  intros Hstep. revert fuel' lo hi prev s g.
  induction fuel as [|fuel IH]; intros fuel' lo hi prev s g Hf Hf'; [lia|].
  destruct fuel' as [|fuel']; [lia|]. cbn [rep].
  destruct hi as [[|h]|]; [done| |];
    (f_equal; apply bind_ext_elem; intros w1 Hw1;
     pose proof (Hstep _ _ _ _ Hw1) as Hs;
     destruct (w1.1.1) as [|c m]; [done|];
     rewrite (IH fuel'); [done| |]; rewrite Hs, length_app in *; simpl in *; lia).
Qed.

Lemma run_splits ic r : splits (run ic r).
Proof.
  induction r as [|a|neg items|r1 IH1 r2 IH2|r1 IH1 r2 IH2|lo hi r IH|n r IH| |items];
    intros prev s g w Hw.
  - by apply list_elem_of_singleton in Hw as ->.
  - by apply one_char_inv in Hw as (c & s' & -> & _ & ->).
  - by apply one_char_inv in Hw as (c & s' & -> & _ & ->).
  - apply list_elem_of_bind in Hw as (w1 & Hw & Hw1).
    apply list_elem_of_bind in Hw as (w2 & ->%list_elem_of_singleton & Hw2).
    simpl. rewrite <- app_assoc, <- (IH2 _ _ _ _ Hw2). apply (IH1 _ _ _ _ Hw1).
  - apply elem_of_app in Hw as [Hw|Hw]; [apply (IH1 _ _ _ _ Hw) | apply (IH2 _ _ _ _ Hw)].
  - apply (rep_splits (run ic r) _ lo hi IH _ _ _ _ Hw).
  - apply list_elem_of_bind in Hw as (w1 & ->%list_elem_of_singleton & Hw1).
    apply (IH _ _ _ _ Hw1).
  - cbn [run] in Hw. destruct (at_boundary prev s); [|by apply elem_of_nil in Hw].
    by apply list_elem_of_singleton in Hw as ->.
  - cbn [run] in Hw. destruct prev as [c|]; [|by apply elem_of_nil in Hw].
    destruct (set_match ic false items c); [|by apply elem_of_nil in Hw].
    by apply list_elem_of_singleton in Hw as ->.
Qed.

Lemma run_rep_fuel ic lo hi r fuel prev s g :
  (length s < fuel)%nat →
  run ic (Rep lo hi r) prev s g = rep (run ic r) fuel lo hi prev s g.
Proof.
  intros Hf. cbn [run]. apply rep_fuel; [apply run_splits | lia | done].
Qed.

(** A pattern without groups leaves the groups as they are. *)
Lemma run_keeps_groups ic r : groups r = 0%nat → keeps_groups (run ic r).
Proof.
  induction r as [|a|neg items|r1 IH1 r2 IH2|r1 IH1 r2 IH2|lo hi r IH|n r IH| |items];
    intros Hg prev s g w Hw; simpl in Hg.
  - by apply list_elem_of_singleton in Hw as ->.
  - by apply one_char_inv in Hw as (c & s' & -> & _ & ->).
  - by apply one_char_inv in Hw as (c & s' & -> & _ & ->).
  - apply list_elem_of_bind in Hw as (w1 & Hw & Hw1).
    apply list_elem_of_bind in Hw as (w2 & ->%list_elem_of_singleton & Hw2).
    simpl. rewrite (IH2 ltac:(lia) _ _ _ _ Hw2). apply (IH1 ltac:(lia) _ _ _ _ Hw1).
  - apply elem_of_app in Hw as [Hw|Hw];
      [apply (IH1 ltac:(lia) _ _ _ _ Hw) | apply (IH2 ltac:(lia) _ _ _ _ Hw)].
  - apply (rep_keeps_groups (run ic r) _ lo hi (IH Hg) _ _ _ _ Hw).
  - done.
  - cbn [run] in Hw. destruct (at_boundary prev s); [|by apply elem_of_nil in Hw].
    by apply list_elem_of_singleton in Hw as ->.
  - cbn [run] in Hw. destruct prev as [c|]; [|by apply elem_of_nil in Hw].
    destruct (set_match ic false items c); [|by apply elem_of_nil in Hw].
    by apply list_elem_of_singleton in Hw as ->.
Qed.

(** Repeating a one-character step matches characters of its class,
    between [lo] and [hi] of them. *)
Lemma rep_chars ok step fuel lo hi prev s g w :
  (∀ prev s g, step prev s g = one_char ok s g) →
  w ∈ rep step fuel lo (Some hi) prev s g →
  forallb ok w.1.1 = true ∧ (lo ≤ length w.1.1 ≤ hi)%nat ∧ w.2 = g.
Proof.
  intros Hstep. revert lo hi prev s g w. induction fuel as [|fuel IH];
    intros lo hi prev s g w Hw; apply rep_inv in Hw
    as [[-> ->]|(fuel' & w1 & w2 & Hf & Hhi & Hw1 & _ & Hw2 & ->)];
    try done; try (simpl; split; [done | split; [lia | done]]).
  injection Hf as <-. rewrite Hstep in Hw1.
  apply one_char_inv in Hw1 as (c & s' & -> & Hc & ->). simpl in *.
  destruct hi as [|hi]; [done|]. simpl in Hw2.
  apply IH in Hw2 as (Hall & Hlen & Hg). rewrite Hc, Hall.
  split; [done|]. split; [lia | done].
Qed.

End ways.

Section literals.

(** Whether the text starts with the characters of [p], as the matcher
    compares them. *)
Fixpoint starts (ic : bool) (p s : str) : bool :=
  match p, s with
  | [], _ => true
  | a :: p', c :: s' => set_match ic false [Ch a] c && starts ic p' s'
  | _ :: _, [] => false
  end.

(** A sequence of literal characters matches in one way at most. *)
Lemma run_literal ic p prev s g :
  run ic (seq_of (map Chr p)) prev s g
  = if starts ic p s then [(take (length p) s, drop (length p) s, g)] else [].
Proof.
  revert prev s. induction p as [|a p IH]; intros prev s; [done|].
  destruct p as [|b p].
  - destruct s as [|c s]; [done|]. simpl.
    rewrite andb_true_r, take_0, drop_0.
    by destruct (xorb false (set_has ic [Ch a] c)).
  - change (seq_of (map Chr (a :: b :: p)))
      with (Seq (Chr a) (seq_of (map Chr (b :: p)))).
    cbn [run]. destruct s as [|c s]; [done|].
    change (starts ic (a :: b :: p) (c :: s))
      with (set_match ic false [Ch a] c && starts ic (b :: p) s).
    cbn [one_char]. destruct (set_match ic false [Ch a] c); [|done].
    cbn [mbind list_bind fst snd]. rewrite IH, app_nil_r.
    by destruct (starts ic (b :: p) s).
Qed.

(** An optional literal character: taken first, left out second. *)
Lemma run_opt_chr ic a prev s g :
  run ic (opt (Chr a)) prev s g
  = match s with
    | c :: s' =>
        if set_match ic false [Ch a] c then [([c], s', g); ([], s, g)]
        else [([], s, g)]
    | [] => [([], s, g)]
    end.
Proof.
  destruct s as [|c s']; [done|]. cbn [opt run rep length one_char].
  destruct (set_match ic false [Ch a] c); [|done].
  by destruct s'.
Qed.

End literals.

Section scanning.

(** Every match the scan reports is the first way, or the first
    non-empty way, in which the pattern matches somewhere. *)
Lemma scan_found p skip pending prev s f :
  f ∈ (scan p skip pending prev s).1 →
  ∃ prev' s' w, w ∈ run (ignorecase p) (expr p) prev' s' []
                ∧ f.1.2 = w.1.1 ∧ f.2 = w.2.
Proof.
  revert skip pending prev. induction s as [|c s IH]; intros skip pending prev; simpl.
  - destruct (run (ignorecase p) (expr p) prev [] []) as [|w ws] eqn:Hrun;
      simpl; [by intros ?%elem_of_nil|].
    intros ->%list_elem_of_singleton. exists prev, [], w. rewrite Hrun.
    split; [left | done].
  - destruct skip as [|k]; [|by apply IH].
    destruct (run (ignorecase p) (expr p) prev (c :: s) []) as [|w ws] eqn:Hrun;
      [by apply IH|].
    destruct (w.1.1) as [|x m] eqn:Hm.
    + destruct (first_nonempty (w :: ws)) as [w'|] eqn:Hfirst.
      * destruct (scan p (length w'.1.1 - 1) [] (Some c) s) as [fs tl] eqn:Hs.
        simpl. intros [->|[->|Hf]%elem_of_cons]%elem_of_cons.
        -- exists prev, (c :: s), w. rewrite Hrun, Hm. split; [left | done].
        -- exists prev, (c :: s), w'. rewrite Hrun. split; [|done].
           apply list_elem_of_In. by apply find_some in Hfirst as [? _].
        -- apply (IH (length w'.1.1 - 1)%nat [] (Some c)). by rewrite Hs.
      * destruct (scan p 0 [c] (Some c) s) as [fs tl] eqn:Hs.
        simpl. intros [->|Hf]%elem_of_cons.
        -- exists prev, (c :: s), w. rewrite Hrun, Hm. split; [left | done].
        -- apply (IH 0%nat [c] (Some c)). by rewrite Hs.
    + destruct (scan p (length (x :: m) - 1) [] (Some c) s) as [fs tl] eqn:Hs.
      simpl. intros [->|Hf]%elem_of_cons.
      * exists prev, (c :: s), w. rewrite Hrun, Hm. split; [left | done].
      * apply (IH (length (x :: m) - 1)%nat [] (Some c)). by rewrite Hs.
Qed.

Lemma finditer_found p s f :
  f ∈ finditer p s →
  ∃ prev' s' w, w ∈ run (ignorecase p) (expr p) prev' s' []
                ∧ f.1.2 = w.1.1 ∧ f.2 = w.2.
Proof. apply scan_found. Qed.

End scanning.

Section jumping.

Variable p : pattern.

(** The pattern never matches the empty text. *)
Definition never_empty : Prop :=
  ∀ prev s w, w ∈ run (ignorecase p) (expr p) prev s [] → w.1.1 ≠ [].

(** The texts between the matches, and the text after the last. *)
Definition pieces (r : list found * str) : list str :=
  map (λ f : found, f.1.1) r.1 ++ [r.2].

Lemma last_char_cons (prev : option ascii) c m :
  last_char prev (c :: m) = last_char (Some c) m.
Proof.
  unfold last_char. destruct m as [|x m]; [done|].
  change (last (c :: x :: m)) with (last (x :: m)).
  destruct (last (x :: m)) eqn:E; [done|]. by apply last_None in E.
Qed.

(** Stepping over the characters of a match leads to the text left. *)
Lemma scan_skip m pending prev rest :
  scan p (length m) pending prev (m ++ rest)
  = scan p 0 pending (last_char prev m) rest.
Proof.
  revert prev. induction m as [|c m IH]; intros prev; [done|].
  cbn [length app scan]. by rewrite IH, last_char_cons.
Qed.

Lemma scan_nil pending prev :
  never_empty → scan p 0 pending prev [] = ([], rev pending).
Proof.
  intros Hne. cbn [scan].
  destruct (run (ignorecase p) (expr p) prev [] []) as [|w ws] eqn:Hrun; [done|].
  assert (w ∈ run (ignorecase p) (expr p) prev [] []) as Hw by (rewrite Hrun; left).
  pose proof (run_splits _ _ _ _ _ _ Hw) as Hs.
  apply Hne in Hw. symmetry in Hs. by apply app_eq_nil in Hs as [? _].
Qed.

(** The scan, from a match to the text left by the match. *)
Lemma scan_cons pending prev c s :
  never_empty →
  scan p 0 pending prev (c :: s)
  = match run (ignorecase p) (expr p) prev (c :: s) [] with
    | [] => scan p 0 (c :: pending) (Some c) s
    | w :: _ =>
        let r := scan p 0 [] (last_char prev w.1.1) w.1.2 in
        ((rev pending, w.1.1, w.2) :: r.1, r.2)
    end.
Proof.
  intros Hne. cbn [scan].
  destruct (run (ignorecase p) (expr p) prev (c :: s) []) as [|w ws] eqn:Hrun; [done|].
  assert (w ∈ run (ignorecase p) (expr p) prev (c :: s) []) as Hw by (rewrite Hrun; left).
  pose proof (run_splits _ _ _ _ _ _ Hw) as Hs.
  apply Hne in Hw. destruct w as [[m rest] g]. cbn [fst snd] in *.
  destruct m as [|x m]; [done|]. injection Hs as -> ->.
  replace (length (x :: m) - 1)%nat with (length m) by (simpl; lia).
  rewrite scan_skip, last_char_cons.
  by destruct (scan p 0 [] (last_char (Some x) m) rest).
Qed.

(** A property of every piece, from an invariant of the scan: [inv u
    prev s] relates the text [u] skipped since the last match, the
    character before the position, and the text left. *)
Lemma pieces_Forall (inv : str → option ascii → str → Prop) (good : str → Prop) :
  never_empty →
  (∀ u prev c s, inv u prev (c :: s) →
     run (ignorecase p) (expr p) prev (c :: s) [] = [] →
     inv (u ++ [c]) (Some c) s) →
  (∀ u prev c s w ws, inv u prev (c :: s) →
     run (ignorecase p) (expr p) prev (c :: s) [] = w :: ws →
     good u ∧ inv [] (last_char prev w.1.1) w.1.2) →
  (∀ u prev, inv u prev [] → good u) →
  ∀ s u prev, inv u prev s → Forall good (pieces (scan p 0 (rev u) prev s)).
Proof.
  intros Hne Hstep Hmatch Hend s.
  remember (length s) as n eqn:Hn. revert s Hn.
  induction n as [n IH] using lt_wf_ind. intros s Hn u prev Hinv.
  destruct s as [|c s].
  - rewrite scan_nil by done. unfold pieces. cbn [map fst snd app].
    rewrite rev_involutive. repeat constructor. by apply (Hend u prev).
  - rewrite scan_cons by done.
    destruct (run (ignorecase p) (expr p) prev (c :: s) []) as [|w ws] eqn:Hrun.
    + change (c :: rev u) with ([c] ++ rev u).
      replace ([c] ++ rev u) with (rev (u ++ [c])) by (by rewrite rev_app_distr).
      apply (IH (length s)); [simpl in Hn; lia | done | by apply (Hstep u prev)].
    + destruct (Hmatch u prev c s w ws Hinv Hrun) as [Hgood Hinv'].
      assert (w ∈ run (ignorecase p) (expr p) prev (c :: s) []) as Hw
        by (rewrite Hrun; left).
      pose proof (run_splits _ _ _ _ _ _ Hw) as Hs. apply Hne in Hw.
      unfold pieces. cbn [map fst snd app]. rewrite rev_involutive.
      constructor; [done|].
      apply (IH (length w.1.2) ltac:(rewrite Hn, Hs, length_app; destruct (w.1.1); [done | simpl; lia])
               w.1.2 eq_refl [] _ Hinv').
Qed.

End jumping.

Section blanks.

(** The leading blanks of a text. *)
Fixpoint blanks (s : str) : str :=
  match s with
  | c :: s' => if isspace c then c :: blanks s' else []
  | [] => []
  end.

Lemma blanks_lstrip s : blanks s ++ lstrip s = s.
Proof.
  induction s as [|c s IH]; [done|]. simpl.
  destruct (isspace c); [|done]. simpl. by rewrite IH.
Qed.

Lemma blanks_blank s : forallb isspace (blanks s) = true.
Proof.
  induction s as [|c s IH]; [done|]. simpl.
  destruct (isspace c) eqn:Hc; [|done]. simpl. by rewrite Hc.
Qed.

Definition prefixed (c : ascii) (w : way) : way := (c :: w.1.1, w.1.2, w.2).

(** A repetition without upper bound of a set, one character further. *)
Lemma run_rep_set_nil ic lo neg items prev g :
  run ic (Rep lo None (In neg items)) prev [] g = stop lo [] g.
Proof. done. Qed.

Lemma map_prefixed c (l : list way) :
  l ≫= (λ w2 : way, [([c] ++ w2.1.1, w2.1.2, w2.2)]) = map (prefixed c) l.
Proof. induction l as [|w l IH]; [done|]. cbn. by rewrite <- IH. Qed.

Lemma rep_one_char_cons ok fuel lo prev c s g :
  rep (λ _ s g, one_char ok s g) (S fuel) lo None prev (c :: s) g
  = (if ok c
     then map (prefixed c)
            (rep (λ _ s g, one_char ok s g) fuel (pred lo) None (Some c) s g)
     else [])
    ++ stop lo (c :: s) g.
Proof.
  cbn [rep one_char]. f_equal. destruct (ok c); [|done].
  cbn [mbind list_bind fst snd]. rewrite app_nil_r.
  apply map_prefixed.
Qed.

Lemma run_rep_set_cons ic lo neg items prev c s g :
  run ic (Rep lo None (In neg items)) prev (c :: s) g
  = (if set_match ic neg items c
     then map (prefixed c) (run ic (Rep (pred lo) None (In neg items)) (Some c) s g)
     else [])
    ++ stop lo (c :: s) g.
Proof. apply (rep_one_char_cons (set_match ic neg items)). Qed.

End blanks.

End ReFacts.

(** ** Splitting into paragraphs and sentences *)

Module SplitFacts.

Import Str Re Ingestion StrFacts ReFacts.

Local Open Scope list_scope.

Section breaks.

Definition is_LF (c : ascii) : bool := set_match false false [Ch LF] c.
Definition is_blank (c : ascii) : bool := set_match false false [Space] c.
Definition is_punct (c : ascii) : bool :=
  set_match false false [Ch "."; Ch "!"; Ch "?"] c.

Lemma is_blank_isspace c : is_blank c = isspace c.
Proof. unfold is_blank, set_match, set_has. simpl. by rewrite orb_false_r. Qed.

Lemma is_LF_isspace c : is_LF c = true → isspace c = true.
Proof. by destruct c as [[] [] [] [] [] [] [] []]. Qed.

Lemma is_punct_isspace c : is_punct c = true → isspace c = false.
Proof. by destruct c as [[] [] [] [] [] [] [] []]. Qed.

(** [\s*] first takes all the leading blanks. *)
Lemma star_space_head prev s g :
  ∃ ws, run false (star space) prev s g = (blanks s, lstrip s, g) :: ws.
Proof.
  unfold star, space. revert prev. induction s as [|c s IH]; intros prev.
  - by eexists.
  - rewrite run_rep_set_cons. fold (is_blank c). rewrite is_blank_isspace.
    cbn [blanks lstrip Nat.pred]. destruct (isspace c).
    + destruct (IH (Some c)) as [ws ->]. by eexists.
    + by eexists.
Qed.

(** [\s+]: the ways to match, the first of which takes all the leading
    blanks. *)
Lemma plus_space_run prev s g :
  run false (plus space) prev s g
  = match s with
    | c :: s' =>
        if isspace c then map (prefixed c) (run false (star space) (Some c) s' g)
        else []
    | [] => []
    end.
Proof.
  unfold plus, star, space. destruct s as [|c s]; [done|].
  rewrite run_rep_set_cons. fold (is_blank c). rewrite is_blank_isspace.
  cbn [stop Nat.pred]. by rewrite app_nil_r.
Qed.

Lemma eta_ways (l : list way) :
  l ≫= (λ w2 : way, [([] ++ w2.1.1, w2.1.2, w2.2)]) = l.
Proof.
  induction l as [|[[m r] g] l IH]; [done|].
  simpl. f_equal. exact IH.
Qed.

(** The ways in which [(?<=[.!?])\s+] matches at a position. *)
Lemma sentence_break_run prev s :
  run false (expr sentence_break) prev s []
  = match prev, s with
    | Some q, c :: s' =>
        if is_punct q && isspace c
        then map (prefixed c) (run false (star space) (Some c) s' [])
        else []
    | _, _ => []
    end.
Proof.
  unfold sentence_break. cbn [expr seq_of run].
  destruct prev as [q|]; [|done]. fold (is_punct q).
  destruct (is_punct q); [|by destruct s].
  cbn [mbind list_bind fst snd]. rewrite app_nil_r.
  change (last_char (Some q) []) with (Some q).
  rewrite eta_ways, plus_space_run. by destruct s.
Qed.

Lemma sentence_break_never_empty : never_empty sentence_break.
Proof.
  intros prev s w. change (ignorecase sentence_break) with false.
  rewrite sentence_break_run.
  destruct prev as [q|], s as [|c s]; try by intros ?%elem_of_nil.
  destruct (is_punct q && isspace c); [|by intros ?%elem_of_nil].
  by intros [w' [-> _]]%list_elem_of_fmap.
Qed.

(** The first way in which the sentence break matches: after a
    punctuation sign, all the blanks that follow. *)
Lemma sentence_break_first prev s w ws :
  run false (expr sentence_break) prev s [] = w :: ws →
  ∃ q c s', prev = Some q ∧ is_punct q = true ∧ s = c :: s'
            ∧ isspace c = true ∧ w.1.2 = lstrip s'.
Proof.
  rewrite sentence_break_run.
  destruct prev as [q|], s as [|c s]; try done.
  destruct (is_punct q) eqn:Hq, (isspace c) eqn:Hc; try done. cbn [andb].
  destruct (star_space_head (Some c) s []) as [ws' ->].
  intros [= <- _]. by exists q, c, s.
Qed.

End breaks.

Section paragraphs.

Definition no_LF (l : str) : Prop := ∀ c, c ∈ l → is_LF c = false.

Lemma no_LF_nil : no_LF [].
Proof. by intros c ?%elem_of_nil. Qed.

Lemma no_LF_cons c l : is_LF c = false → no_LF l → no_LF (c :: l).
Proof. intros Hc Hl c' [->|?]%elem_of_cons; [done | by apply Hl]. Qed.

(** What follows [\s*] in the paragraph break: one line feed. *)
Definition then_LF (w1 : way) : list way :=
  one_char is_LF w1.1.2 w1.2 ≫= λ w2, [(w1.1.1 ++ w2.1.1, w2.1.2, w2.2)].

Definition blanks_LF : regex := Seq (star space) (Chr LF).

Lemma blanks_LF_run prev s g :
  run false blanks_LF prev s g = run false (star space) prev s g ≫= then_LF.
Proof. done. Qed.

Lemma then_LF_prefixed c w : then_LF (prefixed c w) = map (prefixed c) (then_LF w).
Proof.
  unfold then_LF, prefixed. cbn [fst snd].
  destruct (w.1.2) as [|x r]; [done|]. cbn [one_char].
  by destruct (is_LF x).
Qed.

Lemma bind_then_LF_prefixed c (l : list way) :
  map (prefixed c) l ≫= then_LF = map (prefixed c) (l ≫= then_LF).
Proof.
  induction l as [|w l IH]; [done|].
  change (map (prefixed c) (w :: l) ≫= then_LF)
    with (then_LF (prefixed c w) ++ (map (prefixed c) l ≫= then_LF)).
  change ((w :: l) ≫= then_LF) with (then_LF w ++ (l ≫= then_LF)).
  by rewrite map_app, IH, then_LF_prefixed.
Qed.

Lemma blanks_LF_cons prev c s g :
  run false blanks_LF prev (c :: s) g
  = (if isspace c then map (prefixed c) (run false blanks_LF (Some c) s g) else [])
    ++ (if is_LF c then [([c], s, g)] else []).
Proof.
  rewrite !blanks_LF_run. unfold star, space. rewrite run_rep_set_cons.
  fold (is_blank c). rewrite is_blank_isspace.
  rewrite bind_app. f_equal.
  - destruct (isspace c); [|done]. apply bind_then_LF_prefixed.
  - cbn [stop Nat.pred mbind list_bind]. rewrite app_nil_r.
    unfold then_LF. cbn [fst snd one_char]. by destruct (is_LF c).
Qed.

(** The first way in which [\s*\n] matches leaves no line feed among
    the blanks that follow; and when it does not match at all there is
    no line feed among the leading blanks. *)
Lemma blanks_LF_first s prev g :
  match run false blanks_LF prev s g with
  | [] => no_LF (blanks s)
  | w :: _ => forallb isspace w.1.1 = true ∧ no_LF (blanks w.1.2)
  end.
Proof.
  revert prev. induction s as [|c s IH]; intros prev; [apply no_LF_nil|].
  rewrite blanks_LF_cons. cbn [blanks]. specialize (IH (Some c)).
  destruct (isspace c) eqn:Hc.
  - destruct (run false blanks_LF (Some c) s g) as [|w ws].
    + cbn [map app]. destruct (is_LF c) eqn:Hlf.
      * cbn [fst snd forallb]. by rewrite Hc.
      * by apply no_LF_cons.
    + cbn [map app prefixed fst snd forallb]. by rewrite Hc.
  - cbn [app]. destruct (is_LF c) eqn:Hlf; [|apply no_LF_nil].
    apply is_LF_isspace in Hlf. congruence.
Qed.

(** The ways in which [\n\s*\n] matches at a position. *)
Lemma paragraph_break_run prev s :
  run false (expr paragraph_break) prev s []
  = match s with
    | c :: s' =>
        if is_LF c then map (prefixed c) (run false blanks_LF (Some c) s' [])
        else []
    | [] => []
    end.
Proof.
  unfold paragraph_break. cbn [expr seq_of]. fold blanks_LF.
  cbn [run]. destruct s as [|c s]; [done|]. cbn [one_char]. fold (is_LF c).
  destruct (is_LF c); [|done]. cbn [mbind list_bind fst snd]. rewrite app_nil_r.
  apply map_prefixed.
Qed.

Lemma paragraph_break_never_empty : never_empty paragraph_break.
Proof.
  intros prev s w. change (ignorecase paragraph_break) with false.
  rewrite paragraph_break_run. destruct s as [|c s]; [by intros ?%elem_of_nil|].
  destruct (is_LF c); [|by intros ?%elem_of_nil].
  by intros [w' [-> _]]%list_elem_of_fmap.
Qed.

Lemma paragraph_break_first prev s w ws :
  run false (expr paragraph_break) prev s [] = w :: ws →
  ∃ c s', s = c :: s' ∧ is_LF c = true
          ∧ forallb isspace w.1.1 = true ∧ no_LF (blanks w.1.2).
Proof.
  rewrite paragraph_break_run. destruct s as [|c s]; [done|].
  destruct (is_LF c) eqn:Hlf; [|done].
  pose proof (blanks_LF_first s (Some c) []) as Hfirst.
  destruct (run false blanks_LF (Some c) s []) as [|w' ws']; [done|].
  intros [= <- _]. exists c, s. cbn [prefixed fst snd forallb].
  rewrite (is_LF_isspace c Hlf). by destruct Hfirst.
Qed.

End paragraphs.

Section solid.

(** A text that starts, and that ends, with a character that is not a
    blank. *)
Definition starts_well (x : str) : Prop := ∃ c, head x = Some c ∧ isspace c = false.
Definition ends_well (x : str) : Prop := ∃ c, last x = Some c ∧ isspace c = false.
Definition solid (x : str) : Prop := starts_well x ∧ ends_well x.

Lemma lstrip_starts_well s : lstrip s ≠ [] → starts_well (lstrip s).
Proof.
  induction s as [|c s IH]; [done|]. simpl.
  destruct (isspace c) eqn:Hc; [done|]. intros _. by exists c.
Qed.

Lemma lstrip_id s : starts_well s → lstrip s = s.
Proof. intros [c [Hh Hc]]. destruct s as [|x s]; [done|]. simpl in *. injection Hh as ->. by rewrite Hc. Qed.

Lemma head_rev (s : str) : head (rev s) = last s.
Proof.
  induction s as [|c s IH] using rev_ind; [done|].
  by rewrite rev_app_distr, last_snoc.
Qed.

Lemma rstrip_id s : ends_well s → rstrip s = s.
Proof.
  intros Hs. unfold rstrip. rewrite lstrip_id, rev_involutive; [done|].
  unfold starts_well. by rewrite head_rev.
Qed.

Lemma strip_id s : solid s → strip s = s.
Proof. intros [Hs He]. unfold strip. rewrite lstrip_id by done. by apply rstrip_id. Qed.

Lemma rstrip_prefix s : ∃ b, s = rstrip s ++ b.
Proof.
  exists (rev (blanks (rev s))). unfold rstrip.
  rewrite <- rev_app_distr, blanks_lstrip. by rewrite rev_involutive.
Qed.

(** A trimmed text is empty, or starts and ends with a character that is
    not a blank. *)
Lemma strip_solid s : strip s ≠ [] → solid (strip s).
Proof.
  intros Hne. unfold strip in *. split.
  - assert (lstrip s ≠ []) as Hl by (intros E; by rewrite E in Hne).
    destruct (lstrip_starts_well s Hl) as [c [Hh Hc]].
    destruct (rstrip_prefix (lstrip s)) as [b Hb].
    exists c. split; [|done].
    destruct (rstrip (lstrip s)) as [|x r]; [done|].
    rewrite Hb in Hh. by simpl in *.
  - unfold rstrip in *. unfold ends_well. rewrite <- head_rev, rev_involutive.
    apply lstrip_starts_well. intros E. by rewrite E in Hne.
Qed.

Lemma ends_well_app_blank m r :
  forallb isspace m = true → ends_well (m ++ r) → ends_well r.
Proof.
  intros Hm [c [Hl Hc]]. destruct r as [|x r] using rev_ind.
  - rewrite app_nil_r in Hl. apply last_Some_elem_of in Hl.
    rewrite forallb_forall in Hm. apply list_elem_of_In, Hm in Hl. congruence.
  - rewrite app_assoc, last_snoc in Hl. exists c. by rewrite last_snoc.
Qed.

Lemma ends_well_suffix u s : s ≠ [] → ends_well (u ++ s) → ends_well s.
Proof.
  intros Hs [c [Hl Hc]]. exists c. split; [|done].
  destruct s as [|x s] using rev_ind; [done|].
  rewrite app_assoc, last_snoc in Hl. by rewrite last_snoc.
Qed.

End solid.

Section pieces.

(** The sentences of a trimmed text are trimmed and not empty. *)
Lemma sentences_solid t :
  solid t → Forall solid (Re.split sentence_break t).
Proof.
  intros [Hs He].
  assert (Re.split sentence_break t = pieces (scan sentence_break 0 (rev []) None t)) as ->.
  { unfold Re.split, pieces. simpl rev. by destruct (scan sentence_break 0 [] None t). }
  apply (pieces_Forall sentence_break
           (λ u prev s, starts_well (u ++ s) ∧ ends_well (u ++ s)
                        ∧ (u ≠ [] → last u = prev))
           solid sentence_break_never_empty).
  - intros u prev c s (Hs' & He' & Hp) _. rewrite <- !app_assoc. simpl.
    split; [done|]. split; [done|]. intros _. apply last_snoc.
  - intros u prev c s w ws (Hs' & He' & Hp) Hrun.
    apply sentence_break_first in Hrun as (q & c' & s' & -> & Hq & [= <- <-] & Hc & ->).
    assert (u ≠ []) as Hu.
    { intros ->. destruct Hs' as [x [[= <-] Hx]]. congruence. }
    split; [split|].
    + destruct Hs' as [x [Hh Hx]]. exists x. split; [|done].
      destruct u; [done | by simpl in *].
    + exists q. split; [by apply Hp | by apply is_punct_isspace].
    + apply ends_well_suffix in He'; [|done].
      assert (ends_well (lstrip s)) as Hl.
      { apply (ends_well_app_blank (c :: blanks s)).
        - simpl. by rewrite Hc, blanks_blank.
        - simpl. by rewrite blanks_lstrip. }
      simpl. split; [|done]. apply lstrip_starts_well.
      destruct Hl as [x [Hl _]]. intros E. by rewrite E in Hl.
  - intros u prev (Hs' & He' & _). rewrite app_nil_r in *. by split.
  - by simpl.
Qed.

(** The paragraphs of a trimmed text are not made of blanks. *)
Lemma paragraphs_not_blank t :
  solid t → Forall (λ para, forallb isspace para = false) (Re.split paragraph_break t).
Proof.
  intros [Hs He].
  assert (Re.split paragraph_break t = pieces (scan paragraph_break 0 (rev []) None t)) as ->.
  { unfold Re.split, pieces. simpl rev. by destruct (scan paragraph_break 0 [] None t). }
  assert (∀ u, ends_well u → forallb isspace u = false) as Hnb.
  { intros u [c [Hl Hc]]. destruct (forallb isspace u) eqn:E; [|done].
    rewrite forallb_forall in E. apply last_Some_elem_of, list_elem_of_In, E in Hl.
    congruence. }
  apply (pieces_Forall paragraph_break
           (λ u prev s, ends_well (u ++ s)
                        ∧ (forallb isspace u = true → no_LF (blanks s)))
           _ paragraph_break_never_empty).
  - intros u prev c s (He' & Hb) _. rewrite <- !app_assoc. simpl.
    split; [done|]. rewrite forallb_app. simpl. rewrite andb_true_r.
    intros [Hu Hc]%andb_true_iff. specialize (Hb Hu). simpl in Hb. rewrite Hc in Hb.
    intros x Hx. apply Hb. by right.
  - intros u prev c s w ws (He' & Hb) Hrun.
    change (ignorecase paragraph_break) with false in Hrun.
    assert (w ∈ run false (expr paragraph_break) prev (c :: s) []) as Hw
      by (rewrite Hrun; left).
    apply run_splits in Hw.
    apply paragraph_break_first in Hrun as (c' & s' & [= <- <-] & Hlf & Hm & Hno).
    split.
    + destruct (forallb isspace u) eqn:Hu; [|done].
      specialize (Hb eq_refl). simpl in Hb. rewrite (is_LF_isspace c Hlf) in Hb.
      rewrite (Hb c) in Hlf by left. done.
    + split; [|done]. simpl. apply (ends_well_app_blank w.1.1); [done|].
      rewrite <- Hw. by apply (ends_well_suffix u).
  - intros u prev (He' & _). rewrite app_nil_r in He'. by apply Hnb.
  - split; [done|]. intros _. destruct Hs as [c [Hh Hc]].
    destruct t as [|x t]; [done|]. simpl in *. injection Hh as ->. rewrite Hc.
    apply no_LF_nil.
Qed.

(** The sentences of a text: one empty sentence when the text is made of
    blanks, and otherwise sentences that are trimmed and not empty. *)
Lemma sentences_of_solid text :
  sentences_of text = [[]] ∨ Forall solid (sentences_of text).
Proof.
  unfold sentences_of. destruct (strip text) as [|c t] eqn:Ht; [by left|].
  right. assert (solid (strip text)) as Hsolid by (apply strip_solid; by rewrite Ht).
  rewrite Ht in Hsolid. apply paragraphs_not_blank in Hsolid.
  induction Hsolid as [|para paras Hpara _ IH]; [done|].
  simpl. apply Forall_app. split; [|done].
  apply sentences_solid, strip_solid. rewrite strip_nil. unfold blank. congruence.
Qed.

End pieces.

End SplitFacts.

(** ** The chunker *)

Module ChunkerFacts.

Import Str Re Ingestion StrFacts ReFacts SplitFacts.

Local Open Scope list_scope.
Local Open Scope Z_scope.

Section groups.

Variable max_chunk_size : Z.

(** What the loop maintains about [current_chunk]: it is empty, or within
    the bound, or a single sentence. *)
Definition fits (g : list str) : Prop :=
  g = [] ∨ word_count (join (lit " ") g) ≤ max_chunk_size ∨ ∃ s, g = [s].

Lemma add_sentence_eq chunks cur s :
  add_sentence max_chunk_size (chunks, cur) s
  = if word_count (join (lit " ") (cur ++ [s])) <=? max_chunk_size
    then (chunks, cur ++ [s])
    else (chunks ++ [chunk_of cur], [s]).
Proof. done. Qed.

Lemma add_sentences chunks cur ss :
  fits cur →
  ∃ gs cur',
    foldl (add_sentence max_chunk_size) (chunks, cur) ss
    = (chunks ++ map chunk_of gs, cur')
    ∧ concat gs ++ cur' = cur ++ ss
    ∧ Forall fits gs ∧ fits cur'.
Proof.
  revert chunks cur. induction ss as [|s ss IH]; intros chunks cur Hcur.
  - exists [], cur. simpl. by rewrite !app_nil_r.
  - cbn [foldl]. rewrite add_sentence_eq.
    destruct (Z.leb_spec (word_count (join (lit " ") (cur ++ [s]))) max_chunk_size)
      as [Hle|Hgt].
    + destruct (IH chunks (cur ++ [s])) as [gs [cur' [Hf [Hc [Hgs Hcur']]]]].
      { right. by left. }
      exists gs, cur'. rewrite Hf, Hc, <- app_assoc. done.
    + destruct (IH (chunks ++ [chunk_of cur]) [s]) as [gs [cur' [Hf [Hc [Hgs Hcur']]]]].
      { right. right. by eexists. }
      exists (cur :: gs), cur'. rewrite Hf. simpl.
      rewrite <- !app_assoc, Hc. simpl. repeat split; try done.
      by constructor.
Qed.

Lemma add_paragraph_groups chunks para :
  ∃ gs, add_paragraph max_chunk_size chunks para = chunks ++ map chunk_of gs
        ∧ concat gs = Re.split sentence_break (strip para)
        ∧ Forall fits gs.
Proof.
  unfold add_paragraph.
  destruct (add_sentences chunks [] (Re.split sentence_break (strip para)))
    as [gs [cur' [Hf [Hc [Hgs Hcur']]]]]; [by left|].
  rewrite Hf. cbn [fst snd]. rewrite app_nil_l in Hc.
  destruct cur' as [|s cur'].
  - exists gs. by rewrite app_nil_r in Hc.
  - exists (gs ++ [s :: cur']).
    rewrite map_app, concat_app. cbn [map concat]. rewrite app_nil_r.
    split; [|split; [done|]].
    + by rewrite <- app_assoc.
    + apply Forall_app. split; [done|]. by constructor.
Qed.

Lemma add_paragraphs chunks paras :
  ∃ gs, foldl (add_paragraph max_chunk_size) chunks paras = chunks ++ map chunk_of gs
        ∧ concat gs = flat_map (λ para, Re.split sentence_break (strip para)) paras
        ∧ Forall fits gs.
Proof.
  revert chunks. induction paras as [|para paras IH]; intros chunks.
  - exists []. simpl. by rewrite app_nil_r.
  - simpl. destruct (add_paragraph_groups chunks para) as [gs1 [-> [Hc1 Hf1]]].
    destruct (IH (chunks ++ map chunk_of gs1)) as [gs2 [-> [Hc2 Hf2]]].
    exists (gs1 ++ gs2). rewrite map_app, concat_app, <- app_assoc, Hc1, Hc2.
    repeat split; try done. by apply Forall_app.
Qed.

(** The chunks are the sentences of the text, taken in order in
    consecutive groups, each group joined by single spaces and trimmed. *)
Lemma chunk_groups text :
  ∃ gs, chunk_text_by_sentence_and_paragraph text max_chunk_size
        = List.filter nonempty (map chunk_of gs)
        ∧ concat gs = sentences_of text
        ∧ Forall fits gs.
Proof.
  unfold chunk_text_by_sentence_and_paragraph, sentences_of.
  destruct (add_paragraphs [] (Re.split paragraph_break (strip text)))
    as [gs [-> [Hc Hf]]].
  by exists gs.
Qed.

End groups.

Lemma word_count_chunk_of g :
  word_count (chunk_of g) = word_count (join (lit " ") g).
Proof. unfold word_count, chunk_of. by rewrite split_strip. Qed.

Section joining.

Lemma join_cons2 sep (s s' : str) l :
  join sep (s :: s' :: l) = s ++ sep ++ join sep (s' :: l).
Proof. done. Qed.

Lemma join_app sep (l1 l2 : list str) :
  l1 ≠ [] → l2 ≠ [] → join sep (l1 ++ l2) = join sep l1 ++ sep ++ join sep l2.
Proof.
  intros H1 H2. induction l1 as [|s l1 IH]; [done|].
  destruct l1 as [|s' l1].
  - destruct l2 as [|s2 l2]; [done|]. done.
  - change ((s :: s' :: l1) ++ l2) with (s :: s' :: (l1 ++ l2)).
    rewrite !join_cons2. change (s' :: l1 ++ l2) with ((s' :: l1) ++ l2).
    rewrite IH by done. by rewrite <- !app_assoc.
Qed.

Lemma join_solid g : g ≠ [] → Forall solid g → solid (join (lit " ") g).
Proof.
  intros Hne Hg. induction Hg as [|s g Hs Hg IH]; [done|].
  destruct g as [|s' g]; [done|]. rewrite join_cons2.
  destruct (IH ltac:(done)) as [_ He]. destruct Hs as [[c [Hh Hc]] _]. split.
  - exists c. split; [|done]. destruct s; [done | by simpl in *].
  - destruct He as [x [Hl Hx]]. exists x. split; [|done].
    rewrite !app_assoc. destruct (join (lit " ") (s' :: g)) as [|y r] using rev_ind; [done|].
    rewrite last_snoc in Hl. by rewrite app_assoc, last_snoc.
Qed.

Lemma solid_nonempty s : solid s → nonempty s = true.
Proof. intros [[c [Hh _]] _]. by destruct s. Qed.

Lemma chunk_of_nil : chunk_of [] = [].
Proof. done. Qed.

Lemma chunk_of_solid g :
  g ≠ [] → Forall solid g → chunk_of g = join (lit " ") g ∧ nonempty (chunk_of g) = true.
Proof.
  intros Hne Hg. pose proof (join_solid g Hne Hg) as Hs.
  unfold chunk_of. rewrite strip_id by done. split; [done | by apply solid_nonempty].
Qed.

(** With sentences that are trimmed and not empty, the chunks joined by
    single spaces are the sentences joined by single spaces. *)
Lemma join_chunks gs :
  Forall (Forall solid) gs →
  join (lit " ") (List.filter nonempty (map chunk_of gs)) = join (lit " ") (concat gs)
  ∧ (List.filter nonempty (map chunk_of gs) = [] ↔ concat gs = []).
Proof.
  intros Hgs. induction Hgs as [|g gs Hg Hgs [IH1 IH2]]; [done|].
  destruct g as [|s g]; [done|].
  destruct (chunk_of_solid (s :: g) ltac:(done) Hg) as [Hc Hn].
  cbn [map List.filter concat]. rewrite Hn, Hc. split; [|done].
  destruct (List.filter nonempty (map chunk_of gs)) as [|f fs] eqn:Hf.
  - rewrite (proj1 IH2 eq_refl), app_nil_r. done.
  - rewrite join_cons2, IH1. rewrite join_app; [done..|].
    intros E. apply IH2 in E. done.
Qed.

Lemma join_blank g : (∀ s, s ∈ g → s = []) → forallb isspace (join (lit " ") g) = true.
Proof.
  induction g as [|s g IH]; intros Hg; [done|].
  rewrite (Hg s) by left. destruct g as [|s' g]; [done|].
  rewrite join_cons2. simpl app. cbn [forallb]. apply IH.
  intros x Hx. apply Hg. by right.
Qed.

Lemma chunks_of_empty_sentences gs :
  (∀ s, s ∈ concat gs → s = []) → List.filter nonempty (map chunk_of gs) = [].
Proof.
  induction gs as [|g gs IH]; intros Hs; [done|]. cbn [map List.filter].
  assert (chunk_of g = []) as ->.
  { unfold chunk_of. apply strip_nil, join_blank. intros s Hin. apply Hs.
    simpl. apply elem_of_app. by left. }
  apply IH. intros s Hin. apply Hs. simpl. apply elem_of_app. by right.
Qed.

(** The chunks joined by single spaces are the sentences of the text
    joined by single spaces. *)
Lemma chunks_join text max_chunk_size :
  join (lit " ") (chunk_text_by_sentence_and_paragraph text max_chunk_size)
  = join (lit " ") (sentences_of text).
Proof.
  destruct (chunk_groups max_chunk_size text) as [gs [-> [Hc Hf]]].
  destruct (sentences_of_solid text) as [Hnil|Hsolid].
  - rewrite Hnil in *. rewrite chunks_of_empty_sentences; [done|].
    rewrite Hc. by intros s ->%list_elem_of_singleton.
  - rewrite <- Hc in *. apply join_chunks.
    apply Forall_forall. intros g Hg. apply Forall_forall. intros s Hs.
    rewrite Forall_forall in Hsolid. apply Hsolid.
    apply list_elem_of_In, in_concat. exists g. by rewrite <- !list_elem_of_In.
Qed.

End joining.

(** C4: the chunks joined by single spaces are the directly split
    sentences of the text joined by single spaces; the chunks are these
    sentences in order, in consecutive groups, each group joined by
    single spaces and trimmed; and no chunk is empty or made of blanks. *)
Theorem chunks_lossless text max_chunk_size :
  join (lit " ") (chunk_text_by_sentence_and_paragraph text max_chunk_size)
  = join (lit " ") (sentences_of text)
  ∧ (∃ gs, concat gs = sentences_of text
           ∧ chunk_text_by_sentence_and_paragraph text max_chunk_size
             = List.filter nonempty (map chunk_of gs))
  ∧ ∀ c, c ∈ chunk_text_by_sentence_and_paragraph text max_chunk_size →
         strip c ≠ [].
Proof.
  split; [apply chunks_join|].
  destruct (chunk_groups max_chunk_size text) as [gs [-> [Hc Hf]]].
  split.
  - by exists gs.
  - intros c [Hin Hne]%list_elem_of_In%filter_In.
    apply in_map_iff in Hin as [g [<- _]]. unfold chunk_of in *.
    apply strip_not_blank. by destruct (strip _).
Qed.

(** C5: a chunk has at most [max_chunk_size] words, unless it is one
    sentence of the text that has more words than that on its own. *)
Theorem chunks_bounded text max_chunk_size c :
  c ∈ chunk_text_by_sentence_and_paragraph text max_chunk_size →
  word_count c ≤ max_chunk_size
  ∨ ∃ s, s ∈ sentences_of text ∧ c = strip s ∧ max_chunk_size < word_count s.
Proof.
  destruct (chunk_groups max_chunk_size text) as [gs [-> [Hc Hf]]].
  intros [Hin Hne]%list_elem_of_In%filter_In.
  apply in_map_iff in Hin as [g [<- Hg]].
  rewrite Forall_forall in Hf.
  destruct (Hf g) as [->|[Hle|[s ->]]]; [by apply list_elem_of_In|done| |].
  - left. by rewrite word_count_chunk_of.
  - destruct (Z.le_gt_cases (word_count s) max_chunk_size) as [Hle|Hgt].
    + left. by rewrite word_count_chunk_of.
    + right. exists s. split; [|split; [done | lia]].
      rewrite <- Hc. apply list_elem_of_In, in_concat. exists [s]. split; [done|by left].
Qed.

Lemma chunks_bounded_witness :
  lit "Three four five."
  ∈ chunk_text_by_sentence_and_paragraph (lit "One two. Three four five.") 2
  ∧ (word_count (lit "Three four five.") ≤ 2
     ∨ ∃ s, s ∈ sentences_of (lit "One two. Three four five.")
            ∧ lit "Three four five." = strip s ∧ 2 < word_count s).
Proof.
  assert (lit "Three four five."
          ∈ chunk_text_by_sentence_and_paragraph (lit "One two. Three four five.") 2)
    as Hin by (vm_compute; right; left).
  split; [exact Hin | exact (chunks_bounded _ _ _ Hin)].
Defined.

End ChunkerFacts.

(** ** Indicator extraction *)

Module ExtractFacts.

Import Str Re Ingestion StrFacts ReFacts.

Local Open Scope string_scope.
Local Open Scope list_scope.
Local Open Scope Z_scope.

Section order.

Lemma code_inj a b : code a = code b → a = b.
Proof.
  unfold code. intros H.
  by rewrite <- (ascii_N_embedding a), <- (ascii_N_embedding b), H.
Qed.

#[global] Instance str_le_total : Total str_le.
Proof.
  unfold str_le. intros a. induction a as [|x a IH]; intros [|y b]; simpl; auto.
  destruct (N.ltb_spec (code x) (code y)), (N.ltb_spec (code y) (code x));
    auto; try lia.
  assert (code x = code y) as Heq by lia.
  rewrite Heq, N.eqb_refl. apply IH.
Qed.

#[global] Instance str_le_trans : Transitive str_le.
Proof.
  unfold str_le. intros a. induction a as [|x a IH]; intros [|y b] [|z c]; simpl; try done.
  destruct (N.ltb_spec (code x) (code y)), (N.ltb_spec (code y) (code z)),
    (N.ltb_spec (code x) (code z)); try done; try lia;
    destruct (N.eqb_spec (code x) (code y)), (N.eqb_spec (code y) (code z)),
      (N.eqb_spec (code x) (code z)); try done; try lia.
  apply IH.
Qed.

#[global] Instance str_le_antisym : AntiSymm (=) str_le.
Proof.
  unfold str_le. intros a. induction a as [|x a IH]; intros [|y b]; simpl; try done.
  destruct (N.ltb_spec (code x) (code y)), (N.ltb_spec (code y) (code x));
    try lia;
    destruct (N.eqb_spec (code x) (code y)), (N.eqb_spec (code y) (code x));
    try done; try lia.
  intros Hab Hba. f_equal; [by apply code_inj | by apply IH].
Qed.

(** [sorted] gives a sorted list with the same elements, and depends on
    the elements only. *)
Lemma sorted_Sorted l : Sorted str_le (sorted l).
Proof. apply Sorted_merge_sort, _. Qed.

Lemma sorted_perm l : sorted l ≡ₚ l.
Proof. apply merge_sort_Permutation. Qed.

Lemma sorted_unique l l' : l ≡ₚ l' → sorted l = sorted l'.
Proof.
  intros H. apply (Sorted_unique str_le); try apply sorted_Sorted.
  by rewrite !sorted_perm.
Qed.

End order.

(** Two orders a set may yield its elements in. *)
Definition ascending : SetOrder :=
  {| set_list l := sorted (remove_dups l);
     set_list_perm l := sorted_perm (remove_dups l) |}.

Lemma descending_perm l : rev (sorted (remove_dups l)) ≡ₚ remove_dups l.
Proof. by rewrite <- Permutation_rev, sorted_perm. Qed.

Definition descending : SetOrder :=
  {| set_list l := rev (sorted (remove_dups l));
     set_list_perm := descending_perm |}.

Section sets.

Context `{SetOrder}.

Lemma set_list_nil : set_list [] = [].
Proof. apply Permutation_nil. symmetry. apply (set_list_perm []). Qed.

Lemma set_list_singleton x : set_list [x] = [x].
Proof. apply Permutation_singleton_r. apply (set_list_perm [x]). Qed.

Lemma set_list_elem x l : x ∈ set_list l ↔ x ∈ l.
Proof. by rewrite set_list_perm, elem_of_remove_dups. Qed.

End sets.

Section ports.

Lemma digit_ignorecase c : set_match true false [Digit] c = isdecimal c.
Proof. by destruct c as [[] [] [] [] [] [] [] []]. Qed.

Definition ports_expr : regex :=
  seq_of [Boundary; chars "port"; opt space; Group 1 (times 1 5 digit); Boundary].

(** What comes before a group in a sequence does not touch the groups. *)
Lemma run_seq_skip ic a rest prev s g w :
  groups a = 0%nat → w ∈ run ic (Seq a rest) prev s g →
  ∃ prev' s' w', w' ∈ run ic rest prev' s' g ∧ w.2 = w'.2.
Proof.
  intros Ha Hw. apply list_elem_of_bind in Hw as (w1 & Hw & Hw1).
  apply list_elem_of_bind in Hw as (w2 & ->%list_elem_of_singleton & Hw2).
  rewrite (run_keeps_groups ic a Ha _ _ _ _ Hw1) in Hw2. by eexists _, _, w2.
Qed.

(** Group 1 of a match of the port pattern is one to five digits. *)
Lemma ports_group prev s w :
  w ∈ run true ports_expr prev s [] →
  ∃ v, group 1 w.2 = Some v ∧ nonempty v = true ∧ forallb isdecimal v = true
       ∧ (length v ≤ 5)%nat.
Proof.
  intros Hw. unfold ports_expr in Hw. cbn [seq_of] in Hw.
  apply run_seq_skip in Hw as (prev1 & s1 & w1 & Hw1 & ->); [|done].
  apply run_seq_skip in Hw1 as (prev2 & s2 & w2 & Hw2 & ->); [|done].
  apply run_seq_skip in Hw2 as (prev3 & s3 & w3 & Hw3 & ->); [|done].
  apply list_elem_of_bind in Hw3 as (w4 & Hw & Hw4).
  apply list_elem_of_bind in Hw as (w5 & ->%list_elem_of_singleton & Hw5).
  rewrite (run_keeps_groups true Boundary eq_refl _ _ _ _ Hw5).
  apply list_elem_of_bind in Hw4 as (w6 & ->%list_elem_of_singleton & Hw6).
  apply (rep_chars (set_match true false [Digit])) in Hw6 as (Hall & Hlen & _);
    [|done].
  destruct w6 as [[v s6] g6]. cbn [fst snd] in *.
  exists v. cbn [group]. rewrite decide_True by done.
  split; [done|]. split; [destruct v; [simpl in Hlen; lia | done]|].
  split; [|lia].
  rewrite <- Hall. clear. induction v as [|c m IH]; [done|].
  cbn [forallb]. by rewrite IH, digit_ignorecase.
Qed.

Lemma mapM_Ok {A B} (f : A → result B) (l : list A) :
  (∀ x, x ∈ l → ∃ y, f x = Ok y) → ∃ ys, mapM f l = Ok ys.
Proof.
  induction l as [|x l IH]; intros Hf; [by eexists|].
  destruct (Hf x) as [y Hy]; [left|].
  destruct IH as [ys Hys]; [intros x' Hx'; apply Hf; by right|].
  exists (y :: ys). simpl. by rewrite Hy, Hys.
Qed.

(** [int] succeeds on group 1 of every match of the port pattern. *)
Lemma port_numbers_Ok text :
  ∃ ns, port_numbers (finditer (Pattern true ports_expr) text) = Ok ns.
Proof.
  apply mapM_Ok. intros f Hf.
  apply finditer_found in Hf as (prev & s & w & Hw & _ & ->).
  apply ports_group in Hw as (v & -> & Hne & Hall & _).
  unfold py_int_of_str. rewrite Hne, Hall. by eexists.
Qed.

End ports.

Section extract.

Context `{SetOrder}.

Lemma found_texts_nil rx text : finditer rx text = [] → found_texts rx text = [].
Proof. unfold found_texts, findall. by intros ->. Qed.

Lemma extract_key_other key rx text :
  key ≠ "ports" → ∃ vals, extract_key key rx text = Ok vals.
Proof.
  intros Hk. unfold extract_key. rewrite decide_False by done.
  repeat case_decide; by eexists.
Qed.

Lemma extract_key_ports rx text ns :
  port_numbers (finditer rx text) = Ok ns →
  extract_key "ports" rx text
  = Ok (sorted (set_list (map py_str_of_int (filter in_port_range ns)))).
Proof. intros Hns. unfold extract_key. rewrite decide_True by done. by rewrite Hns. Qed.

Lemma extract_key_total key rx text :
  (key, rx) ∈ IOC_PATTERNS → ∃ vals, extract_key key rx text = Ok vals.
Proof.
  unfold IOC_PATTERNS. intros Hin.
  repeat (apply elem_of_cons in Hin as [[= -> ->]|Hin];
          [by apply extract_key_other|]).
  apply elem_of_cons in Hin as [[= -> ->]|Hin]; [|by apply elem_of_nil in Hin].
  destruct (port_numbers_Ok text) as [ns Hns].
  eexists. by apply extract_key_ports.
Qed.

(** A pattern without any match gives the empty list. *)
Lemma extract_key_nil key rx text :
  finditer rx text = [] → extract_key key rx text = Ok [].
Proof.
  intros Hnil. unfold extract_key. rewrite (found_texts_nil _ _ Hnil), Hnil.
  repeat case_decide; simpl; by rewrite ?set_list_nil.
Qed.

(** The loop over the patterns stores the value of each key. *)
Lemma fold_patterns text (pats : list (string * pattern)) (md0 : gmap string (list str)) :
  NoDup pats.*1 →
  (∀ kr, kr ∈ pats → ∃ vals, extract_key kr.1 kr.2 text = Ok vals) →
  ∃ md, foldl (λ acc kr,
                 md ← acc;
                 vals ← extract_key kr.1 kr.2 text;
                 Ok (<[kr.1 := vals]> md))
              (Ok md0) pats = Ok md
        ∧ dom md = dom md0 ∪ list_to_set pats.*1
        ∧ (∀ kr vals, kr ∈ pats → extract_key kr.1 kr.2 text = Ok vals →
                      md !! kr.1 = Some vals)
        ∧ (∀ key, key ∉ pats.*1 → md !! key = md0 !! key).
Proof.
  revert md0. induction pats as [|kr pats IH]; intros md0 Hnd Hok.
  - exists md0. split; [done|]. split; [set_solver|].
    split; [by intros ?? ?%elem_of_nil | done].
  - apply NoDup_cons in Hnd as [Hkr Hnd].
    destruct (Hok kr) as [v Hv]; [left|].
    destruct (IH (<[kr.1 := v]> md0) Hnd) as (md & Hfold & Hdom & Hin & Hout).
    { intros kr' Hkr'. apply Hok. by right. }
    exists md. cbn [foldl]. simpl. rewrite Hv. simpl.
    split; [done|]. split; [|split].
    + rewrite Hdom, dom_insert_L. set_solver.
    + intros kr' vals [->|Hkr']%elem_of_cons Hvals.
      * rewrite Hout by done. rewrite lookup_insert_eq. congruence.
      * by apply Hin.
    + intros key [Hne Hkey]%not_elem_of_cons.
      rewrite Hout by done. by rewrite lookup_insert_ne.
Qed.

Lemma IOC_PATTERNS_keys :
  IOC_PATTERNS.*1
  = ["cves"; "tids"; "ipv4"; "ipv6"; "hashes"; "emails"; "urls"; "domains";
     "paths"; "ports"].
Proof. done. Qed.

Lemma IOC_PATTERNS_NoDup : NoDup IOC_PATTERNS.*1.
Proof.
  rewrite IOC_PATTERNS_keys.
  refine (bool_decide_unpack (NoDup _) _). by vm_compute.
Qed.

(** [extract_iocs] runs to its end, and what it returns under each
    key. *)
Lemma extract_iocs_run raw_text :
  ∃ md, extract_iocs raw_text = Ok md
        ∧ dom md = list_to_set IOC_PATTERNS.*1
        ∧ ∀ key rx, (key, rx) ∈ IOC_PATTERNS →
            ∃ vals, extract_key key rx (deobfuscate raw_text) = Ok vals
                    ∧ md !! key = Some (if decide (key ∈ ["ipv4"; "ipv6"])
                                        then set_list vals else vals).
Proof.
  unfold extract_iocs. set (text := deobfuscate raw_text).
  destruct (fold_patterns text IOC_PATTERNS ∅ IOC_PATTERNS_NoDup)
    as (md & -> & Hdom & Hin & _).
  { intros [key rx] Hkr. by apply extract_key_total. }
  assert (∀ key, key ∈ IOC_PATTERNS.*1 → ∃ vals, md !! key = Some vals) as Hsome.
  { intros key [[key' rx] [-> Hkr]]%list_elem_of_fmap.
    destruct (extract_key_total key' rx text Hkr) as [vals Hvals].
    exists vals. by apply (Hin (key', rx)). }
  destruct (Hsome "ipv4") as [v4 Hv4]; [rewrite IOC_PATTERNS_keys; set_solver|].
  destruct (Hsome "ipv6") as [v6 Hv6]; [rewrite IOC_PATTERNS_keys; set_solver|].
  simpl. unfold getitem. rewrite Hv4. simpl.
  rewrite lookup_insert_ne by done. rewrite Hv6. simpl.
  eexists. split; [done|]. split.
  - rewrite !dom_insert_L, Hdom, IOC_PATTERNS_keys. set_solver.
  - intros key rx Hkr.
    destruct (extract_key_total key rx text Hkr) as [vals Hvals].
    exists vals. split; [done|].
    pose proof (Hin (key, rx) vals Hkr Hvals) as Hmd. simpl in Hmd.
    destruct (decide (key = "ipv6")) as [->|Hne6].
    { rewrite lookup_insert_eq, decide_True by set_solver. congruence. }
    rewrite lookup_insert_ne by done.
    destruct (decide (key = "ipv4")) as [->|Hne4].
    { rewrite lookup_insert_eq, decide_True by set_solver. congruence. }
    rewrite lookup_insert_ne by done. by rewrite decide_False by set_solver.
Qed.

End extract.

Section rendering.

(** [str(n)] tells the integers apart. *)
Lemma py_str_of_int_inj n m : py_str_of_int n = py_str_of_int m → n = m.
Proof.
  unfold py_str_of_int, lit. intros Heq.
  apply (f_equal string_of_list_ascii) in Heq.
  rewrite !string_of_list_ascii_of_string in Heq.
  assert (∀ z, NilZero.int_of_string (NilZero.string_of_int (Z.to_int z))
               = Some (Z.to_int z)) as Hisi.
  { intros [|p|p]; apply NilZero.isi; simpl; try done;
      intros [= Hnil]; by apply DecimalPos.Unsigned.to_uint_nonnil in Hnil. }
  pose proof (Hisi n) as Hn. rewrite Heq, Hisi in Hn. injection Hn as Hn.
  by rewrite <- (DecimalZ.of_to n), <- (DecimalZ.of_to m), Hn.
Qed.

End rendering.

Section claims.

Context `{SetOrder}.

Lemma extract_key_sorted key rx text vals :
  extract_key key rx text = Ok vals → Sorted str_le vals.
Proof.
  unfold extract_key.
  destruct (if decide (key = "ports") then _ else _) as [vals'|e]; [|done].
  simpl. intros [= <-]. apply sorted_Sorted.
Qed.

(** Under every key other than ipv4 and ipv6 the values are sorted. *)
Lemma extract_iocs_sorted raw_text md key vals :
  extract_iocs raw_text = Ok md → key ∉ ["ipv4"; "ipv6"] →
  md !! key = Some vals → Sorted str_le vals.
Proof.
  intros Hmd Hkey Hvals.
  destruct (extract_iocs_run raw_text) as (md' & Hmd' & Hdom & Hrun).
  rewrite Hmd in Hmd'. injection Hmd' as <-.
  assert (key ∈ IOC_PATTERNS.*1) as [[key' rx] [-> Hkr]]%list_elem_of_fmap.
  { apply (elem_of_list_to_set (C := gset string)). rewrite <- Hdom.
    by apply elem_of_dom. }
  destruct (Hrun key' rx Hkr) as (vals' & Hvals' & Hlook). simpl in *.
  rewrite decide_False in Hlook by done.
  rewrite Hvals in Hlook. injection Hlook as ->.
  by apply extract_key_sorted in Hvals'.
Qed.

(** C9: [extract_iocs] returns an indicator set for every text, and a
    type without any match is there with an empty list. *)
Theorem extract_iocs_total raw_text :
  ∃ md, extract_iocs raw_text = Ok md
        ∧ ∀ key rx, (key, rx) ∈ IOC_PATTERNS →
                    finditer rx (deobfuscate raw_text) = [] →
                    md !! key = Some [].
Proof.
  destruct (extract_iocs_run raw_text) as (md & Hmd & _ & Hrun).
  exists md. split; [done|]. intros key rx Hkr Hnil.
  destruct (Hrun key rx Hkr) as (vals & Hvals & ->).
  rewrite (extract_key_nil _ _ _ Hnil) in Hvals. injection Hvals as <-.
  case_decide; by rewrite ?set_list_nil.
Qed.

(** C10: the returned dictionary has the ten keys of [IOC_PATTERNS] and
    no other, for every text. *)
Theorem extract_iocs_keys raw_text :
  ∃ md, extract_iocs raw_text = Ok md
        ∧ ∀ key, is_Some (md !! key)
                 ↔ key ∈ ["cves"; "tids"; "ipv4"; "ipv6"; "hashes"; "emails";
                          "urls"; "domains"; "paths"; "ports"].
Proof.
  destruct (extract_iocs_run raw_text) as (md & Hmd & Hdom & _).
  exists md. split; [done|]. intros key.
  by rewrite <- elem_of_dom, Hdom, elem_of_list_to_set, IOC_PATTERNS_keys.
Qed.

Lemma ports_of raw_text ns :
  port_numbers (finditer (Pattern true ports_expr) (deobfuscate raw_text)) = Ok ns →
  ∃ md, extract_iocs raw_text = Ok md
        ∧ md !! "ports"
          = Some (sorted (set_list (map py_str_of_int (filter in_port_range ns)))).
Proof.
  intros Hns.
  destruct (extract_iocs_run raw_text) as (md & Hmd & _ & Hrun).
  exists md. split; [done|].
  destruct (Hrun "ports" (Pattern true ports_expr)) as (vals & Hvals & ->).
  { unfold IOC_PATTERNS. do 9 right. left. }
  rewrite (extract_key_ports _ _ _ Hns) in Hvals. injection Hvals as <-.
  by rewrite decide_False by set_solver.
Qed.

(** C6: every value of the port list is the decimal rendering of an
    integer between 1 and 65535; "port 70000" gives no port and
    "port 8080" gives "8080". *)
Theorem ports_in_range :
  (∀ raw_text,
     ∃ md ports, extract_iocs raw_text = Ok md ∧ md !! "ports" = Some ports
                 ∧ (lit "70000" ∉ ports)
                 ∧ ∀ v, v ∈ ports → ∃ n, 1 ≤ n ≤ 65535 ∧ v = py_str_of_int n)
  ∧ (∃ md, extract_iocs (lit "port 70000") = Ok md ∧ md !! "ports" = Some [])
  ∧ (∃ md, extract_iocs (lit "port 8080") = Ok md
           ∧ md !! "ports" = Some [lit "8080"]).
Proof.
  split; [|split].
  - intros raw_text.
    destruct (port_numbers_Ok (deobfuscate raw_text)) as [ns Hns].
    destruct (ports_of raw_text ns Hns) as (md & Hmd & Hports).
    eexists md, _. split; [done|]. split; [done|].
    assert (∀ v, v ∈ sorted (set_list (map py_str_of_int (filter in_port_range ns)))
                 → ∃ n, 1 ≤ n ≤ 65535 ∧ v = py_str_of_int n) as Hrange.
    { intros v. rewrite sorted_perm, set_list_elem.
      intros (n & -> & [Hn _]%list_elem_of_filter)%list_elem_of_fmap.
      exists n. unfold in_port_range in Hn. split; [lia | done]. }
    split; [|done].
    intros (n & Hn & Heq)%Hrange.
    change (lit "70000") with (py_str_of_int 70000) in Heq.
    apply py_str_of_int_inj in Heq. lia.
  - destruct (ports_of (lit "port 70000") [70000]) as (md & Hmd & Hports); [done|].
    exists md. split; [done|]. rewrite Hports.
    change (filter in_port_range [70000]) with (@nil Z). simpl.
    by rewrite set_list_nil.
  - destruct (ports_of (lit "port 8080") [8080]) as (md & Hmd & Hports); [done|].
    exists md. split; [done|]. rewrite Hports.
    change (map py_str_of_int (filter in_port_range [8080])) with [lit "8080"].
    by rewrite set_list_singleton.
Qed.

End claims.

(** C3 on the code: with a set that yields its elements in descending
    order the ipv4 list comes out unsorted, and another order gives
    another list for the same text. *)
Theorem ipv4_order_follows_the_set :
  let text := lit "10.0.0.1 10.0.0.2" in
  (∃ md, @extract_iocs descending text = Ok md
         ∧ md !! "ipv4" = Some [lit "10.0.0.2"; lit "10.0.0.1"]
         ∧ ¬ Sorted str_le [lit "10.0.0.2"; lit "10.0.0.1"])
  ∧ (∃ md, @extract_iocs ascending text = Ok md
           ∧ md !! "ipv4" = Some [lit "10.0.0.1"; lit "10.0.0.2"]).
Proof.
  split.
  - eexists. split; [by vm_compute|]. split; [by vm_compute|].
    intros [_ Hhd]%Sorted_inv. by apply HdRel_inv in Hhd.
  - eexists. split; [by vm_compute|]. by vm_compute.
Qed.

End ExtractFacts.

(** ** Deobfuscation *)

Module DeobfuscateFacts.

Import Str Re Ingestion ReFacts.

Local Open Scope string_scope.
Local Open Scope list_scope.
Local Open Scope nat_scope.

Section scheme.

(** Under [re.I] the letters and signs of the pattern match the
    characters whose lower-case form they are. *)
Lemma literal_ignorecase a c :
  a ∈ lit "hxps:/" → set_match true false [Ch a] c = Ascii.eqb (lower_char c) a.
Proof.
  intros Ha. unfold lit in Ha. simpl in Ha.
  repeat (apply elem_of_cons in Ha as [->|Ha]);
    [by destruct c as [[] [] [] [] [] [] [] []]..|by apply elem_of_nil in Ha].
Qed.

Lemma starts_ignorecase p s :
  Forall (λ a, a ∈ lit "hxps:/") p → starts true p s = starts_with_ci p s.
Proof.
  intros Hp. revert s. induction Hp as [|a p Ha Hp IH]; intros s; [done|].
  destruct s as [|c s]; [done|]. simpl starts_with_ci.
  change (starts true (a :: p) (c :: s))
    with (set_match true false [Ch a] c && starts true p s).
  by rewrite IH, literal_ignorecase.
Qed.

Lemma starts_hxxp s : starts true (lit "hxxp") s = starts_with_ci (lit "hxxp") s.
Proof. apply starts_ignorecase. unfold lit. simpl. repeat constructor; set_solver. Qed.

Lemma starts_slashes s : starts true (lit "://") s = starts_with_ci (lit "://") s.
Proof. apply starts_ignorecase. unfold lit. simpl. repeat constructor; set_solver. Qed.

Lemma starts_with_ci_app p q s :
  starts_with_ci (p ++ q) s
  = starts_with_ci p s && starts_with_ci q (drop (length p) s).
Proof.
  revert s. induction p as [|a p IH]; intros s; [done|].
  destruct s as [|c s]; [done|]. simpl. by rewrite IH, andb_assoc.
Qed.

Lemma nth_drop {A} n (l : list A) d : nth n l d = nth 0 (drop n l) d.
Proof.
  revert l. induction n as [|n IH]; intros [|x l]; by simpl.
Qed.

(** The ways in which [hxxp(s?)://] matches at a position: one at most. *)
Lemma hxxp_run prev s :
  run true (expr hxxp) prev s []
  = if starts_with_ci (lit "hxxps://") s
    then [(take 8 s, drop 8 s, [(1%nat, [nth 4 s "s"%char])])]
    else if starts_with_ci (lit "hxxp://") s
    then [(take 7 s, drop 7 s, [(1%nat, [])])]
    else [].
Proof.
  unfold hxxp. cbn [expr seq_of run]. unfold chars.
  rewrite run_literal, starts_hxxp.
  change (lit "hxxps://") with (lit "hxxp" ++ lit "s://").
  change (lit "hxxp://") with (lit "hxxp" ++ lit "://").
  rewrite !starts_with_ci_app.
  destruct (starts_with_ci (lit "hxxp") s); [|done].
  change (length (lit "hxxp")) with 4%nat.
  replace (take 8 s) with (take 4 s ++ take 4 (drop 4 s))
    by apply (take_take_drop s 4 4).
  replace (take 7 s) with (take 4 s ++ take 3 (drop 4 s))
    by apply (take_take_drop s 4 3).
  replace (drop 8 s) with (drop 4 (drop 4 s)) by apply (drop_drop s 4 4).
  replace (drop 7 s) with (drop 3 (drop 4 s)) by apply (drop_drop s 3 4).
  rewrite (nth_drop 4).
  generalize (take 4 s) as s0. generalize (drop 4 s) as s4. clear s.
  intros s4 s0. cbn [mbind list_bind fst snd andb]. rewrite run_opt_chr.
  destruct s4 as [|c5 s5]; [done|].
  rewrite literal_ignorecase by (unfold lit; simpl; set_solver).
  change (lit "s://") with ("s"%char :: lit "://").
  cbn [starts_with_ci].
  destruct (Ascii.eqb_spec (lower_char c5) "s") as [Hs|Hs];
    cbn [mbind list_bind fst snd andb app];
    rewrite !run_literal, !starts_slashes.
  - assert (starts_with_ci (lit "://") (c5 :: s5) = false) as ->.
    { simpl. by rewrite Hs. }
    by destruct (starts_with_ci (lit "://") s5).
  - by destruct (starts_with_ci (lit "://") (c5 :: s5)).
Qed.

Lemma starts_with_ci_length p s :
  starts_with_ci p s = true → length p ≤ length s.
Proof.
  revert s. induction p as [|a p IH]; intros [|c s]; simpl; try done; [lia|].
  intros [_ Hp]%andb_true_iff. apply IH in Hp. lia.
Qed.

Definition scheme_template : list template_item :=
  [TText (lit "http"); TGroup 1; TText (lit "://")].

(** The text [re.sub] builds from a scan. *)
Definition rendered (r : list found * str) : str :=
  concat (map (λ f : found, f.1.1 ++ expand scheme_template f.2) r.1) ++ r.2.

Lemma sub_rendered s :
  Re.sub hxxp scheme_template s = rendered (scan hxxp 0 [] None s).
Proof. unfold Re.sub, rendered. by destruct (scan hxxp 0 [] None s). Qed.

Lemma rendered_cons f fs tl :
  rendered (f :: fs, tl) = f.1.1 ++ expand scheme_template f.2 ++ rendered (fs, tl).
Proof. unfold rendered. cbn [map concat fst snd]. by rewrite <- !app_assoc. Qed.

(** The scan with the scheme pattern builds what the direct rewriting
    builds. *)
Lemma scan_scheme skip pending prev s :
  rendered (scan hxxp skip pending prev s)
  = rev pending ++ rewrite_scheme true skip s.
Proof.
  revert skip pending prev. induction s as [|c s IH]; intros skip pending prev.
  - cbn [scan]. change (ignorecase hxxp) with true. rewrite hxxp_run.
    unfold rendered. simpl. by rewrite app_nil_r.
  - cbn [scan rewrite_scheme]. destruct skip as [|k]; [|apply IH].
    change (ignorecase hxxp) with true. rewrite hxxp_run.
    destruct (starts_with_ci (lit "hxxps://") (c :: s)) eqn:H8;
      [|destruct (starts_with_ci (lit "hxxp://") (c :: s)) eqn:H7].
    + apply starts_with_ci_length in H8. change (length (lit "hxxps://")) with 8 in H8.
      cbn [fst snd length take].
      rewrite length_take, Nat.min_l by (simpl in H8; lia).
      change (S 7 - 1) with 7.
      destruct (scan hxxp 7 [] (Some c) s) as [fs tl] eqn:Hscan.
      rewrite rendered_cons, <- Hscan, IH. by destruct s.
    + apply starts_with_ci_length in H7. change (length (lit "hxxp://")) with 7 in H7.
      cbn [fst snd length take].
      rewrite length_take, Nat.min_l by (simpl in H7; lia).
      change (S 6 - 1) with 6.
      destruct (scan hxxp 6 [] (Some c) s) as [fs tl] eqn:Hscan.
      by rewrite rendered_cons, <- Hscan, IH.
    + rewrite IH. simpl. by rewrite <- app_assoc.
Qed.

(** [re.sub] with the scheme pattern is the direct rewriting. *)
Lemma sub_scheme s : Re.sub hxxp scheme_template s = rewrite_scheme true 0 s.
Proof. by rewrite sub_rendered, scan_scheme. Qed.

End scheme.

(** C7, as the code has it: [deobfuscate] is the rewriting of every
    hxxp:// and hxxps://, in any case, into http:// and http, the s as the
    text has it, and ://, followed by the replacement of [.], then (.),
    then {.} by a dot; so "hxxps://evil[.]example[.]com" becomes
    "https://evil.example.com". *)
Theorem deobfuscate_rewrites :
  (∀ text, deobfuscate text = replace_dots (rewrite_scheme true 0 text))
  ∧ deobfuscate (lit "hxxps://evil[.]example[.]com")
    = lit "https://evil.example.com".
Proof.
  split; [|by vm_compute].
  intros text. unfold deobfuscate, replace_dots. cbv zeta.
  by rewrite <- sub_scheme.
Qed.

(** C7 as stated fails: the S of HXXPS:// stays in upper case. *)
Lemma deobfuscate_keeps_case :
  deobfuscate (lit "HXXPS://evil") = lit "httpS://evil"
  ∧ deobfuscate (lit "HXXPS://evil") ≠ deobfuscate_as_specified (lit "HXXPS://evil").
Proof. split; by vm_compute. Qed.

End DeobfuscateFacts.

(** ** The relevance filter *)

Module SearchFacts.

Import Search.

Local Open Scope string_scope.
Local Open Scope list_scope.
Local Open Scope Z_scope.

Section collect.

Lemma collect_foldl objects acc m :
  foldl (λ '(resultdict, hitsdict) obj,
           (resultdict ++ [(doc_name obj, text obj)],
            count_hit hitsdict (doc_name obj)))
        (acc, m) objects
  = (acc ++ map (λ h, (doc_name h, text h)) objects,
     foldl count_hit m (map doc_name objects)).
Proof.
  revert acc m. induction objects as [|o objects IH]; intros acc m; simpl.
  - by rewrite app_nil_r.
  - rewrite IH. by rewrite <- app_assoc.
Qed.

Lemma collect_eq objects :
  collect objects
  = (map (λ h, (doc_name h, text h)) objects,
     foldl count_hit ∅ (map doc_name objects)).
Proof. unfold collect. by rewrite collect_foldl. Qed.

Lemma count_hit_lookup m a d :
  count_hit m a !! d =
    if decide (a = d) then Some (default 0 (m !! d) + 1) else m !! d.
Proof.
  unfold count_hit. destruct (decide (a = d)) as [->|Hne].
  - destruct (m !! d) eqn:E; simpl; by rewrite lookup_insert_eq.
  - destruct (m !! a); by rewrite lookup_insert_ne.
Qed.

Lemma tally_lookup ds m d :
  foldl count_hit m ds !! d =
    let k := Z.of_nat (length (filter (λ x, x = d) ds)) in
    match m !! d with
    | Some n => Some (n + k)
    | None => if decide (k = 0) then None else Some k
    end.
Proof.
  revert m. induction ds as [|a ds IH]; intros m; simpl.
  - destruct (m !! d); [f_equal; lia | done].
  - rewrite IH, count_hit_lookup. rewrite filter_cons. cbv zeta.
    destruct (decide (a = d)) as [->|Hne]; simpl; [|done].
    destruct (m !! d); simpl; [f_equal; lia |].
    f_equal; lia.
Qed.

Lemma filter_doc_name d objects :
  length (filter (λ x, x = d) (map doc_name objects))
  = length (filter (λ h, doc_name h = d) objects).
Proof.
  induction objects as [|o objects IH]; [done|]. simpl.
  rewrite !filter_cons.
  destruct (decide (doc_name o = d)); simpl; congruence.
Qed.

Lemma hit_count_pos d objects :
  0 < hit_count d objects ↔ d ∈ map doc_name objects.
Proof.
  unfold hit_count. induction objects as [|o objects IH]; simpl.
  - split; [lia | by intros ?%elem_of_nil].
  - rewrite filter_cons, elem_of_cons. case_decide; simpl.
    + split; [auto | lia].
    + rewrite IH. split; [by right | by intros [?|?]].
Qed.

Lemma hit_count_nonneg d objects : 0 ≤ hit_count d objects.
Proof. unfold hit_count. lia. Qed.

(** What [hitsdict] holds when the loop ends. *)
Lemma hitsdict_lookup objects d :
  (collect objects).2 !! d =
    if decide (d ∈ map doc_name objects) then Some (hit_count d objects)
    else None.
Proof.
  rewrite collect_eq. simpl. rewrite tally_lookup, lookup_empty. simpl.
  rewrite filter_doc_name. fold (hit_count d objects).
  pose proof (hit_count_pos d objects) as Hp.
  repeat case_decide; try done; exfalso.
  - apply Hp in H0. lia.
  - pose proof (hit_count_nonneg d objects). apply H0, Hp. lia.
Qed.

End collect.

Section frame.

Lemma drop_dups_from_elem seen l r :
  r ∈ drop_dups_from seen l ↔ r ∈ l ∧ r ∉ seen.
Proof.
  revert seen. induction l as [|x l IH]; intros seen; simpl.
  - rewrite elem_of_nil. tauto.
  - case_decide as Hx.
    + rewrite IH, elem_of_cons. split; [tauto|].
      intros [[->|?] ?]; tauto.
    + rewrite !elem_of_cons, IH, elem_of_cons. split.
      * intros [->|[? ?]]; tauto.
      * intros [[->|?] ?]; [by left|].
        destruct (decide (r = x)); [by left | right; tauto].
Qed.

Lemma select_mask {A} (P : A → Prop) `{∀ x, Decision (P x)} (l : list A) :
  select l (map (λ x, bool_decide (P x)) l) = filter P l.
Proof.
  induction l as [|x l IH]; [done|]. simpl. rewrite filter_cons, IH.
  by destruct (decide (P x)); [rewrite bool_decide_true | rewrite bool_decide_false].
Qed.

Lemma pd_DataFrame_rows l :
  l ≠ [] → pd_DataFrame l = {| columns := ["doc_name"; "text"]; rows := l |}.
Proof. by destruct l. Qed.

Lemma cell_doc_name r : cell "doc_name" r = r.1.
Proof. done. Qed.

Lemma cell_text r : cell "text" r = r.2.
Proof. done. Qed.

(** What [dict(zip(..))] holds under a key: the value of its last pair. *)
Lemma dict_zip_lookup (l : list (string * string)) d :
  dict_zip l.*1 l.*2 !! d = last_text d l.
Proof.
  unfold dict_zip, last_text. rewrite zip_fst_snd.
  induction l as [|x l IH] using rev_ind; [done|].
  rewrite foldl_app, filter_app, fmap_app, last_app. simpl.
  rewrite filter_cons, filter_nil.
  destruct (decide (x.1 = d)) as [->|Hne]; simpl.
  - by rewrite lookup_insert_eq.
  - by rewrite lookup_insert_ne.
Qed.

Lemma last_text_is_Some d l : is_Some (last_text d l) ↔ d ∈ l.*1.
Proof.
  unfold last_text. rewrite fmap_last, fmap_is_Some.
  rewrite list_elem_of_fmap. split.
  - intros [x Hx]. apply last_Some_elem_of, list_elem_of_filter in Hx.
    destruct Hx as [Hd Hx]. by exists x.
  - intros [x [-> Hx]].
    destruct (last (filter (λ kv : string * string, kv.1 = x.1) l)) eqn:E; [done|].
    apply last_None in E.
    assert (x ∈ filter (λ kv : string * string, kv.1 = x.1) l) as Hin
      by (by apply list_elem_of_filter).
    rewrite E in Hin. by apply elem_of_nil in Hin.
Qed.

Lemma last_text_filter (high : list string) d (l : list (string * string)) :
  last_text d (filter (λ r, r.1 ∈ high) l)
  = if decide (d ∈ high) then last_text d l else None.
Proof.
  unfold last_text. rewrite list_filter_filter.
  case_decide as Hd.
  - do 2 f_equal. apply list_filter_iff. intros x. split; [tauto|].
    intros Hx. split; [done | by rewrite Hx].
  - rewrite (elem_of_nil_inv (filter _ l)); [done|].
    intros x [[Hx HP] _]%list_elem_of_filter. by rewrite Hx in HP.
Qed.

End frame.

Section quantile.

Lemma py_int_Qeq x y : (x == y)%Q → py_int x = py_int y.
Proof.
  unfold Qeq, py_int. intros H.
  rewrite <- (Z.quot_mul_cancel_r (Qnum x) (Z.pos (Qden x)) (Z.pos (Qden y))) by lia.
  rewrite H, (Z.mul_comm (Z.pos (Qden x))).
  by rewrite Z.quot_mul_cancel_r by lia.
Qed.

Lemma py_int_inject v : py_int (inject_Z v) = v.
Proof. unfold py_int, inject_Z. simpl. apply Z.quot_1_r. Qed.

Lemma merge_sort_perm (a b : list Z) :
  a ≡ₚ b → merge_sort Z.le a = merge_sort Z.le b.
Proof.
  intros H. apply (Sorted_unique Z.le); try apply Sorted_merge_sort; try apply _.
  by rewrite !merge_sort_Permutation.
Qed.

Lemma exact_quantile_perm a b q : a ≡ₚ b → exact_quantile a q = exact_quantile b q.
Proof.
  intros H. unfold exact_quantile.
  destruct (negb _); [done|].
  destruct a as [|x a], b as [|y b].
  - done.
  - by apply Permutation_nil_cons in H.
  - symmetry in H. by apply Permutation_nil_cons in H.
  - by rewrite (merge_sort_perm _ _ H).
Qed.

Lemma in_range q : (0 <= q <= 1)%Q → negb (Qle_bool 0 q && Qle_bool q 1) = false.
Proof. intros [H0 H1]. apply Qle_bool_iff in H0, H1. by rewrite H0, H1. Qed.

Lemma exact_quantile_Ok a q :
  a ≠ [] → (0 <= q <= 1)%Q → ∃ p, exact_quantile a q = Ok p.
Proof.
  intros Ha Hq. unfold exact_quantile. rewrite (in_range q Hq).
  destruct a; [done|]. by eexists.
Qed.

(** The virtual index falls inside the data. *)
Lemma previous_index_range n q :
  0 < n → (0 <= q <= 1)%Q → 0 ≤ Qfloor (inject_Z (n - 1) * q) ≤ n - 1.
Proof.
  intros Hn [Hq0 Hq1]. split.
  - change 0 with (Qfloor (inject_Z 0)). apply Qfloor_resp_le.
    apply Qmult_le_0_compat; [|done]. unfold Qle. simpl. lia.
  - rewrite <- (Qfloor_Z (n - 1)) at 2. apply Qfloor_resp_le.
    destruct q as [qn qd]. unfold Qle in *. simpl in *. nia.
Qed.

Lemma nth_const (l : list Z) v i :
  Forall (λ x, x = v) l → (i < length l)%nat → nth i l 0 = v.
Proof.
  intros Hall Hi. rewrite Forall_forall in Hall.
  apply Hall, list_elem_of_In, nth_In, Hi.
Qed.

(** The quantile of a single-valued distribution is that value. *)
Lemma exact_quantile_const a v q p :
  (0 <= q <= 1)%Q → Forall (λ x, x = v) a →
  exact_quantile a q = Ok p → (p == inject_Z v)%Q.
Proof.
  intros Hq Hall. unfold exact_quantile. rewrite (in_range q Hq).
  destruct a as [|x a]; [done|]. intros [= <-].
  assert (Forall (λ x, x = v) (merge_sort Z.le (x :: a))) as Hs
    by (by rewrite merge_sort_Permutation).
  assert (length (merge_sort Z.le (x :: a)) ≠ 0%nat) as Hlen.
  { rewrite (Permutation_length (merge_sort_Permutation _ _)). done. }
  set (s := merge_sort Z.le (x :: a)) in *.
  unfold linear_interpolation. cbv zeta.
  pose proof (previous_index_range (Z.of_nat (length s)) q ltac:(lia) Hq) as Hr.
  set (j := Qfloor _) in *.
  rewrite !(nth_const s v) by (done || lia).
  rewrite Z.sub_diag. ring.
Qed.

End quantile.

(** The interpolation without rounding meets what is asked of the
    library. *)
Definition exact_numpy : Numpy :=
  {| np_quantile := exact_quantile;
     np_quantile_Ok a q Ha _ Hq := exact_quantile_Ok a q Ha Hq;
     np_quantile_perm a b q _ Hab := exact_quantile_perm a b q Hab;
     np_quantile_const a v q p Hq Hall _ := exact_quantile_const a v q p Hq Hall |}.

Section filter.

Context `{Numpy}.

Lemma documents_elem d objects :
  d ∈ documents objects ↔ d ∈ map doc_name objects.
Proof. apply elem_of_remove_dups. Qed.

Lemma hitsdict_counts objects :
  (map_to_list (collect objects).2).*2 ≡ₚ doc_counts objects.
Proof.
  unfold doc_counts.
  rewrite <- (map_map (λ d, (d, hit_count d objects)) snd).
  apply fmap_Permutation, NoDup_Permutation.
  - apply NoDup_map_to_list.
  - apply NoDup_fmap_2; [by intros d d' [= ->] | apply NoDup_remove_dups].
  - intros [d n]. rewrite elem_of_map_to_list, hitsdict_lookup. split.
    + case_decide as Hd; [|done]. intros [= <-].
      apply list_elem_of_fmap. exists d. by rewrite documents_elem.
    + intros [d' [[= -> ->] Hin]]%list_elem_of_fmap.
      apply documents_elem in Hin. by rewrite decide_True.
Qed.

Lemma high_values_elem objects thr d :
  d ∈ high_values (collect objects).2 thr
  ↔ d ∈ documents objects ∧ thr ≤ hit_count d objects.
Proof.
  unfold high_values. rewrite list_elem_of_fmap, documents_elem. split.
  - intros [[d' n] [-> [Hn Hin]%list_elem_of_filter]]. simpl in *.
    apply elem_of_map_to_list in Hin. rewrite hitsdict_lookup in Hin.
    case_decide; [|done]. by injection Hin as <-.
  - intros [Hd Hn]. exists (d, hit_count d objects). split; [done|].
    apply list_elem_of_filter. split; [done|].
    apply elem_of_map_to_list. rewrite hitsdict_lookup. by case_decide.
Qed.

Lemma hit_count_le_length d objects :
  hit_count d objects ≤ Z.of_nat (length objects).
Proof. unfold hit_count. pose proof (length_filter (λ h, doc_name h = d) objects). lia. Qed.

Lemma doc_counts_exact objects :
  Z.of_nat (length objects) < 2 ^ 53 → Forall exact_int (doc_counts objects).
Proof.
  intros Hlen. apply Forall_fmap, Forall_forall. intros d _.
  unfold exact_int. simpl.
  pose proof (hit_count_le_length d objects).
  pose proof (hit_count_nonneg d objects). lia.
Qed.

(** On a non-empty hit list the filter runs to its end. *)
Lemma filterresults_run objects :
  objects ≠ [] → Z.of_nat (length objects) < 2 ^ 53 →
  ∃ p, np_quantile (doc_counts objects) (9 # 10) = Ok p ∧
       let kept := filter (λ r, r.1 ∈ high_values (collect objects).2 (py_int p))
                          (distinct_rows objects) in
       _filterresults objects = Ok (dict_zip kept.*1 kept.*2).
Proof.
  intros Hne Hlen.
  destruct (np_quantile_Ok (doc_counts objects) (9 # 10)) as [p Hp].
  { unfold doc_counts, documents. destruct objects as [|o objects]; [done|].
    intros Hnil%fmap_nil_inv.
    assert (doc_name o ∈ remove_dups (map doc_name (o :: objects))) as Hin
      by (apply elem_of_remove_dups; left).
    rewrite Hnil in Hin. by apply elem_of_nil in Hin. }
  { by apply doc_counts_exact. }
  { done. }
  exists p. split; [done|]. cbv zeta.
  pose proof (symmetry (hitsdict_counts objects)) as Hperm.
  rewrite (np_quantile_perm _ _ _ (doc_counts_exact _ Hlen) Hperm) in Hp.
  assert (size (collect objects).2 ≠ 0%nat) as Hsize.
  { destruct objects as [|o objects]; [done|].
    apply map_size_ne_0_lookup. exists (doc_name o).
    rewrite hitsdict_lookup, decide_True; [done | left]. }
  unfold _filterresults, distinct_rows.
  destruct (collect objects) as [resultdict hitsdict] eqn:Hc.
  rewrite collect_eq in Hc. injection Hc as <- Hh. simpl in Hp, Hsize |- *.
  rewrite pd_DataFrame_rows by (by destruct objects).
  destruct (decide (0 < size hitsdict)%nat) as [_|]; [|lia].
  unfold threshold. rewrite Hp.
  unfold drop_duplicates, getitem, loc, isin; cbn.
  rewrite !decide_True by (repeat constructor). cbn.
  rewrite !decide_True by (repeat constructor). cbn.
  rewrite map_map.
  rewrite (select_mask (λ r : string * string, r.1 ∈ high_values hitsdict (py_int p))).
  done.
Qed.

Lemma kept_dom objects thr d :
  d ∈ dom (dict_zip
             (filter (λ r, r.1 ∈ high_values (collect objects).2 thr)
                     (distinct_rows objects)).*1
             (filter (λ r, r.1 ∈ high_values (collect objects).2 thr)
                     (distinct_rows objects)).*2)
  ↔ d ∈ documents objects ∧ thr ≤ hit_count d objects.
Proof.
  rewrite elem_of_dom, dict_zip_lookup.
  rewrite last_text_filter.
  rewrite <- high_values_elem. case_decide as Hd.
  - split; [done|]. intros _. apply last_text_is_Some.
    apply high_values_elem in Hd as [Hd _]. apply documents_elem in Hd.
    apply list_elem_of_fmap in Hd as [h [-> Hh]].
    apply list_elem_of_fmap. exists (doc_name h, text h). split; [done|].
    apply drop_dups_from_elem. split; [|by intros ?%elem_of_nil].
    apply list_elem_of_fmap. by exists h.
  - split; [by intros [? [=]] | done].
Qed.

(** C1, as the code has it: on every non-empty hit list (of fewer than
    2^53 hits, so that binary64 holds every count exactly) the filter
    returns a map whose documents are exactly those whose hit-count is at
    least the 90th percentile of the hit-counts of the distinct
    documents, as [np.quantile] gives it, truncated to an integer by
    [int]; when all documents tie, every document is kept. *)
Theorem filter_keeps_truncated_percentile objects :
  objects ≠ [] → Z.of_nat (length objects) < 2 ^ 53 →
  ∃ m, _filterresults objects = Ok m ∧
       truncated_percentile_rule objects m ∧
       (all_tie objects → ∀ d, d ∈ documents objects → d ∈ dom m).
Proof.
  intros Hne Hlen. destruct (filterresults_run objects Hne Hlen) as [p [Hp Hrun]].
  eexists. split; [exact Hrun|]. split.
  - exists p. split; [done|]. intros d. apply kept_dom.
  - intros Htie d Hd. apply kept_dom. split; [done|].
    assert (p == inject_Z (hit_count d objects))%Q as Heq.
    { apply (np_quantile_const (doc_counts objects) _ (9 # 10)); [done| | |done].
      - apply Forall_fmap, Forall_forall. intros d' Hd'. simpl. by apply Htie.
      - unfold exact_int.
        pose proof (hit_count_le_length d objects).
        pose proof (hit_count_nonneg d objects). lia. }
    rewrite (py_int_Qeq _ _ Heq), py_int_inject. lia.
Qed.

(** C8: the returned map holds one text per retained document, the last
    one among the document's rows once exact duplicates are collapsed;
    for the hit lists on which the filter returns, the non-empty ones
    (of fewer than 2^53 hits). *)
Theorem filter_one_text_per_document objects :
  objects ≠ [] → Z.of_nat (length objects) < 2 ^ 53 →
  ∃ m, _filterresults objects = Ok m ∧ one_text_per_document objects m.
Proof.
  intros Hne Hlen. destruct (filterresults_run objects Hne Hlen) as [p [Hp Hrun]].
  eexists. split; [exact Hrun|]. split.
  - apply NoDup_fst_map_to_list.
  - intros d Hd. pose proof Hd as Hd'. apply elem_of_dom in Hd' as [t Ht].
    exists t. split; [done|].
    rewrite dict_zip_lookup in Ht.
    rewrite last_text_filter in Ht.
    by case_decide.
Qed.

(** C2: on an empty hit list the filter does not return an empty map:
    the frame built from no row has no [doc_name] column, and reading
    that column raises [KeyError]. *)
Theorem filterresults_empty_raises :
  _filterresults [] = Raise (KeyError "doc_name").
Proof. reflexivity. Qed.

End filter.

(** C1 as stated fails: document A, with one hit, is below the
    percentile 1.9 of the counts 1 and 2, and is kept all the same. *)
Lemma percentile_rule_fails :
  ∃ m, @_filterresults exact_numpy two_documents = Ok m
       ∧ ¬ @percentile_rule exact_numpy two_documents m.
Proof.
  eexists. split; [reflexivity|].
  intros [p [Hp Hrule]]. vm_compute in Hp. injection Hp as <-.
  destruct (Hrule "A") as [Hin _].
  destruct Hin as [_ Hle].
  - apply elem_of_dom. by eexists.
  - vm_compute in Hle. by apply Hle.
Qed.

Lemma filter_keeps_truncated_percentile_witness :
  tied_documents ≠ [] ∧ Z.of_nat (length tied_documents) < 2 ^ 53 ∧
  all_tie tied_documents ∧
  ∃ m, @_filterresults exact_numpy tied_documents = Ok m ∧
       @truncated_percentile_rule exact_numpy tied_documents m ∧
       ∀ d, d ∈ documents tied_documents → d ∈ dom m.
Proof.
  assert (Z.of_nat (length tied_documents) < 2 ^ 53) as Hlen by (simpl; lia).
  assert (all_tie tied_documents) as Htie.
  { intros d d' Hd%list_elem_of_In Hd'%list_elem_of_In.
    vm_compute in Hd, Hd'.
    by destruct Hd as [<-|[<-|[]]], Hd' as [<-|[<-|[]]]. }
  split; [done|]. split; [exact Hlen|]. split; [exact Htie|].
  destruct (@filter_keeps_truncated_percentile exact_numpy tied_documents)
    as (m & Hm & Hrule & Hall); [done|exact Hlen|].
  exists m. split; [exact Hm|]. split; [exact Hrule|]. exact (Hall Htie).
Defined.

Lemma filter_one_text_per_document_witness :
  two_documents ≠ [] ∧ Z.of_nat (length two_documents) < 2 ^ 53 ∧
  ∃ m, @_filterresults exact_numpy two_documents = Ok m ∧
       one_text_per_document two_documents m.
Proof.
  assert (Z.of_nat (length two_documents) < 2 ^ 53) as Hlen by (simpl; lia).
  split; [done|]. split; [exact Hlen|].
  apply (@filter_one_text_per_document exact_numpy two_documents); [done|exact Hlen].
Defined.

End SearchFacts.

(** ** More on the chunker: how the sentences are grouped *)

Module ChunkerStructure.

Import Str Re Ingestion StrFacts ReFacts SplitFacts ChunkerFacts.

Local Open Scope list_scope.
Local Open Scope Z_scope.

(** The paragraphs of a text, as the chunker splits them. *)
Definition paragraphs_of (text : str) : list str :=
  Re.split paragraph_break (strip text).

(** A list of groups of sentences is greedy when each group but the last
    is followed by a group whose first sentence would have taken it over
    the bound. *)
Fixpoint greedy (max_chunk_size : Z) (gs : list (list str)) : Prop :=
  match gs with
  | g :: gs' =>
      match gs' with
      | g' :: _ =>
          (∃ s r, g' = s :: r
                  ∧ max_chunk_size < word_count (join (lit " ") (g ++ [s])))
          ∧ greedy max_chunk_size gs'
      | [] => True
      end
  | [] => True
  end.

Section greedy.

Variable max_chunk_size : Z.

Lemma greedy_cons g g' gs :
  greedy max_chunk_size (g :: g' :: gs)
  ↔ (∃ s r, g' = s :: r
            ∧ max_chunk_size < word_count (join (lit " ") (g ++ [s])))
    ∧ greedy max_chunk_size (g' :: gs).
Proof. done. Qed.

Lemma add_sentences_greedy chunks cur ss :
  fits max_chunk_size cur →
  ∃ gs cur',
    foldl (add_sentence max_chunk_size) (chunks, cur) ss
    = (chunks ++ map chunk_of gs, cur')
    ∧ concat gs ++ cur' = cur ++ ss
    ∧ greedy max_chunk_size (gs ++ [cur'])
    ∧ cur `prefix_of` default cur' (head gs)
    ∧ Forall (fits max_chunk_size) (gs ++ [cur']).
Proof.
  revert chunks cur. induction ss as [|s ss IH]; intros chunks cur Hcur.
  - exists [], cur. simpl. rewrite !app_nil_r. repeat split; try done.
    by constructor.
  - cbn [foldl]. rewrite add_sentence_eq.
    destruct (Z.leb_spec (word_count (join (lit " ") (cur ++ [s]))) max_chunk_size)
      as [Hle|Hgt].
    + destruct (IH chunks (cur ++ [s])) as (gs & cur' & Hf & Hc & Hg & Hp & Hfit).
      { right. by left. }
      exists gs, cur'. rewrite Hf, Hc, <- app_assoc. repeat split; try done.
      etrans; [|exact Hp]. by apply prefix_app_r.
    + destruct (IH (chunks ++ [chunk_of cur]) [s]) as (gs & cur' & Hf & Hc & Hg & Hp & Hfit).
      { right. right. by eexists. }
      exists (cur :: gs), cur'. rewrite Hf. simpl.
      rewrite <- !app_assoc, Hc. simpl. repeat split; try done.
      * destruct Hp as [r Hr].
        destruct gs as [|g gs]; simpl in *; subst; (split; [by eexists _, _ | done]).
      * by constructor.
Qed.

Lemma greedy_init gs g :
  greedy max_chunk_size (gs ++ [g]) → greedy max_chunk_size gs.
Proof.
  induction gs as [|g1 gs IH]; [done|].
  destruct gs as [|g2 gs]; [done|].
  change ((g1 :: g2 :: gs) ++ [g]) with (g1 :: g2 :: (gs ++ [g])).
  rewrite !greedy_cons. intros [H1 H2]. split; [done|]. by apply IH.
Qed.

Lemma greedy_last_nil gs :
  greedy max_chunk_size (gs ++ [[]]) → gs = [].
Proof.
  induction gs as [|g1 gs IH]; [done|].
  destruct gs as [|g2 gs].
  - simpl. by intros [(s & r & [=] & _) _].
  - change ((g1 :: g2 :: gs) ++ [[]]) with (g1 :: g2 :: (gs ++ [[]])).
    rewrite greedy_cons. intros [_ H2]. by apply IH in H2.
Qed.

Lemma add_paragraph_greedy chunks para :
  ∃ gs, add_paragraph max_chunk_size chunks para = chunks ++ map chunk_of gs
        ∧ concat gs = Re.split sentence_break (strip para)
        ∧ greedy max_chunk_size gs
        ∧ Forall (fits max_chunk_size) gs.
Proof.
  unfold add_paragraph.
  destruct (add_sentences_greedy chunks [] (Re.split sentence_break (strip para)))
    as (gs & cur' & Hf & Hc & Hg & _ & Hfit); [by left|].
  rewrite Hf. cbn [fst snd]. rewrite app_nil_l in Hc.
  destruct cur' as [|s cur'].
  - exists gs. rewrite app_nil_r in Hc. repeat split; try done.
    + by apply greedy_init in Hg.
    + by apply Forall_app in Hfit as [? _].
  - exists (gs ++ [s :: cur']).
    rewrite map_app, concat_app. cbn [map concat]. rewrite app_nil_r.
    repeat split; try done. by rewrite <- app_assoc.
Qed.

Lemma add_paragraphs_greedy chunks paras :
  ∃ gss, foldl (add_paragraph max_chunk_size) chunks paras
         = chunks ++ map chunk_of (concat gss)
         ∧ Forall2 (λ para gs,
                      concat gs = Re.split sentence_break (strip para)
                      ∧ greedy max_chunk_size gs
                      ∧ Forall (fits max_chunk_size) gs) paras gss.
Proof.
  revert chunks. induction paras as [|para paras IH]; intros chunks.
  - exists []. simpl. by rewrite app_nil_r.
  - simpl. destruct (add_paragraph_greedy chunks para) as (gs1 & -> & Hc1 & Hg1 & Hf1).
    destruct (IH (chunks ++ map chunk_of gs1)) as (gss & -> & Hall).
    exists (gs1 :: gss). simpl. rewrite map_app, <- app_assoc. split; [done|].
    by constructor.
Qed.

End greedy.

(** X3: the chunker works paragraph by paragraph.  The sentences of each
    paragraph are cut into consecutive groups, so that no group takes
    sentences of two paragraphs; a group is within the bound or is a
    single sentence (or is the empty group before a first sentence that
    does not fit); and a group ends only where the next sentence would
    have taken it over the bound.  The chunks are the groups, each joined
    by single spaces and trimmed, without the empty ones. *)
Theorem chunks_greedy text max_chunk_size :
  ∃ gss,
    Forall2 (λ para gs,
               concat gs = Re.split sentence_break (strip para)
               ∧ greedy max_chunk_size gs
               ∧ Forall (fits max_chunk_size) gs)
            (paragraphs_of text) gss
    ∧ chunk_text_by_sentence_and_paragraph text max_chunk_size
      = List.filter nonempty (map chunk_of (concat gss)).
Proof.
  unfold chunk_text_by_sentence_and_paragraph, paragraphs_of.
  destruct (add_paragraphs_greedy max_chunk_size []
              (Re.split paragraph_break (strip text))) as (gss & -> & Hall).
  by exists gss.
Qed.

(** X1: every chunk is trimmed: it starts and ends with a character
    that is not a blank, and [strip] leaves it as it is. *)
Theorem chunks_trimmed text max_chunk_size :
  Forall (λ c, solid c ∧ strip c = c)
         (chunk_text_by_sentence_and_paragraph text max_chunk_size).
Proof.
  destruct (chunk_groups max_chunk_size text) as [gs [-> _]].
  apply Forall_forall. intros c [Hin Hne]%list_elem_of_In%filter_In.
  apply in_map_iff in Hin as [g [<- _]]. unfold chunk_of in *.
  assert (solid (strip (join (lit " ") g))) as Hs.
  { apply strip_solid. by destruct (strip _). }
  split; [done | by apply strip_id].
Qed.

Section blank.

Lemma split_nonempty p s : Re.split p s ≠ [].
Proof.
  unfold Re.split. destruct (scan p 0 [] None s) as [fs tl].
  by destruct (map _ fs).
Qed.

Lemma sentences_of_text text :
  strip text ≠ [] → sentences_of text ≠ [] ∧ Forall solid (sentences_of text).
Proof.
  intros Hne. unfold sentences_of.
  assert (solid (strip text)) as Hsolid by by apply strip_solid.
  apply paragraphs_not_blank in Hsolid.
  pose proof (split_nonempty paragraph_break (strip text)) as Hp.
  destruct Hsolid as [|para paras Hpara Hparas]; [done|].
  split.
  - simpl. intros [E _]%app_eq_nil. by apply split_nonempty in E.
  - clear Hp. apply Forall_forall. intros s Hs.
    apply list_elem_of_In, in_flat_map in Hs as [para' [Hin Hs]].
    assert (forallb isspace para' = false) as Hb.
    { apply list_elem_of_In in Hin. apply elem_of_cons in Hin as [->|Hin]; [done|].
      rewrite Forall_forall in Hparas. by apply Hparas. }
    assert (Forall solid (Re.split sentence_break (strip para'))) as Hall.
    { apply sentences_solid, strip_solid. rewrite strip_nil. unfold blank. congruence. }
    rewrite Forall_forall in Hall. by apply Hall, list_elem_of_In.
Qed.

Lemma blank_text_chunks text max_chunk_size :
  forallb isspace text = true →
  chunk_text_by_sentence_and_paragraph text max_chunk_size = [].
Proof.
  intros Hb. apply strip_nil in Hb.
  unfold chunk_text_by_sentence_and_paragraph. rewrite Hb.
  change (Re.split paragraph_break []) with [@nil ascii].
  cbn [foldl]. unfold add_paragraph.
  change (strip []) with (@nil ascii).
  change (Re.split sentence_break []) with [@nil ascii].
  cbn [foldl]. rewrite add_sentence_eq.
  by destruct (_ <=? _).
Qed.

End blank.

(** X2: the chunker returns no chunk exactly for the texts made of
    blanks, the empty text among them, whatever the bound. *)
Theorem no_chunk_iff_blank text max_chunk_size :
  chunk_text_by_sentence_and_paragraph text max_chunk_size = []
  ↔ forallb isspace text = true.
Proof.
  split.
  - intros Hnil. destruct (forallb isspace text) eqn:Hb; [done|]. exfalso.
    assert (strip text ≠ []) as Hne.
    { rewrite strip_nil. unfold blank. congruence. }
    destruct (sentences_of_text text Hne) as [Hs Hsolid].
    destruct (chunk_groups max_chunk_size text) as (gs & Hch & Hc & _).
    rewrite Hnil in Hch. symmetry in Hch. rewrite <- Hc in *.
    apply join_chunks in Hch; [done|].
    apply Forall_forall. intros g Hg. apply Forall_forall. intros s Hin.
    rewrite Forall_forall in Hsolid. apply Hsolid.
    apply list_elem_of_In, in_concat. exists g. by rewrite <- !list_elem_of_In.
  - apply blank_text_chunks.
Qed.

Section oversized.

Variable max_chunk_size : Z.

Lemma word_count_join_snoc cur s :
  word_count s ≤ word_count (join (lit " ") (cur ++ [s])).
Proof.
  unfold word_count. rewrite split_join, map_app, concat_app, length_app.
  simpl. rewrite app_nil_r. lia.
Qed.

Lemma add_sentences_oversized chunks cur ss :
  (∀ s, s ∈ ss → max_chunk_size < word_count s) →
  ∃ gs cur',
    foldl (add_sentence max_chunk_size) (chunks, cur) ss
    = (chunks ++ map chunk_of gs, cur')
    ∧ gs ++ [cur'] = cur :: map (λ s, [s]) ss.
Proof.
  revert chunks cur. induction ss as [|s ss IH]; intros chunks cur Hss.
  - exists [], cur. simpl. by rewrite app_nil_r.
  - cbn [foldl]. rewrite add_sentence_eq.
    pose proof (word_count_join_snoc cur s) as Hge.
    pose proof (Hss s ltac:(left)) as Hs.
    destruct (Z.leb_spec (word_count (join (lit " ") (cur ++ [s]))) max_chunk_size)
      as [Hle|_]; [lia|].
    destruct (IH (chunks ++ [chunk_of cur]) [s]) as (gs & cur' & Hf & Hg).
    { intros x Hx. apply Hss. by right. }
    exists (cur :: gs), cur'. rewrite Hf. simpl. rewrite <- app_assoc, Hg. done.
Qed.

Lemma filter_nonempty_snoc_nil (l : list str) :
  List.filter nonempty (l ++ [[]]) = List.filter nonempty l.
Proof. rewrite List.filter_app. simpl. by rewrite app_nil_r. Qed.

Lemma add_paragraph_oversized chunks para :
  (∀ s, s ∈ Re.split sentence_break (strip para) → max_chunk_size < word_count s) →
  List.filter nonempty (add_paragraph max_chunk_size chunks para)
  = List.filter nonempty chunks
    ++ List.filter nonempty (map strip (Re.split sentence_break (strip para))).
Proof.
  intros Hss. unfold add_paragraph.
  destruct (add_sentences_oversized chunks [] _ Hss) as (gs & cur' & Hf & Hg).
  rewrite Hf. cbn [fst snd].
  assert (List.filter nonempty
            (match cur' with
             | [] => chunks ++ map chunk_of gs
             | _ :: _ => (chunks ++ map chunk_of gs) ++ [strip (join (lit " ") cur')]
             end)
          = List.filter nonempty (chunks ++ map chunk_of (gs ++ [cur']))) as ->.
  { rewrite map_app, app_assoc. destruct cur'; [|done].
    cbn [map]. rewrite chunk_of_nil. by rewrite filter_nonempty_snoc_nil. }
  rewrite Hg. cbn [map]. rewrite chunk_of_nil, List.filter_app. f_equal.
  cbn [List.filter nonempty]. by rewrite map_map.
Qed.

Lemma add_paragraphs_oversized chunks paras :
  (∀ s, s ∈ flat_map (λ para, Re.split sentence_break (strip para)) paras →
        max_chunk_size < word_count s) →
  List.filter nonempty (foldl (add_paragraph max_chunk_size) chunks paras)
  = List.filter nonempty chunks
    ++ List.filter nonempty
         (map strip (flat_map (λ para, Re.split sentence_break (strip para)) paras)).
Proof.
  revert chunks. induction paras as [|para paras IH]; intros chunks Hss.
  - simpl. by rewrite app_nil_r.
  - simpl. rewrite IH.
    + rewrite add_paragraph_oversized.
      * by rewrite map_app, List.filter_app, app_assoc.
      * intros s Hs. apply Hss. simpl. apply elem_of_app. by left.
    + intros s Hs. apply Hss. simpl. apply elem_of_app. by right.
Qed.

Lemma solid_word s : solid s → 0 < word_count s.
Proof.
  intros [[c [Hh Hc]] _]. destruct s as [|x s]; [done|]. injection Hh as ->.
  unfold word_count, Str.split. simpl. rewrite Hc.
  destruct (fields_cons s) as (f & fs & ->). simpl. lia.
Qed.

Lemma filter_strip_sentences text :
  List.filter nonempty (map strip (sentences_of text))
  = List.filter nonempty (sentences_of text).
Proof.
  destruct (sentences_of_solid text) as [->|Hsolid]; [done|].
  f_equal. induction Hsolid as [|s ss Hs _ IH]; [done|].
  simpl. by rewrite strip_id, IH.
Qed.

Lemma oversized_chunks text :
  (∀ s, s ∈ sentences_of text → max_chunk_size < word_count s) →
  chunk_text_by_sentence_and_paragraph text max_chunk_size
  = List.filter nonempty (sentences_of text).
Proof.
  intros Hss. unfold chunk_text_by_sentence_and_paragraph.
  rewrite add_paragraphs_oversized by done.
  apply filter_strip_sentences.
Qed.

End oversized.

(** X4: when every sentence of the text has more words than the bound,
    no two sentences are put together: the chunks are the sentences. *)
Theorem oversized_sentences_stand_alone text max_chunk_size :
  (∀ s, s ∈ sentences_of text → max_chunk_size < word_count s) →
  chunk_text_by_sentence_and_paragraph text max_chunk_size
  = List.filter nonempty (sentences_of text).
Proof. apply oversized_chunks. Qed.

Lemma oversized_sentences_stand_alone_witness :
  (∀ s, s ∈ sentences_of (lit "One two. Three four five.") → 1 < word_count s)
  ∧ chunk_text_by_sentence_and_paragraph (lit "One two. Three four five.") 1
    = List.filter nonempty (sentences_of (lit "One two. Three four five.")).
Proof.
  assert (∀ s, s ∈ sentences_of (lit "One two. Three four five.") → 1 < word_count s)
    as Hss.
  { intros s Hs%list_elem_of_In. vm_compute in Hs.
    by destruct Hs as [<-|[<-|[]]]. }
  split; [exact Hss | exact (oversized_sentences_stand_alone _ _ Hss)].
Defined.

(** X5: with a bound of zero or less the chunker still returns, and
    every sentence of the text is a chunk of its own. *)
Theorem nonpositive_bound text max_chunk_size :
  max_chunk_size ≤ 0 →
  chunk_text_by_sentence_and_paragraph text max_chunk_size
  = List.filter nonempty (sentences_of text).
Proof.
  intros Hmax. destruct (forallb isspace text) eqn:Hb.
  - rewrite blank_text_chunks by done.
    unfold sentences_of. by rewrite (proj2 (strip_nil text) Hb).
  - apply oversized_chunks. intros s Hs.
    assert (strip text ≠ []) as Hne.
    { rewrite strip_nil. unfold blank. congruence. }
    destruct (sentences_of_text text Hne) as [_ Hsolid].
    rewrite Forall_forall in Hsolid. pose proof (solid_word s (Hsolid s Hs)). lia.
Qed.

Lemma nonpositive_bound_witness :
  0 ≤ 0
  ∧ chunk_text_by_sentence_and_paragraph (lit "One two. Three four five.") 0
    = List.filter nonempty (sentences_of (lit "One two. Three four five.")).
Proof. split; [lia | apply nonpositive_bound; lia]. Defined.

End ChunkerStructure.

(** ** More on the indicators: what the lists hold *)

Module IndicatorFacts.

Import Str Re Ingestion StrFacts ReFacts ExtractFacts.

Local Open Scope string_scope.
Local Open Scope list_scope.
Local Open Scope Z_scope.

(** The form in which the loop of [extract_iocs] keeps a match of the
    pattern of [key]: trimmed, and in lower case for the two address
    types. *)
Definition normal_form (key : string) (m : str) : str :=
  if decide (key ∈ ["ipv4"; "ipv6"]) then lower (strip m) else strip m.

Section indicators.

Context `{SetOrder}.

Lemma set_list_NoDup l : NoDup (set_list l).
Proof. rewrite set_list_perm. apply NoDup_remove_dups. Qed.

Lemma sorted_NoDup l : NoDup l → NoDup (sorted l).
Proof. by rewrite sorted_perm. Qed.

Lemma keys_cases key :
  key ∈ IOC_PATTERNS.*1 →
  key = "ports"
  ∨ key ∈ ["cves"; "tids"; "hashes"; "emails"; "urls"; "domains"; "paths"]
  ∨ key ∈ ["ipv4"; "ipv6"].
Proof. rewrite IOC_PATTERNS_keys. set_solver. Qed.

Lemma extract_key_NoDup key rx text vals :
  key ∈ IOC_PATTERNS.*1 → extract_key key rx text = Ok vals → NoDup vals.
Proof.
  intros Hkey. unfold extract_key.
  destruct (decide (key = "ports")) as [->|Hp].
  - destruct (port_numbers _) as [ns|e]; [|done]. simpl.
    intros [= <-]. apply sorted_NoDup, set_list_NoDup.
  - destruct (decide (key ∈ ["cves"; "tids"; "hashes"; "emails"; "urls"; "domains"; "paths"])).
    { simpl. intros [= <-]. apply sorted_NoDup, set_list_NoDup. }
    destruct (decide (key ∈ ["ipv4"; "ipv6"])).
    { simpl. intros [= <-]. apply sorted_NoDup, set_list_NoDup. }
    by destruct (keys_cases key Hkey) as [?|[?|?]].
Qed.

(** The patterns other than the port pattern have no group: [findall]
    gives the matched texts. *)
Lemma found_texts_matches rx text :
  groups (expr rx) = 0%nat →
  found_texts rx text = map (λ f : found, f.1.2) (finditer rx text).
Proof.
  intros Hg. unfold found_texts, findall. rewrite Hg.
  destruct (finditer rx text) as [|f fs]; [done|].
  cbn [map]. by rewrite map_map.
Qed.

Lemma IOC_PATTERNS_groups key rx :
  (key, rx) ∈ IOC_PATTERNS → key ≠ "ports" → groups (expr rx) = 0%nat.
Proof.
  unfold IOC_PATTERNS. rewrite !elem_of_cons, elem_of_nil.
  intros Hin Hkey. repeat (destruct Hin as [[= -> ->]|Hin]; [done|]).
  destruct Hin.
Qed.

Lemma extract_key_matches key rx text :
  (key, rx) ∈ IOC_PATTERNS → key ≠ "ports" →
  ∃ vals, extract_key key rx text = Ok vals
          ∧ ∀ v, v ∈ vals ↔ ∃ f, f ∈ finditer rx text ∧ v = normal_form key f.1.2.
Proof.
  intros Hin Hkey.
  assert (key ∈ IOC_PATTERNS.*1) as Hk.
  { apply list_elem_of_fmap. by exists (key, rx). }
  pose proof (IOC_PATTERNS_groups key rx Hin Hkey) as Hg.
  unfold extract_key. rewrite decide_False by done.
  rewrite (found_texts_matches rx text Hg).
  destruct (decide (key ∈ ["cves"; "tids"; "hashes"; "emails"; "urls"; "domains"; "paths"]))
    as [Hseven|Hseven].
  - assert (∀ m, normal_form key m = strip m) as Hn.
    { intros m. unfold normal_form. rewrite decide_False; [done | set_solver]. }
    eexists. split; [done|].
    intros v. rewrite sorted_perm, set_list_elem, map_map, list_elem_of_fmap.
    split; intros (f & ? & ?); exists f; by rewrite ?Hn in *.
  - destruct (decide (key ∈ ["ipv4"; "ipv6"])) as [Haddr|Haddr].
    + assert (∀ m, normal_form key m = lower (strip m)) as Hn.
      { intros m. unfold normal_form. by rewrite decide_True. }
      eexists. split; [done|].
      intros v. rewrite sorted_perm, set_list_elem, map_map, list_elem_of_fmap.
      split; intros (f & ? & ?); exists f; by rewrite ?Hn in *.
    + by destruct (keys_cases key Hk) as [?|[?|?]].
Qed.

Lemma mapM_Forall2 {A B} (f : A → result B) (l : list A) ys :
  mapM f l = Ok ys → Forall2 (λ x y, f x = Ok y) l ys.
Proof.
  revert ys. induction l as [|x l IH]; intros ys; simpl.
  - intros [= <-]. constructor.
  - destruct (f x) as [y|e] eqn:Hx; [|done]. simpl.
    destruct (mapM f l) as [ys'|e]; [|done]. simpl.
    intros [= <-]. constructor; [done | by apply IH].
Qed.

Lemma lower_char_idemp c : lower_char (lower_char c) = lower_char c.
Proof. by destruct c as [[] [] [] [] [] [] [] []]. Qed.

Lemma lower_idemp s : lower (lower s) = lower s.
Proof.
  unfold lower. rewrite map_map. apply map_ext. intros c. apply lower_char_idemp.
Qed.

Lemma extract_iocs_lookup raw_text md key vals :
  extract_iocs raw_text = Ok md → md !! key = Some vals →
  ∃ rx vals', (key, rx) ∈ IOC_PATTERNS
              ∧ extract_key key rx (deobfuscate raw_text) = Ok vals'
              ∧ vals = if decide (key ∈ ["ipv4"; "ipv6"]) then set_list vals' else vals'.
Proof.
  intros Hmd Hvals.
  destruct (extract_iocs_run raw_text) as (md' & Hmd' & Hdom & Hrun).
  rewrite Hmd in Hmd'. injection Hmd' as <-.
  assert (key ∈ IOC_PATTERNS.*1) as [[key' rx] [-> Hkr]]%list_elem_of_fmap.
  { apply (elem_of_list_to_set (C := gset string)). rewrite <- Hdom.
    by apply elem_of_dom. }
  destruct (Hrun key' rx Hkr) as (vals' & Hvals' & Hlook). simpl in *.
  exists rx, vals'. split; [done|]. split; [done|]. congruence.
Qed.

(** X6: no list of the result holds a value twice. *)
Theorem indicators_distinct raw_text :
  ∃ md, extract_iocs raw_text = Ok md
        ∧ ∀ key vals, md !! key = Some vals → NoDup vals.
Proof.
  destruct (extract_iocs_run raw_text) as (md & Hmd & _ & _).
  exists md. split; [done|]. intros key vals Hvals.
  destruct (extract_iocs_lookup raw_text md key vals Hmd Hvals)
    as (rx & vals' & Hkr & Hvals' & ->).
  case_decide; [apply set_list_NoDup|].
  apply (extract_key_NoDup key rx (deobfuscate raw_text)); [|done].
  apply list_elem_of_fmap. by exists (key, rx).
Qed.

(** X7: under every key but ports the values are exactly the matches of
    the key's pattern in the deobfuscated text, each in its normal form;
    the ports are exactly the numbers matched after "port" that lie
    between 1 and 65535, written in decimal. *)
Theorem indicators_are_the_matches raw_text :
  ∃ md, extract_iocs raw_text = Ok md
        ∧ (∀ key rx, (key, rx) ∈ IOC_PATTERNS → key ≠ "ports" →
             ∃ vals, md !! key = Some vals
                     ∧ ∀ v, v ∈ vals
                            ↔ ∃ f, f ∈ finditer rx (deobfuscate raw_text)
                                   ∧ v = normal_form key f.1.2)
        ∧ ∃ ports, md !! "ports" = Some ports
                   ∧ ∀ v, v ∈ ports
                          ↔ ∃ f digits n,
                              f ∈ finditer (Pattern true ports_expr) (deobfuscate raw_text)
                              ∧ group 1 f.2 = Some digits
                              ∧ py_int_of_str digits = Ok n
                              ∧ 0 < n ≤ 65535 ∧ v = py_str_of_int n.
Proof.
  destruct (extract_iocs_run raw_text) as (md & Hmd & _ & Hrun).
  exists md. split; [done|]. split.
  - intros key rx Hkr Hkey.
    destruct (Hrun key rx Hkr) as (vals & Hvals & Hlook).
    destruct (extract_key_matches key rx (deobfuscate raw_text) Hkr Hkey)
      as (vals' & Hvals' & Hiff).
    rewrite Hvals in Hvals'. injection Hvals' as <-.
    eexists. split; [exact Hlook|]. intros v. rewrite <- Hiff.
    case_decide; [apply set_list_elem | done].
  - destruct (port_numbers_Ok (deobfuscate raw_text)) as [ns Hns].
    destruct (Hrun "ports" (Pattern true ports_expr)) as (vals & Hvals & Hlook).
    { unfold IOC_PATTERNS. do 9 right. left. }
    rewrite (extract_key_ports _ _ _ Hns) in Hvals. injection Hvals as <-.
    rewrite decide_False in Hlook by set_solver.
    eexists. split; [exact Hlook|]. intros v.
    rewrite sorted_perm, set_list_elem, list_elem_of_fmap.
    apply mapM_Forall2 in Hns. split.
    + intros (n & -> & [Hn Hin]%list_elem_of_filter).
      apply list_elem_of_lookup in Hin as [i Hi].
      destruct (Forall2_lookup_r _ _ _ _ _ Hns Hi) as (f & Hf & Hfn).
      destruct (group 1 f.2) as [digits|] eqn:Hd; [|done].
      exists f, digits, n. split; [by eapply list_elem_of_lookup_2|].
      by repeat split; try apply Hn.
    + intros (f & digits & n & Hf & Hd & Hn & Hr & ->).
      exists n. split; [done|]. apply list_elem_of_filter. split; [done|].
      apply list_elem_of_lookup in Hf as [i Hi].
      destruct (Forall2_lookup_l _ _ _ _ _ Hns Hi) as (n' & Hn' & Hfn).
      rewrite Hd, Hn in Hfn. injection Hfn as <-. by eapply list_elem_of_lookup_2.
Qed.

(** X8: the values kept for the two address types hold no upper-case
    letter: [lower] leaves them as they are. *)
Theorem addresses_in_lower_case raw_text :
  ∃ md, extract_iocs raw_text = Ok md
        ∧ ∀ key vals, key ∈ ["ipv4"; "ipv6"] → md !! key = Some vals →
                      Forall (λ v, lower v = v) vals.
Proof.
  destruct (extract_iocs_run raw_text) as (md & Hmd & _ & _).
  exists md. split; [done|]. intros key vals Hkey Hvals.
  destruct (extract_iocs_lookup raw_text md key vals Hmd Hvals)
    as (rx & vals' & Hkr & Hvals' & ->).
  rewrite decide_True by done.
  assert (key ≠ "ports") as Hp by set_solver.
  destruct (extract_key_matches key rx (deobfuscate raw_text) Hkr Hp)
    as (vals'' & Hvals'' & Hiff).
  rewrite Hvals' in Hvals''. injection Hvals'' as <-.
  apply Forall_forall. intros v Hv. apply set_list_elem, Hiff in Hv as (f & _ & ->).
  unfold normal_form. rewrite decide_True by done. apply lower_idemp.
Qed.

End indicators.

Section orders.

Variables o1 o2 : SetOrder.

(** The value stored by the loop does not depend on the order of the
    sets: it is sorted. *)
Lemma extract_key_any_order key rx text :
  @extract_key o1 key rx text = @extract_key o2 key rx text.
Proof.
  assert (∀ l, sorted (@set_list o1 l) = sorted (@set_list o2 l)) as Hs.
  { intros l. apply sorted_unique. by rewrite !set_list_perm. }
  unfold extract_key.
  destruct (decide (key = "ports")).
  - destruct (port_numbers _); [|done]. simpl. by rewrite Hs.
  - repeat case_decide; simpl; by rewrite ?Hs.
Qed.

End orders.

(** X9: the result depends on the order in which the interpreter's sets
    yield their elements only through the order of the two address
    lists: under every other key two runs give the same list, and under
    ipv4 and ipv6 they give the same values. *)
Theorem result_up_to_address_order (o1 o2 : SetOrder) raw_text :
  ∃ md1 md2,
    @extract_iocs o1 raw_text = Ok md1 ∧ @extract_iocs o2 raw_text = Ok md2
    ∧ ∀ key, (key ∉ ["ipv4"; "ipv6"] → md1 !! key = md2 !! key)
             ∧ ∀ vals1 vals2, md1 !! key = Some vals1 → md2 !! key = Some vals2 →
                              vals1 ≡ₚ vals2.
Proof.
  destruct (@extract_iocs_run o1 raw_text) as (md1 & Hmd1 & Hdom1 & Hrun1).
  destruct (@extract_iocs_run o2 raw_text) as (md2 & Hmd2 & Hdom2 & Hrun2).
  exists md1, md2. split; [done|]. split; [done|]. intros key.
  destruct (decide (key ∈ IOC_PATTERNS.*1)) as [Hk|Hk].
  - apply list_elem_of_fmap in Hk as [[key' rx] [-> Hkr]]. simpl.
    destruct (Hrun1 key' rx Hkr) as (v1 & Hv1 & Hl1).
    destruct (Hrun2 key' rx Hkr) as (v2 & Hv2 & Hl2).
    rewrite (extract_key_any_order o1 o2) in Hv1. rewrite Hv1 in Hv2.
    injection Hv2 as <-. rewrite Hl1, Hl2. split.
    + intros Hno. by rewrite !decide_False.
    + intros vals1 vals2 [= <-] [= <-]. case_decide; [|done].
      by rewrite !set_list_perm.
  - assert (md1 !! key = None) as ->.
    { apply not_elem_of_dom. rewrite Hdom1. by rewrite elem_of_list_to_set. }
    assert (md2 !! key = None) as ->.
    { apply not_elem_of_dom. rewrite Hdom2. by rewrite elem_of_list_to_set. }
    done.
Qed.

End IndicatorFacts.

Module DeobfuscateLength.

Import Str Re Ingestion ReFacts DeobfuscateFacts.

Local Open Scope string_scope.
Local Open Scope list_scope.
Local Open Scope nat_scope.

Section lengths.

Lemma rewrite_scheme_length keep skip s :
  skip ≤ length s → length (rewrite_scheme keep skip s) = length s - skip.
Proof.
  revert skip. induction s as [|c s IH]; intros skip Hskip; [done|].
  destruct skip as [|k]; cbn [rewrite_scheme].
  - destruct (starts_with_ci (lit "hxxps://") (c :: s)) eqn:H8.
    { apply starts_with_ci_length in H8. simpl in H8.
      rewrite !length_app, IH by lia. simpl. lia. }
    destruct (starts_with_ci (lit "hxxp://") (c :: s)) eqn:H7.
    { apply starts_with_ci_length in H7. simpl in H7.
      rewrite !length_app, IH by lia. simpl. lia. }
    simpl. rewrite IH by lia. lia.
  - simpl in Hskip. rewrite IH by lia. simpl. lia.
Qed.

Lemma is_prefix_length p s : is_prefix p s = true → length p ≤ length s.
Proof.
  revert s. induction p as [|a p IH]; intros [|c s]; simpl; try done; [lia|].
  intros [_ Hp]%andb_true_iff. apply IH in Hp. lia.
Qed.

Lemma replace_from_length old new skip s :
  length new ≤ length old → skip ≤ length s →
  length (replace_from old new skip s) ≤ length s - skip.
Proof.
  intros Hnew. revert skip. induction s as [|c s IH]; intros skip Hskip; [done|].
  destruct skip as [|k]; cbn [replace_from].
  - destruct (is_prefix old (c :: s)) eqn:Hp.
    + apply is_prefix_length in Hp. simpl in Hp.
      rewrite length_app. specialize (IH (length old - 1) ltac:(lia)). simpl. lia.
    + simpl. specialize (IH 0 ltac:(lia)). lia.
  - simpl in Hskip. specialize (IH k ltac:(lia)). simpl. lia.
Qed.

Lemma replace_length old new s :
  length new ≤ length old → length (replace old new s) ≤ length s.
Proof.
  intros Hnew. pose proof (replace_from_length old new 0 s Hnew ltac:(lia)).
  unfold replace. lia.
Qed.

End lengths.

(** X10: deobfuscation never makes a text longer. *)
Theorem deobfuscate_never_lengthens text :
  length (deobfuscate text) ≤ length text.
Proof.
  pose proof (rewrite_scheme_length true 0 text ltac:(lia)) as Hs.
  unfold deobfuscate. cbv zeta.
  change [TText (lit "http"); TGroup 1; TText (lit "://")] with scheme_template.
  rewrite sub_scheme.
  pose proof (replace_length (lit "[.]") (lit ".") (rewrite_scheme true 0 text)
                ltac:(simpl; lia)).
  pose proof (replace_length (lit "(.)") (lit ".")
                (replace (lit "[.]") (lit ".") (rewrite_scheme true 0 text))
                ltac:(simpl; lia)).
  pose proof (replace_length (lit "{.}") (lit ".")
                (replace (lit "(.)") (lit ".")
                   (replace (lit "[.]") (lit ".") (rewrite_scheme true 0 text)))
                ltac:(simpl; lia)).
  lia.
Qed.

End DeobfuscateLength.

(** ** Pruning by prefix, and the processed files *)

Module LoopFacts.

Import Str IngestionLoop.

Local Open Scope string_scope.
Local Open Scope list_scope.
Local Open Scope Z_scope.

Section prefixes.



Lemma filter_filter {A} (f g : A → bool) l :
  List.filter g (List.filter f l) = List.filter (λ x, f x && g x) l.
Proof.
  induction l as [|x l IH]; [done|]. simpl.
  destruct (f x); simpl; [destruct (g x)|]; by rewrite IH.
Qed.


End prefixes.


(** X12: pruning twice is pruning once with the two prefix lists put
    together; pruning again with the same list changes nothing. *)
Theorem remove_prefix_matches_twice values prefix_list prefix_list' :
  remove_prefix_matches (remove_prefix_matches values prefix_list) prefix_list'
  = remove_prefix_matches values (prefix_list ++ prefix_list')
  ∧ remove_prefix_matches (remove_prefix_matches values prefix_list) prefix_list
    = remove_prefix_matches values prefix_list.
Proof.
  unfold remove_prefix_matches. rewrite !filter_filter. split.
  - apply filter_ext. intros v. by rewrite existsb_app, negb_orb.
  - apply filter_ext. intros v. by destruct (negb _).
Qed.

Section rfind.

Lemma rfind_range c p : -1 ≤ rfind c p < Z.of_nat (length p).
Proof.
  induction p as [|x p IH]; simpl; [lia|].
  destruct (Z.leb_spec 0 (rfind c p)); [lia|]. destruct (Ascii.eqb x c); lia.
Qed.

Lemma rfind_notin c p : rfind c p < 0 ↔ c ∉ p.
Proof.
  induction p as [|x p IH]; simpl.
  - split; [intros _; apply not_elem_of_nil | lia].
  - rewrite not_elem_of_cons, <- IH. pose proof (rfind_range c p).
    destruct (Z.leb_spec 0 (rfind c p)); [lia|].
    destruct (Ascii.eqb_spec x c) as [->|Hne]; [split; [lia | naive_solver]|].
    split; [|lia]. intros _. split; [congruence | lia].
Qed.

Lemma rfind_app_notin c a b : c ∉ b → rfind c (a ++ b) = rfind c a.
Proof.
  intros Hb. induction a as [|x a IH]; simpl.
  - apply rfind_notin in Hb. pose proof (rfind_range c b). lia.
  - by rewrite IH.
Qed.

Lemma rfind_app_in c a b : c ∉ b → rfind c (a ++ c :: b) = Z.of_nat (length a).
Proof.
  intros Hb. induction a as [|x a IH].
  - simpl. apply rfind_notin in Hb.
    destruct (Z.leb_spec 0 (rfind c b)); [lia|]. by rewrite Ascii.eqb_refl.
  - cbn [app rfind]. rewrite IH.
    destruct (Z.leb_spec 0 (Z.of_nat (length a))); [|lia]. simpl length. lia.
Qed.

Lemma rfind_split c p :
  0 ≤ rfind c p →
  ∃ a b, p = a ++ c :: b ∧ (c ∉ b) ∧ rfind c p = Z.of_nat (length a).
Proof.
  induction p as [|x p IH]; simpl; [lia|].
  destruct (Z.leb_spec 0 (rfind c p)) as [Hr|Hr].
  - intros _. destruct (IH Hr) as (a & b & -> & Hb & Ha).
    exists (x :: a), b. split; [done|]. split; [done|]. simpl length. lia.
  - destruct (Ascii.eqb_spec x c) as [->|Hne]; [|lia]. intros _.
    exists [], p. split; [done|]. split; [by apply rfind_notin | done].
Qed.

Lemma rfind_drop c p n : rfind c p < Z.of_nat n → c ∉ drop n p.
Proof.
  revert n. induction p as [|x p IH]; intros n.
  { intros _. rewrite drop_nil. apply not_elem_of_nil. }
  destruct n as [|n].
  - intros Hr. by apply rfind_notin.
  - cbn [rfind drop]. intros Hr. apply IH. pose proof (rfind_range c p).
    destruct (Z.leb_spec 0 (rfind c p)); lia.
Qed.

End rfind.

Section splitext.

Variables (sep : ascii) (altsep : option ascii) (extsep : ascii).

Definition is_sep (c : ascii) : Prop := c = sep ∨ altsep = Some c.

Definition sep_index (p : str) : Z :=
  match altsep with
  | Some alt => Z.max (rfind sep p) (rfind alt p)
  | None => rfind sep p
  end.

Definition cuts (p : str) : bool :=
  (sep_index p <? rfind extsep p)
  && existsb (λ c, negb (Ascii.eqb c extsep))
       (take (Z.to_nat (rfind extsep p - (sep_index p + 1)))
             (drop (Z.to_nat (sep_index p + 1)) p)).

Lemma _splitext_eq p :
  _splitext p sep altsep extsep
  = if cuts p
    then (take (Z.to_nat (rfind extsep p)) p, drop (Z.to_nat (rfind extsep p)) p)
    else (p, []).
Proof. done. Qed.

Lemma sep_index_range p : -1 ≤ sep_index p < Z.of_nat (length p).
Proof.
  unfold sep_index. pose proof (rfind_range sep p).
  destruct altsep as [alt|]; [|done]. pose proof (rfind_range alt p). lia.
Qed.

Lemma sep_index_app_notin a b :
  (∀ c, is_sep c → c ∉ b) → sep_index (a ++ b) = sep_index a.
Proof.
  intros Hb. unfold sep_index.
  rewrite (rfind_app_notin sep) by (apply Hb; by left).
  destruct altsep as [alt|] eqn:E; [|done].
  rewrite (rfind_app_notin alt); [done|]. apply Hb. right. by rewrite E.
Qed.

Lemma sep_index_drop p n c :
  sep_index p < Z.of_nat n → is_sep c → c ∉ drop n p.
Proof.
  unfold sep_index, is_sep. intros Hn [->|Hc].
  - apply rfind_drop. destruct altsep; lia.
  - rewrite Hc in Hn. apply rfind_drop. lia.
Qed.

Lemma _splitext_app p : (_splitext p sep altsep extsep).1 ++ (_splitext p sep altsep extsep).2 = p.
Proof.
  rewrite _splitext_eq. destruct (cuts p); simpl; [apply take_drop | apply app_nil_r].
Qed.

(** Text put in before the extension stays in the name part. *)
Lemma _splitext_insert p t :
  extsep ∉ t → (∀ c, is_sep c → c ∉ t) →
  _splitext ((_splitext p sep altsep extsep).1 ++ t
             ++ (_splitext p sep altsep extsep).2) sep altsep extsep
  = ((_splitext p sep altsep extsep).1 ++ t, (_splitext p sep altsep extsep).2).
Proof.
  intros Hdot Hsep. rewrite (_splitext_eq p).
  pose proof (sep_index_range p) as Hsr.
  pose proof (rfind_range extsep p) as Hdr.
  destruct (cuts p) eqn:Hcut; cbn [fst snd].
  - unfold cuts in Hcut. apply andb_true_iff in Hcut as [Hlt%Z.ltb_lt Hex].
    destruct (rfind_split extsep p ltac:(lia)) as (a & b & Hp & Hb & Hd).
    rewrite Hd in *. rewrite Nat2Z.id.
    assert (take (length a) p = a) as -> by (rewrite Hp; by rewrite take_app_length).
    assert (drop (length a) p = extsep :: b) as Hdrop
      by (rewrite Hp; by rewrite drop_app_length).
    rewrite Hdrop.
    assert (∀ c, is_sep c → c ∉ extsep :: b) as Hsepb.
    { intros c Hc. rewrite <- Hdrop. by apply sep_index_drop. }
    assert (sep_index p = sep_index a) as Hsa.
    { rewrite Hp. by apply sep_index_app_notin. }
    assert (sep_index (a ++ t ++ extsep :: b) = sep_index a) as Hsn.
    { apply sep_index_app_notin. intros c Hc. rewrite not_elem_of_app. split; auto. }
    assert (rfind extsep (a ++ t ++ extsep :: b) = Z.of_nat (length (a ++ t))) as Hdn.
    { rewrite app_assoc. by apply rfind_app_in. }
    rewrite _splitext_eq. unfold cuts. rewrite Hsn, Hdn, <- Hsa.
    rewrite length_app, Nat2Z.id.
    assert (Z.to_nat (sep_index p + 1) ≤ length a)%nat as Hk by lia.
    set (k := Z.to_nat (sep_index p + 1)) in *.
    assert (take (Z.to_nat (Z.of_nat (length a) - (sep_index p + 1))) (drop k p)
            = drop k a) as Hold.
    { rewrite (f_equal (drop k) Hp), drop_app_le by done.
      apply take_app_length'. rewrite length_drop. lia. }
    rewrite Hold in Hex.
    assert (take (Z.to_nat (Z.of_nat (length a + length t) - (sep_index p + 1)))
                 (drop k (a ++ t ++ extsep :: b))
            = drop k a ++ t) as ->.
    { rewrite drop_app_le by done. rewrite (app_assoc (drop k a)).
      apply take_app_length'. rewrite length_app, length_drop. lia. }
    rewrite existsb_app, Hex. simpl.
    destruct (Z.ltb_spec (sep_index p) (Z.of_nat (length a + length t))); [|lia].
    simpl. rewrite app_assoc, <- length_app.
    by rewrite take_app_length, drop_app_length.
  - rewrite app_nil_r.
    assert (sep_index (p ++ t) = sep_index p) as Hsn
      by by apply sep_index_app_notin.
    assert (rfind extsep (p ++ t) = rfind extsep p) as Hdn
      by by apply rfind_app_notin.
    rewrite _splitext_eq.
    assert (cuts (p ++ t) = false) as ->; [|done].
    unfold cuts in *. rewrite Hsn, Hdn.
    destruct (Z.ltb_spec (sep_index p) (rfind extsep p)) as [Hlt|Hge]; [|done].
    simpl in *. rewrite <- Hcut. f_equal.
    set (k := Z.to_nat (sep_index p + 1)) in *.
    rewrite drop_app_le by lia.
    rewrite take_app_le; [done|]. rewrite length_drop. lia.
Qed.

End splitext.

Section entries.

Variable os : platform.

Lemma splitext_app p : (splitext os p).1 ++ (splitext os p).2 = p.
Proof. destruct os; apply _splitext_app. Qed.

Lemma splitext_processed p :
  splitext os ((splitext os p).1 ++ lit "_processed" ++ (splitext os p).2)
  = ((splitext os p).1 ++ lit "_processed", (splitext os p).2).
Proof.
  assert (∀ c : ascii, c ∈ lit "./\" → c ∉ lit "_processed") as Hno.
  { intros c Hc%list_elem_of_In Hin%list_elem_of_In. simpl in Hc, Hin.
    destruct Hc as [<-|[<-|[<-|[]]]]; naive_solver. }
  destruct os; cbn [splitext]; apply _splitext_insert.
  - apply Hno. left.
  - intros c [->|[=]]. apply Hno. right. left.
  - apply Hno. left.
  - intros c [->|[= <-]]; apply Hno; [do 2 right; left | right; left].
Qed.

Lemma new_filename_eq p :
  new_filename os p = (splitext os p).1 ++ lit "_processed" ++ (splitext os p).2.
Proof. unfold new_filename. by destruct (splitext os p). Qed.

Lemma is_prefix_app p s : is_prefix p (p ++ s) = true.
Proof. induction p as [|a p IH]; [done|]. simpl. by rewrite N.eqb_refl. Qed.

Lemma endswith_app s suffix : endswith (s ++ suffix) suffix = true.
Proof. unfold endswith. rewrite rev_app_distr. apply is_prefix_app. Qed.

End entries.

(** X13: the name a processed file is renamed to has the same extension,
    a name part that ends with _processed, and is passed over by the
    loop: a file is ingested once. *)
Theorem processed_file_is_skipped os filename :
  splitext os (new_filename os filename)
  = ((splitext os filename).1 ++ lit "_processed", (splitext os filename).2)
  ∧ skipped os (new_filename os filename) = true.
Proof.
  rewrite new_filename_eq. pose proof (splitext_processed os filename) as Hs.
  split; [done|]. unfold skipped. rewrite Hs.
  rewrite endswith_app. apply orb_true_r.
Qed.

(** X14: two different files are never renamed to the same name. *)
Theorem new_filename_inj os filename filename' :
  new_filename os filename = new_filename os filename' ↔ filename = filename'.
Proof.
  split; [|by intros ->]. rewrite !new_filename_eq. intros Heq.
  pose proof (splitext_processed os filename) as Hs.
  pose proof (splitext_processed os filename') as Hs'.
  rewrite Heq, Hs' in Hs. injection Hs as Hn%app_inv_tail He.
  by rewrite <- (splitext_app os filename), <- (splitext_app os filename'), Hn, He.
Qed.

End LoopFacts.

(** ** More on the relevance filter: what it keeps *)

Module RetentionFacts.

Import Search SearchFacts.

Local Open Scope string_scope.
Local Open Scope list_scope.
Local Open Scope Z_scope.

Section bounds.

Lemma py_int_le p v : (p <= inject_Z v)%Q → py_int p ≤ v.
Proof.
  unfold Qle, py_int. simpl. rewrite Z.mul_1_r. intros Hle.
  rewrite <- (Z.quot_mul v (Z.pos (Qden p))) by lia.
  apply Z.quot_le_mono; lia.
Qed.

Lemma fraction_range x : (0 <= x - inject_Z (Qfloor x) <= 1)%Q.
Proof.
  pose proof (Qfloor_le x). pose proof (Qlt_floor x) as Hlt.
  rewrite inject_Z_plus in Hlt. change (inject_Z 1) with 1%Q in Hlt.
  split; lra.
Qed.

Lemma nth_le (l : list Z) v i :
  Forall (λ x, x ≤ v) l → (i < length l)%nat → nth i l 0 ≤ v.
Proof.
  intros Hall Hi. rewrite Forall_forall in Hall.
  apply Hall, list_elem_of_In, nth_In, Hi.
Qed.

Lemma interpolation_le a b g v :
  a ≤ v → b ≤ v → (0 <= g <= 1)%Q →
  (inject_Z a + inject_Z (b - a) * g <= inject_Z v)%Q.
Proof.
  intros Ha Hb [Hg0 Hg1].
  rewrite Zle_Qle in Ha, Hb.
  unfold Z.sub. rewrite inject_Z_plus, inject_Z_opp.
  set (x := inject_Z a) in *. set (y := inject_Z b) in *. set (z := inject_Z v) in *.
  destruct (Qlt_le_dec y x).
  - nra.
  - nra.
Qed.

Lemma exact_quantile_le a q p v :
  exact_quantile a q = Ok p → Forall (λ x, x ≤ v) a → (p <= inject_Z v)%Q.
Proof.
  unfold exact_quantile.
  destruct (Qle_bool 0 q && Qle_bool q 1) eqn:Hq; [|done]. simpl.
  apply andb_true_iff in Hq as [H0%Qle_bool_iff H1%Qle_bool_iff].
  destruct a as [|x a]; [done|]. intros [= <-] Hall.
  assert (Forall (λ x, x ≤ v) (merge_sort Z.le (x :: a))) as Hs
    by (by rewrite merge_sort_Permutation).
  assert (length (merge_sort Z.le (x :: a)) ≠ 0%nat) as Hlen.
  { rewrite (Permutation_length (merge_sort_Permutation _ _)). done. }
  set (s := merge_sort Z.le (x :: a)) in *.
  unfold linear_interpolation. cbv zeta.
  pose proof (previous_index_range (Z.of_nat (length s)) q ltac:(lia) (conj H0 H1)) as Hr.
  set (j := Qfloor _) in *.
  apply interpolation_le.
  - apply nth_le; [done | lia].
  - apply nth_le; [done | lia].
  - apply fraction_range.
Qed.

Lemma maximum_exists {A} (f : A → Z) (l : list A) :
  l ≠ [] → ∃ x, x ∈ l ∧ ∀ y, y ∈ l → f y ≤ f x.
Proof.
  induction l as [|x l IH]; [done|]. intros _.
  destruct l as [|x' l].
  - exists x. split; [left|]. by intros y ->%list_elem_of_singleton.
  - destruct (IH ltac:(done)) as (m & Hm & Hmax).
    destruct (Z.le_gt_cases (f x) (f m)).
    + exists m. split; [by right|]. intros y [->|Hy]%elem_of_cons; [done | by apply Hmax].
    + exists x. split; [left|]. intros y [->|Hy]%elem_of_cons; [done|].
      specialize (Hmax y Hy). lia.
Qed.

Lemma last_text_elem d t (l : list (string * string)) :
  last_text d l = Some t → (d, t) ∈ l.
Proof.
  unfold last_text. intros Hl%last_Some_elem_of.
  apply list_elem_of_fmap in Hl as ([d' t'] & -> & [Hd Hin]%list_elem_of_filter).
  simpl in *. by subst.
Qed.

End bounds.

Section retention.

Context `{Numpy}.

(** The 90th percentile is not above the largest of the data. *)
Definition quantile_within_data : Prop :=
  ∀ a p v, Forall exact_int a → np_quantile a (9 # 10) = Ok p →
           Forall (λ x, x ≤ v) a → (p <= inject_Z v)%Q.

Lemma documents_nonempty objects : objects ≠ [] → documents objects ≠ [].
Proof.
  destruct objects as [|o objects]; [done|]. intros _ Hnil.
  assert (doc_name o ∈ documents (o :: objects)) as Hin
    by (apply documents_elem; left).
  rewrite Hnil in Hin. by apply elem_of_nil in Hin.
Qed.

(** X15: the filter invents nothing: every document of the returned map
    comes with a text that one of the hits has for that document. *)
Theorem filter_returns_hits objects :
  objects ≠ [] → Z.of_nat (length objects) < 2 ^ 53 →
  ∃ m, _filterresults objects = Ok m
       ∧ ∀ d t, m !! d = Some t → Hit d t ∈ objects.
Proof.
  intros Hne Hlen. destruct (filterresults_run objects Hne Hlen) as [p [Hp Hrun]].
  eexists. split; [exact Hrun|]. intros d t Hdt.
  rewrite dict_zip_lookup in Hdt. apply last_text_elem in Hdt.
  apply list_elem_of_filter in Hdt as [_ Hdt].
  apply drop_dups_from_elem in Hdt as [Hdt _].
  apply list_elem_of_fmap in Hdt as ([d' t'] & [= -> ->] & Hin). done.
Qed.

(** X16: with a percentile that is not above the largest count, the
    filter of a non-empty hit list never returns an empty map: the
    documents with the most hits are kept, and so is every document with
    at least as many hits as one that is kept. *)
Theorem most_hit_documents_survive objects :
  objects ≠ [] → Z.of_nat (length objects) < 2 ^ 53 → quantile_within_data →
  ∃ m, _filterresults objects = Ok m
       ∧ m ≠ ∅
       ∧ (∀ d, d ∈ documents objects →
               (∀ d', d' ∈ documents objects →
                      hit_count d' objects ≤ hit_count d objects) →
               d ∈ dom m)
       ∧ (∀ d d', d ∈ dom m → d' ∈ documents objects →
                  hit_count d objects ≤ hit_count d' objects → d' ∈ dom m).
Proof.
  intros Hne Hlen Hq. destruct (filterresults_run objects Hne Hlen) as [p [Hp Hrun]].
  eexists. split; [exact Hrun|]. cbv zeta.
  assert (∀ d, d ∈ documents objects →
               (∀ d', d' ∈ documents objects →
                      hit_count d' objects ≤ hit_count d objects) →
               d ∈ dom (dict_zip
                 (filter (λ r, r.1 ∈ high_values (collect objects).2 (py_int p))
                         (distinct_rows objects)).*1
                 (filter (λ r, r.1 ∈ high_values (collect objects).2 (py_int p))
                         (distinct_rows objects)).*2)) as Hmax.
  { intros d Hd Hmost. apply kept_dom. split; [done|].
    apply py_int_le, (Hq (doc_counts objects)); [by apply doc_counts_exact | done|].
    apply Forall_fmap, Forall_forall. intros d' Hd'. simpl. by apply Hmost. }
  split; [|split; [done|]].
  - destruct (maximum_exists (λ d, hit_count d objects) (documents objects))
      as (d & Hd & Hmost); [by apply documents_nonempty|].
    specialize (Hmax d Hd Hmost). intros E. rewrite E in Hmax. set_solver.
  - intros d d' Hd Hd' Hle. apply kept_dom in Hd as [_ Hthr].
    apply kept_dom. split; [done | lia].
Qed.

Lemma hit_count_perm d objects objects' :
  objects ≡ₚ objects' → hit_count d objects = hit_count d objects'.
Proof. intros Hp. unfold hit_count. by rewrite Hp. Qed.

Lemma documents_perm objects objects' :
  objects ≡ₚ objects' → documents objects ≡ₚ documents objects'.
Proof.
  intros Hp. apply NoDup_Permutation; try apply NoDup_remove_dups.
  intros d. by rewrite !documents_elem, Hp.
Qed.

Lemma doc_counts_perm objects objects' :
  objects ≡ₚ objects' → doc_counts objects ≡ₚ doc_counts objects'.
Proof.
  intros Hp. unfold doc_counts. rewrite (documents_perm _ _ Hp).
  erewrite map_ext; [done|]. intros d. by apply hit_count_perm.
Qed.

(** X23: which documents are retained does not depend on the order of
    the hits (the text kept for a document can). *)
Theorem retained_documents_ignore_order objects objects' :
  objects ≠ [] → Z.of_nat (length objects) < 2 ^ 53 → objects ≡ₚ objects' →
  ∃ m m', _filterresults objects = Ok m ∧ _filterresults objects' = Ok m'
          ∧ dom m = dom m'.
Proof.
  intros Hne Hlen Hp.
  assert (objects' ≠ []) as Hne'.
  { intros ->. by apply Permutation_nil_r in Hp. }
  assert (Z.of_nat (length objects') < 2 ^ 53) as Hlen'
    by (by rewrite <- (Permutation_length Hp)).
  destruct (filterresults_run objects Hne Hlen) as [p [Hq Hrun]].
  destruct (filterresults_run objects' Hne' Hlen') as [p' [Hq' Hrun']].
  rewrite (np_quantile_perm _ _ _ (doc_counts_exact _ Hlen) (doc_counts_perm _ _ Hp)) in Hq.
  rewrite Hq in Hq'. injection Hq' as <-.
  eexists _, _. split; [exact Hrun|]. split; [exact Hrun'|].
  apply set_eq. intros d. rewrite !kept_dom, !documents_elem.
  by rewrite (hit_count_perm d _ _ Hp), Hp.
Qed.

End retention.

Lemma exact_quantile_within_data : @quantile_within_data exact_numpy.
Proof. intros a p v _. apply exact_quantile_le. Qed.

Lemma filter_returns_hits_witness :
  two_documents ≠ [] ∧ Z.of_nat (length two_documents) < 2 ^ 53
  ∧ ∃ m, @_filterresults exact_numpy two_documents = Ok m
         ∧ ∀ d t, m !! d = Some t → Hit d t ∈ two_documents.
Proof.
  assert (Z.of_nat (length two_documents) < 2 ^ 53) as Hlen by (simpl; lia).
  split; [done|]. split; [exact Hlen|].
  apply (@filter_returns_hits exact_numpy two_documents); [done | exact Hlen].
Defined.

Lemma most_hit_documents_survive_witness :
  two_documents ≠ [] ∧ Z.of_nat (length two_documents) < 2 ^ 53
  ∧ @quantile_within_data exact_numpy
  ∧ ∃ m, @_filterresults exact_numpy two_documents = Ok m
         ∧ m ≠ ∅
         ∧ (∀ d, d ∈ documents two_documents →
                 (∀ d', d' ∈ documents two_documents →
                        hit_count d' two_documents ≤ hit_count d two_documents) →
                 d ∈ dom m)
         ∧ (∀ d d', d ∈ dom m → d' ∈ documents two_documents →
                    hit_count d two_documents ≤ hit_count d' two_documents →
                    d' ∈ dom m).
Proof.
  assert (Z.of_nat (length two_documents) < 2 ^ 53) as Hlen by (simpl; lia).
  split; [done|]. split; [exact Hlen|]. split; [exact exact_quantile_within_data|].
  apply (@most_hit_documents_survive exact_numpy two_documents);
    [done | exact Hlen | exact exact_quantile_within_data].
Defined.

Lemma retained_documents_ignore_order_witness :
  two_documents ≠ [] ∧ Z.of_nat (length two_documents) < 2 ^ 53
  ∧ two_documents ≡ₚ rev two_documents
  ∧ ∃ m m', @_filterresults exact_numpy two_documents = Ok m
            ∧ @_filterresults exact_numpy (rev two_documents) = Ok m'
            ∧ dom m = dom m'.
Proof.
  assert (Z.of_nat (length two_documents) < 2 ^ 53) as Hlen by (simpl; lia).
  pose proof (Permutation_rev two_documents) as Hp.
  split; [done|]. split; [exact Hlen|]. split; [exact Hp|].
  apply (@retained_documents_ignore_order exact_numpy); [done | exact Hlen | exact Hp].
Defined.

End RetentionFacts.

(** ** The progress tracker *)

Module TrackerFacts.

Import Logger.

Local Open Scope string_scope.
Local Open Scope list_scope.
Local Open Scope Z_scope.

(** A call of one of the three methods, with the time it reads. *)
Inductive call : Type :=
| Start (now : Z) (stage_name description : string)
| Complete (now : Z) (stage_name details : string)
| Fail (now : Z) (stage_name error : string).

Definition name_of (c : call) : string :=
  match c with
  | Start _ n _ | Complete _ n _ | Fail _ n _ => n
  end.

Definition starts (n : string) (c : call) : Prop :=
  match c with Start _ n' _ => n' = n | _ => False end.

(** The names given to [start_stage], in the order of the calls. *)
Definition started (calls : list call) : list string :=
  flat_map (λ c, match c with Start _ n _ => [n] | _ => [] end) calls.

(** The distinct names of a list, in the order in which they first
    come. *)
Definition add_name (acc : list string) (n : string) : list string :=
  if decide (n ∈ acc) then acc else acc ++ [n].

Definition distinct (l : list string) : list string := foldl add_name [] l.

Section calls.

Context {float : Type} (total_seconds : Z → float).

Let tracker := @ProgressTracker float.

Definition step (self : tracker) (c : call) : tracker :=
  match c with
  | Start now n d => start_stage now self n d
  | Complete now n d => complete_stage total_seconds now self n d
  | Fail now n e => fail_stage total_seconds now self n e
  end.

(** The tracker after a sequence of calls on a new tracker. *)
Definition run (calls : list call) : tracker := foldl step __init__ calls.

Lemma lookup_setitem {V} k (v : V) d : lookup k (setitem k v d) = Some v.
Proof.
  induction d as [|[k' v'] d IH]; simpl.
  - by rewrite decide_True.
  - destruct (decide (k' = k)) as [->|Hne]; simpl.
    + by rewrite decide_True.
    + by rewrite decide_False.
Qed.

Lemma lookup_setitem_ne {V} k k' (v : V) d :
  k ≠ k' → lookup k' (setitem k v d) = lookup k' d.
Proof.
  intros Hne. induction d as [|[k'' v'] d IH]; simpl.
  - by rewrite decide_False.
  - destruct (decide (k'' = k)) as [->|Hne']; simpl.
    + by rewrite !decide_False.
    + by rewrite IH.
Qed.

Lemma lookup_is_Some {V} k (d : list (string * V)) : is_Some (lookup k d) ↔ k ∈ d.*1.
Proof.
  induction d as [|[k' v] d IH]; simpl.
  - split; [by intros [? [=]] | by intros ?%elem_of_nil].
  - rewrite elem_of_cons. destruct (decide (k' = k)) as [->|Hne].
    + split; [by left | by eexists].
    + rewrite IH. naive_solver.
Qed.

Lemma keys_setitem {V} k (v : V) d : (setitem k v d).*1 = add_name d.*1 k.
Proof.
  unfold add_name. induction d as [|[k' v'] d IH]; [done|].
  cbn [setitem]. destruct (decide (k' = k)) as [->|Hne].
  - rewrite !fmap_cons. cbn [fst]. rewrite decide_True; [done | left].
  - rewrite !fmap_cons, IH. cbn [fst]. destruct (decide (k ∈ d.*1)) as [Hin|Hin].
    + rewrite decide_True; [done | by right].
    + rewrite decide_False; [done|]. rewrite not_elem_of_cons. naive_solver.
Qed.

Lemma keys_setitem_old {V} k (v : V) d : is_Some (lookup k d) → (setitem k v d).*1 = d.*1.
Proof.
  intros Hk%lookup_is_Some. rewrite keys_setitem. unfold add_name. by rewrite decide_True.
Qed.

Lemma step_keys self c :
  (stages (step self c)).*1
  = match c with
    | Start _ n _ => add_name (stages self).*1 n
    | _ => (stages self).*1
    end.
Proof.
  destruct c as [now n d|now n d|now n e]; simpl.
  - apply keys_setitem.
  - unfold complete_stage. destruct (lookup n (stages self)) eqn:E; [|done].
    simpl. apply keys_setitem_old. by rewrite E.
  - unfold fail_stage. destruct (lookup n (stages self)) eqn:E; [|done].
    simpl. apply keys_setitem_old. by rewrite E.
Qed.

Lemma step_current self c :
  current_stage (step self c)
  = match c with Start _ n _ => Some n | _ => current_stage self end.
Proof.
  destruct c as [now n d|now n d|now n e]; simpl; [done| |].
  - unfold complete_stage. by destruct (lookup n (stages self)).
  - unfold fail_stage. by destruct (lookup n (stages self)).
Qed.

Lemma foldl_keys self calls :
  (stages (foldl step self calls)).*1 = foldl add_name (stages self).*1 (started calls)
  ∧ current_stage (foldl step self calls)
    = match last (started calls) with
      | Some n => Some n
      | None => current_stage self
      end.
Proof.
  revert self. induction calls as [|c calls IH]; intros self; [done|].
  cbn [foldl]. destruct (IH (step self c)) as [IH1 IH2].
  rewrite IH1, IH2, step_keys, step_current. unfold started. cbn [flat_map].
  fold (started calls).
  destruct c as [now n d|now n d|now n e]; simpl; try done.
  split; [done|]. destruct (started calls) as [|n' l] eqn:E; [done|].
  simpl. destruct (last (n' :: l)) eqn:El; [done|]. by apply last_None in El.
Qed.

Lemma step_other self c n :
  name_of c ≠ n → lookup n (stages (step self c)) = lookup n (stages self).
Proof.
  intros Hne. destruct c as [now n' d|now n' d|now n' e]; simpl in *.
  - by apply lookup_setitem_ne.
  - unfold complete_stage. destruct (lookup n' (stages self)); [|done].
    simpl. by apply lookup_setitem_ne.
  - unfold fail_stage. destruct (lookup n' (stages self)); [|done].
    simpl. by apply lookup_setitem_ne.
Qed.

Lemma foldl_other self calls n :
  Forall (λ c, name_of c ≠ n) calls →
  lookup n (stages (foldl step self calls)) = lookup n (stages self).
Proof.
  intros Hall. revert self. induction Hall as [|c calls Hc _ IH]; intros self; [done|].
  cbn [foldl]. by rewrite IH, step_other.
Qed.

(** Between its start and the next one a stage keeps its start time and
    its description. *)
Lemma foldl_since_start self calls n t0 d :
  Forall (λ c, ¬ starts n c) calls →
  (∃ info, lookup n (stages self) = Some info
           ∧ start_time info = t0 ∧ description info = d) →
  ∃ info, lookup n (stages (foldl step self calls)) = Some info
          ∧ start_time info = t0 ∧ description info = d.
Proof.
  intros Hall. revert self. induction Hall as [|c calls Hc _ IH]; intros self Hinfo; [done|].
  cbn [foldl]. apply IH. destruct Hinfo as (info & Hl & Ht & Hd).
  destruct (decide (name_of c = n)) as [Hn|Hn]; [|rewrite step_other by done; eauto].
  destruct c as [now n' d'|now n' d'|now n' e]; simpl in *; subst n'.
  - done.
  - unfold complete_stage. rewrite Hl. simpl. rewrite lookup_setitem. eauto.
  - unfold fail_stage. rewrite Hl. simpl. rewrite lookup_setitem. eauto.
Qed.

Definition settled (info : @stage float) : Prop :=
  status info = IN_PROGRESS ↔ duration info = None.

Lemma setitem_Forall {V} (P : V → Prop) k v (d : list (string * V)) :
  P v → Forall (λ kv, P kv.2) d → Forall (λ kv, P kv.2) (setitem k v d).
Proof.
  intros Hv Hd. induction Hd as [|[k' v'] d Hk Hd IH]; simpl.
  - by repeat constructor.
  - destruct (decide (k' = k)); constructor; done.
Qed.

Lemma step_settled self c :
  Forall (λ kv, settled kv.2) (stages self) →
  Forall (λ kv, settled kv.2) (stages (step self c)).
Proof.
  intros Hall. destruct c as [now n d|now n d|now n e]; simpl.
  - by apply setitem_Forall.
  - unfold complete_stage. destruct (lookup n (stages self)); [|done].
    by apply setitem_Forall.
  - unfold fail_stage. destruct (lookup n (stages self)); [|done].
    by apply setitem_Forall.
Qed.

Lemma foldl_settled self calls :
  Forall (λ kv, settled kv.2) (stages self) →
  Forall (λ kv, settled kv.2) (stages (foldl step self calls)).
Proof.
  revert self. induction calls as [|c calls IH]; intros self Hall; [done|].
  cbn [foldl]. by apply IH, step_settled.
Qed.

(** X17: after any sequence of calls the tracker holds one stage for
    each name given to [start_stage], in the order in which the names
    were first started; ending a stage that was never started records
    nothing; and [current_stage] is the name started last: ending a stage
    does not reset it. *)
Theorem stages_follow_the_starts calls :
  (stages (run calls)).*1 = distinct (started calls)
  ∧ current_stage (run calls) = last (started calls).
Proof.
  unfold run. destruct (foldl_keys __init__ calls) as [H1 H2].
  split; [done|]. rewrite H2. by destruct (last (started calls)).
Qed.

(** X18: after any sequence of calls a stage is IN_PROGRESS exactly
    when it has no duration. *)
Theorem in_progress_has_no_duration calls :
  Forall (λ kv, status kv.2 = IN_PROGRESS ↔ duration kv.2 = None)
         (stages (run calls)).
Proof. apply foldl_settled. constructor. Qed.

(** X19: a stage shows its last end: when it was started at [t0] and
    not started again, and [complete_stage] (or [fail_stage]) at [t1]
    is the last call that names it, it is COMPLETED (or FAILED) with the
    duration from [t0] to [t1], its start time and description kept. *)
Theorem last_end_of_a_stage (before mid after : list call) t0 n d t1 x :
  Forall (λ c, ¬ starts n c) mid →
  Forall (λ c, name_of c ≠ n) after →
  lookup n (stages (run (before ++ [Start t0 n d] ++ mid
                           ++ [Complete t1 n x] ++ after)))
  = Some (Stage t0 d COMPLETED (Some (total_seconds (t1 - t0))))
  ∧ lookup n (stages (run (before ++ [Start t0 n d] ++ mid
                             ++ [Fail t1 n x] ++ after)))
    = Some (Stage t0 d FAILED (Some (total_seconds (t1 - t0)))).
Proof.
  intros Hmid Hafter. unfold run.
  rewrite !foldl_app. cbn [foldl]. rewrite !foldl_other by done.
  destruct (foldl_since_start (step (foldl step __init__ before) (Start t0 n d))
              mid n t0 d Hmid) as (info & Hl & Ht & Hd).
  { cbn [step start_stage stages]. rewrite lookup_setitem. eauto. }
  set (self := foldl step _ mid) in *.
  cbn [step]. unfold complete_stage, fail_stage. rewrite Hl. cbn [stages].
  by rewrite !lookup_setitem, Ht, Hd.
Qed.

End calls.

(** Seconds without rounding, to run the tracker on. *)
Definition exact_seconds (microseconds : Z) : Q := microseconds # 1000000.

Lemma last_end_of_a_stage_witness :
  let mid := [Start 2 "embed_texts" "Embedding 1 texts";
              Complete 5 "embed_texts" "Generated 1 embeddings";
              Fail 6 "search" "timeout"] in
  let after := [Start 9 "generate_answer" "Question: q"] in
  Forall (λ c, ¬ starts "search" c) mid
  ∧ Forall (λ c, name_of c ≠ "search") after
  ∧ lookup "search"
      (stages (run exact_seconds
                 ([] ++ [Start 1 "search" "Query: q"] ++ mid
                  ++ [Complete 7 "search" "Found 2 documents"] ++ after)))
    = Some (Stage 1 "Query: q" COMPLETED (Some (exact_seconds (7 - 1))))
  ∧ lookup "search"
      (stages (run exact_seconds
                 ([] ++ [Start 1 "search" "Query: q"] ++ mid
                  ++ [Fail 7 "search" "Found 2 documents"] ++ after)))
    = Some (Stage 1 "Query: q" FAILED (Some (exact_seconds (7 - 1)))).
Proof.
  intros mid after.
  assert (Forall (λ c, ¬ starts "search" c) mid) as Hmid
    by (repeat constructor; simpl; by intros ?).
  assert (Forall (λ c, name_of c ≠ "search") after) as Hafter
    by (repeat constructor; simpl; by intros ?).
  split; [exact Hmid|]. split; [exact Hafter|].
  exact (last_end_of_a_stage exact_seconds [] mid after 1 "search" "Query: q" 7
           "Found 2 documents" Hmid Hafter).
Defined.

End TrackerFacts.

(** ** [search] and the tracker *)

Module PipelineFacts.

Import Str Search Logger TrackerFacts Pipeline.

Local Open Scope string_scope.
Local Open Scope list_scope.
Local Open Scope Z_scope.

Section tracker.

Context {float : Type} (total_seconds : Z → float).

Lemma lookup_start now (self : @ProgressTracker float) n d n' :
  lookup n' (stages (start_stage now self n d))
  = if decide (n = n') then Some (Stage now d IN_PROGRESS None)
    else lookup n' (stages self).
Proof.
  cbn [start_stage stages]. case_decide as Hn.
  - subst. apply lookup_setitem.
  - by apply lookup_setitem_ne.
Qed.

Lemma lookup_complete now (self : @ProgressTracker float) n d n' :
  lookup n' (stages (complete_stage total_seconds now self n d))
  = if decide (n = n') then
      match lookup n (stages self) with
      | Some info =>
          Some (Stage (start_time info) (description info) COMPLETED
                  (Some (total_seconds (now - start_time info))))
      | None => None
      end
    else lookup n' (stages self).
Proof.
  unfold complete_stage. case_decide as Hn.
  - subst. destruct (lookup n' (stages self)) eqn:E; [|done].
    cbn [stages]. apply lookup_setitem.
  - destruct (lookup n (stages self)); [|done].
    cbn [stages]. by apply lookup_setitem_ne.
Qed.

Lemma lookup_fail now (self : @ProgressTracker float) n d n' :
  lookup n' (stages (fail_stage total_seconds now self n d))
  = if decide (n = n') then
      match lookup n (stages self) with
      | Some info =>
          Some (Stage (start_time info) (description info) FAILED
                  (Some (total_seconds (now - start_time info))))
      | None => None
      end
    else lookup n' (stages self).
Proof.
  unfold fail_stage. case_decide as Hn.
  - subst. destruct (lookup n' (stages self)) eqn:E; [|done].
    cbn [stages]. apply lookup_setitem.
  - destruct (lookup n (stages self)); [|done].
    cbn [stages]. by apply lookup_setitem_ne.
Qed.

End tracker.

Section pipeline.

Context `{Numpy}.
Context {float : Type} (total_seconds : Z → float).
Context {vector : Type}.
Variable svc : @services vector.
Variable TOP_K_DEFAULT : Z.
Variable clock : nat → Z.

(** What [search] returns or raises, read off the outcomes of the
    services alone. *)
Definition search_outcome (query : string) : outcome (gmap string string) :=
  match connect_to_custom svc with
  | Raised e => Raised e
  | Returned _ =>
  match collections_get svc with
  | Raised e => Raised e
  | Returned _ =>
  match ollama_embed svc [query] with
  | Raised e => Raised e
  | Returned [] => Raised (Own (IndexError "list index out of range"))
  | Returned (query_vector :: _) =>
  match near_vector svc query_vector TOP_K_DEFAULT with
  | Raised e => Raised e
  | Returned objects =>
  match client_close svc with
  | Raised e => Raised e
  | Returned _ =>
  match _filterresults objects with
  | Raise e => Raised (Own e)
  | Ok filtered => Returned filtered
  end end end end end end.

Definition stage_of (w : @world float) (stage_name : string) : option (@stage float) :=
  lookup stage_name (stages (progress_tracker w)).

Ltac run_search :=
  cbv beta iota zeta delta
    [search embed_text embed_texts get_client try_except call own raise
     tracker_start_stage tracker_complete_stage tracker_fail_stage
     search_outcome stage_of mbind mret M_bind M_ret fst snd
     progress_tracker readings].

Ltac lookups :=
  repeat (rewrite ?(lookup_complete total_seconds), ?(lookup_fail total_seconds),
            ?lookup_start;
          rewrite ?decide_True by done;
          rewrite ?decide_False by congruence).

Ltac stages_after :=
  split;
  [ eexists; lookups; done
  | let n := fresh "n" in
    let info := fresh "info" in
    intros n info;
    destruct (decide (n = "search")) as [->|?];
    [|destruct (decide (n = "embed_texts")) as [->|?]];
    lookups; try done; by intros [= <-] ].

Lemma search_run query w :
  let r := search total_seconds svc TOP_K_DEFAULT clock query w in
  r.1 = search_outcome query
  ∧ (∃ info, stage_of r.2 "search" = Some info
             ∧ description info = ("Query: " ++ substring 0 50 query)%string
             ∧ status info = match r.1 with
                             | Returned _ => COMPLETED
                             | Raised _ => FAILED
                             end)
  ∧ ∀ n info, stage_of r.2 n = Some info → status info = IN_PROGRESS →
              stage_of w n = Some info.
Proof.
  destruct w as [tracker n0]. cbv zeta. run_search.
  destruct (connect_to_custom svc) as [[]|e1]; [|split; [done | stages_after]].
  destruct (collections_get svc) as [[]|e2]; [|split; [done | stages_after]].
  destruct (ollama_embed svc [query]) as [[|v vs]|e3];
    [split; [done | stages_after] | | split; [done | stages_after]].
  destruct (near_vector svc v TOP_K_DEFAULT) as [objects|e4];
    [|split; [done | stages_after]].
  destruct (client_close svc) as [[]|e5]; [|split; [done | stages_after]].
  destruct (_filterresults objects) as [filtered|e6];
    [|split; [done | stages_after]].
  split; [by case_decide; subst | stages_after].
Qed.

(** X20: what [search] returns or raises does not depend on the tracker
    or on the clock: it is the first exception raised by a service, by
    the reading of the first embedding or by the filter, and otherwise
    the map the filter returns on the hits of the query. *)
Theorem search_returns_the_filtered_hits query w :
  (search total_seconds svc TOP_K_DEFAULT clock query w).1 = search_outcome query.
Proof. apply (search_run query w). Qed.

(** X21: [search] leaves none of its stages open.  When it returns the
    stage "search" is COMPLETED, when it raises the stage is FAILED, in
    both cases with the start of the query as its description; and a
    stage that is IN_PROGRESS afterwards was so before the call. *)
Theorem search_closes_its_stages query w :
  let r := search total_seconds svc TOP_K_DEFAULT clock query w in
  (∃ info, stage_of r.2 "search" = Some info
           ∧ description info = ("Query: " ++ substring 0 50 query)%string
           ∧ status info = match r.1 with
                           | Returned _ => COMPLETED
                           | Raised _ => FAILED
                           end)
  ∧ ∀ n info, stage_of r.2 n = Some info → status info = IN_PROGRESS →
              stage_of w n = Some info.
Proof. apply (search_run query w). Qed.

(** X22: a query that gets no hit makes [search] raise
    [KeyError('doc_name')], and the stage "search" is FAILED. *)
Theorem search_without_hits_raises query w query_vector embeddings :
  connect_to_custom svc = Returned () →
  collections_get svc = Returned () →
  ollama_embed svc [query] = Returned (query_vector :: embeddings) →
  near_vector svc query_vector TOP_K_DEFAULT = Returned [] →
  client_close svc = Returned () →
  let r := search total_seconds svc TOP_K_DEFAULT clock query w in
  r.1 = Raised (Own (KeyError "doc_name"))
  ∧ ∃ info, stage_of r.2 "search" = Some info ∧ status info = FAILED.
Proof.
  intros H1 H2 H3 H4 H5. cbv zeta.
  destruct (search_run query w) as (Hr & (info & Hinfo & _ & Hst) & _).
  assert (search_outcome query = Raised (Own (KeyError "doc_name"))) as Ho.
  { unfold search_outcome. by rewrite H1, H2, H3, H4, H5. }
  rewrite Ho in Hr. split; [done|]. exists info. by rewrite Hr in Hst.
Qed.

End pipeline.

(** Services that answer, with no hit for the query. *)
Definition no_hit_services : @services unit :=
  {| connect_to_custom := Returned ();
     collections_get := Returned ();
     ollama_embed texts := Returned (map (λ _, ()) texts);
     near_vector _ _ := Returned [];
     client_close := Returned () |}.

Lemma search_without_hits_raises_witness :
  let w := World (@__init__ Q) 0 in
  let r := @search SearchFacts.exact_numpy Q exact_seconds unit no_hit_services 25
             Z.of_nat "akira" w in
  connect_to_custom no_hit_services = Returned ()
  ∧ collections_get no_hit_services = Returned ()
  ∧ ollama_embed no_hit_services ["akira"] = Returned [()]
  ∧ near_vector no_hit_services () 25 = Returned []
  ∧ client_close no_hit_services = Returned ()
  ∧ r.1 = Raised (Own (KeyError "doc_name"))
  ∧ ∃ info, stage_of r.2 "search" = Some info ∧ status info = FAILED.
Proof.
  intros w r. do 5 (split; [reflexivity|]).
  exact (@search_without_hits_raises SearchFacts.exact_numpy Q exact_seconds unit
           no_hit_services 25 Z.of_nat "akira" w () []
           eq_refl eq_refl eq_refl eq_refl eq_refl).
Defined.

End PipelineFacts.
